(** * OpenCCFontGenerator: the font table transformation engine

    A shallow embedding of [src/OpenCCFontGenerator/font.py] and the
    properties of its partitioner, reverse index, pruner and reachability
    analysis.

    Conventions of the embedding.
    - A Python [dict] is a [gmap]; where the source iterates over a dict or
      a set and the order could matter, the iteration order is a parameter
      or the statement quantifies over every permutation.
    - A Python exception is the constructor [Raise] of [res]; nothing in the
      source catches the exceptions modelled here, so the state in which an
      exception leaves the font is not kept.
    - [print] only writes to the standard output and is not modelled. *)

From stdpp Require Import base option list gmap strings pretty sorting.

Set Warnings "-clear-no-such-hyp".

Open Scope string_scope.
Open Scope nat_scope.
Open Scope list_scope.

(** ** Exceptions *)

Inductive exn :=
| KeyError | ValueError | IndexError | TypeError
| NotImplementedError | AssertionError.

Inductive res (A : Type) :=
| Ok (a : A)
| Raise (e : exn).
Arguments Ok {A} a.
Arguments Raise {A} e.

#[global] Instance res_ret : MRet res := @Ok.
#[global] Instance res_bind : MBind res := λ A B f m,
  match m with Ok a => f a | Raise e => Raise e end.
#[global] Instance res_fmap : FMap res := λ A B f m,
  match m with Ok a => Ok (f a) | Raise e => Raise e end.

(** [for x in l: body] over a state [S], stopping at the first exception. *)
Fixpoint for_each {A S : Type} (l : list A) (body : A → S → res S) (s : S)
  : res S :=
  match l with
  | [] => Ok s
  | x :: l' => s' ← body x s; for_each l' body s'
  end.

(** A list comprehension whose element expression may raise. *)
Fixpoint traverse {A B : Type} (f : A → res B) (l : list A) : res (list B) :=
  match l with
  | [] => Ok []
  | x :: l' => y ← f x; ys ← traverse f l'; Ok (y :: ys)
  end.

(** ** Subtable partitioner: [grouper] and [grouper2] *)

Definition SUBTABLE_MAX_COUNT : nat := 4000.

Section grouper.
Context {A : Type}.

(** The inner loop [for _ in range(n): lst.append(next(iterator))]:
    the list built so far, what is left of the iterator, and whether
    [StopIteration] was raised.  [range(n)] is empty for [n <= 0], so a
    natural number loses nothing. *)
Fixpoint fill (n : nat) (lst iterator : list A) : list A * list A * bool :=
  match n with
  | O => (lst, iterator, false)
  | S n' =>
      match iterator with
      | [] => (lst, [], true)
      | x :: iterator' => fill n' (lst ++ [x]) iterator'
      end
  end.

(** The [while True] loop of the generator; the result is the list of the
    values it yields.  [None] means the loop is still running when the
    fuel is spent. *)
Fixpoint grouper_loop (fuel n : nat) (iterator : list A)
  : option (list (list A)) :=
  match fuel with
  | O => None
  | S fuel' =>
      match fill n [] iterator with
      | (lst, _, true) => Some (match lst with [] => [] | _ => [lst] end)
      | (lst, iterator', false) =>
          (lst ::.) <$> grouper_loop fuel' n iterator'
      end
  end.

(** [list(grouper(iterable, n))]. With [n >= 1] every turn of the loop
    takes an item or stops, so [S (length iterable)] turns are enough;
    with [n = 0] the generator yields empty lists for ever. *)
Definition grouper (n : nat) (iterable : list A) : option (list (list A)) :=
  grouper_loop (S (length iterable)) n iterable.
End grouper.

Section grouper2.
Context {A K : Type} `{EqDecision K}.

(** [itertools.groupby]: the maximal runs of consecutive items with equal
    keys, each with its key (library code, from its documentation). *)
Fixpoint groupby (key : A → K) (iterable : list A) : list (K * list A) :=
  match iterable with
  | [] => []
  | x :: rest =>
      match groupby key rest with
      | (k, vx) :: groups =>
          if decide (key x = k) then (k, x :: vx) :: groups
          else (key x, [x]) :: (k, vx) :: groups
      | [] => [(key x, [x])]
      end
  end.

(** [list(grouper2(iterable, n, key))]; [key=None] is the identity. *)
Definition grouper2 (n : nat) (key : A → K) (iterable : list A)
  : option (list (list A)) :=
  mjoin <$> mapM (λ kvx, grouper n kvx.2) (groupby key iterable).
End grouper2.


(** ** The decoded font document *)

(** Parts of the document the engine never looks into (metrics, anchors,
    flags, ...) are kept as plain JSON values. *)
#[warnings="-register-all"] Inductive json :=
| JNull
| JNum (n : Z)
| JStr (s : string)
| JArr (l : list json)
| JObj (l : list (string * json)).

(** Code points are the keys of [cmap].  The document spells a key as the
    decimal string of the code point and the source converts with [str] and
    [int] at every access; the embedding keeps the number itself. *)
Abbreviation codepoint := N (only parsing).
Abbreviation glyph := string (only parsing).

(** [{'from': [...], 'to': ...}] *)
Record substitution := { from : list glyph; to : glyph }.

Module Ligature.
Record subtable := { substitutions : list substitution }.
End Ligature.

Module Pair.
Record subtable := { first : gmap glyph json; second : gmap glyph json }.
End Pair.

Module MarkToBase.
Record subtable := { marks : gmap glyph json; bases : gmap glyph json }.
End MarkToBase.

Module MarkToMark.
Record subtable := { marks : gmap glyph json; mark2s : gmap glyph json }.
End MarkToMark.

Module MarkToLigature.
(** [bases] is walked as a dict of dicts of dicts keyed by glyph name. *)
Record subtable := {
  marks : gmap glyph json;
  bases : gmap string (gmap string (gmap glyph json));
}.
End MarkToLigature.

(** A rule of a contextual lookup; every key is read with [rule.get(k, [])]. *)
Module Rule.
Record t := {
  input : option (list glyph);
  backtrack : option (list glyph);
  lookahead : option (list glyph);
  lookups : option (list glyph);
}.
End Rule.

(** A subtable of [gpos_context]: its shape is told by the keys it has. *)
Module Context.
Record subtable := {
  rules : option (list Rule.t);
  coverage : option (list glyph);
  pos : option (list json);
  classes : option (list (list glyph));
}.
End Context.

Module Chaining.
Record subtable := { rules : option (list Rule.t) }.
End Chaining.

(** The [type] tag of a lookup together with its [subtables], whose shape
    the tag fixes.  [other_type] stands for every tag the source has no
    branch for. *)
Inductive subtables :=
| gsub_single (sts : list (gmap glyph glyph))
| gsub_alternate (sts : list (gmap glyph (list glyph)))
| gsub_ligature (sts : list Ligature.subtable)
| gsub_multiple (sts : list (gmap glyph (list glyph)))
| gpos_single (sts : list (gmap glyph json))
| gpos_pair (sts : list Pair.subtable)
| gpos_mark_to_base (sts : list MarkToBase.subtable)
| gpos_mark_to_mark (sts : list MarkToMark.subtable)
| gpos_mark_to_ligature (sts : list MarkToLigature.subtable)
| gpos_cursive (sts : list (gmap glyph json))
| gpos_context (sts : list Context.subtable)
| gpos_chaining (sts : list Chaining.subtable)
| other_type (type : string) (sts : json).

Record lookup_record := { flags : json; typed : subtables }.

Module Language.
Record t := { features : list string; rest : json }.
End Language.

(** A [GSUB] or [GPOS] table. *)
Module Otl.
Record table := {
  languages : gmap string Language.t;
  features : gmap string (list string);
  lookups : gmap string lookup_record;
  lookupOrder : list string;
}.
End Otl.

Module Base.
Record base_record := { BaseCoord : option (gmap glyph json) }.
Record base_lang_sys := { BaseValues : option (list base_record) }.
Record base_tag_list := {
  BaseScriptList : option (gmap string (gmap string base_lang_sys));
}.
Record horiz_axis := { BaseTagList : option base_tag_list }.
Record table := { HorizAxis : option horiz_axis }.
End Base.

Record name_entry := { nameID : Z; nameString : string; name_rest : json }.

(** A float is kept as its [repr]; [str] of it is then the identity. *)
Abbreviation float := string (only parsing).

Record head_table := { fontRevision : float; head_rest : json }.

(** What [otfccdump] prints and [otfccbuild] reads. *)
Record document := {
  doc_cmap : gmap codepoint glyph;
  doc_glyph_order : list glyph;
  doc_glyf : gmap glyph json;
  doc_GSUB : option Otl.table;
  doc_GPOS : option Otl.table;
  doc_BASE : option Base.table;
  doc_name : list name_entry;
  doc_head : head_table;
}.

(** The font object of the pipeline: the document with the key [cmap_rev]
    added by [load_font] and taken away by [save_font]. *)
Record font := {
  cmap : gmap codepoint glyph;
  cmap_rev : gmap glyph (list codepoint);
  glyph_order : list glyph;
  glyf : gmap glyph json;
  GSUB : option Otl.table;
  GPOS : option Otl.table;
  BASE : option Base.table;
  name : list name_entry;
  head : head_table;
}.

(** Field updates, as the assignments [obj[k] = v] of the source. *)
Definition set_cmap (v : gmap codepoint glyph) (obj : font) : font :=
  {| cmap := v; cmap_rev := cmap_rev obj; glyph_order := glyph_order obj;
     glyf := glyf obj; GSUB := GSUB obj; GPOS := GPOS obj; BASE := BASE obj;
     name := name obj; head := head obj |}.
Definition set_cmap_rev (v : gmap glyph (list codepoint)) (obj : font) : font :=
  {| cmap := cmap obj; cmap_rev := v; glyph_order := glyph_order obj;
     glyf := glyf obj; GSUB := GSUB obj; GPOS := GPOS obj; BASE := BASE obj;
     name := name obj; head := head obj |}.
Definition set_glyph_order (v : list glyph) (obj : font) : font :=
  {| cmap := cmap obj; cmap_rev := cmap_rev obj; glyph_order := v;
     glyf := glyf obj; GSUB := GSUB obj; GPOS := GPOS obj; BASE := BASE obj;
     name := name obj; head := head obj |}.
Definition set_glyf (v : gmap glyph json) (obj : font) : font :=
  {| cmap := cmap obj; cmap_rev := cmap_rev obj; glyph_order := glyph_order obj;
     glyf := v; GSUB := GSUB obj; GPOS := GPOS obj; BASE := BASE obj;
     name := name obj; head := head obj |}.
Definition set_GSUB (v : option Otl.table) (obj : font) : font :=
  {| cmap := cmap obj; cmap_rev := cmap_rev obj; glyph_order := glyph_order obj;
     glyf := glyf obj; GSUB := v; GPOS := GPOS obj; BASE := BASE obj;
     name := name obj; head := head obj |}.
Definition set_GPOS (v : option Otl.table) (obj : font) : font :=
  {| cmap := cmap obj; cmap_rev := cmap_rev obj; glyph_order := glyph_order obj;
     glyf := glyf obj; GSUB := GSUB obj; GPOS := v; BASE := BASE obj;
     name := name obj; head := head obj |}.
Definition set_BASE (v : option Base.table) (obj : font) : font :=
  {| cmap := cmap obj; cmap_rev := cmap_rev obj; glyph_order := glyph_order obj;
     glyf := glyf obj; GSUB := GSUB obj; GPOS := GPOS obj; BASE := v;
     name := name obj; head := head obj |}.
Definition set_name_head (n : list name_entry) (h : head_table) (obj : font)
  : font :=
  {| cmap := cmap obj; cmap_rev := cmap_rev obj; glyph_order := glyph_order obj;
     glyf := glyf obj; GSUB := GSUB obj; GPOS := GPOS obj; BASE := BASE obj;
     name := n; head := h |}.

Definition set_lookups (v : gmap string lookup_record) (t : Otl.table)
  : Otl.table :=
  {| Otl.languages := Otl.languages t; Otl.features := Otl.features t;
     Otl.lookups := v; Otl.lookupOrder := Otl.lookupOrder t |}.

(** ** Python list and dict primitives *)

Section python_list.
Context {A : Type} `{EqDecision A}.

(** [l.remove(x)] takes the first occurrence of [x] out of [l]; on a list
    without [x] it raises [ValueError], and [remove_first] leaves the list
    as it is. *)
Fixpoint remove_first (x : A) (l : list A) : list A :=
  match l with
  | [] => []
  | y :: l' => if decide (x = y) then l' else y :: remove_first x l'
  end.

Definition list_remove (x : A) (l : list A) : res (list A) :=
  if decide (x ∈ l) then Ok (remove_first x l) else Raise ValueError.

(** [l.index(x)] of an [x] that is in [l]. *)
Fixpoint index_of (x : A) (l : list A) : nat :=
  match l with
  | [] => 0
  | y :: l' => if decide (x = y) then 0 else S (index_of x l')
  end.
End python_list.

(** [l.pop(index)] for an index that is not negative. *)
Definition list_pop {A : Type} (index : nat) (l : list A) : res (list A) :=
  if decide (index < length l) then Ok (delete index l) else Raise IndexError.

(** [del d[k]] *)
Definition dict_del `{Countable K} {V : Type} (k : K) (d : gmap K V)
  : res (gmap K V) :=
  match d !! k with
  | Some _ => Ok (delete k d)
  | None => Raise KeyError
  end.

(** A loop over the values of a dict that rewrites each value in place and
    may raise. *)
Definition dict_traverse `{Countable K} {V : Type} (f : V → res V)
    (d : gmap K V) : res (gmap K V) :=
  map_fold (λ k v acc, d' ← acc; v' ← f v; Ok (<[k := v']> d')) (Ok ∅) d.

(** ** Reverse index *)

(** [cmap_rev] is a [defaultdict(list)]: reading a missing key gives the
    empty list.  (The read also stores that empty list; wherever the source
    reads a key it either deletes the key next or raises, so the stored
    list is never seen.) *)
Definition cmap_rev_get (cmap_rev : gmap glyph (list codepoint))
    (glyph_name : glyph) : list codepoint :=
  default [] (cmap_rev !! glyph_name).

(** The loop of [build_cmap_rev] over [cmap.items()] in the given order. *)
Definition build_cmap_rev_items (items : list (codepoint * glyph))
  : gmap glyph (list codepoint) :=
  foldl (λ cmap_rev item,
           <[item.2 := cmap_rev_get cmap_rev item.2 ++ [item.1]]> cmap_rev)
        ∅ items.

Definition build_cmap_rev (cmap : gmap codepoint glyph)
  : gmap glyph (list codepoint) :=
  build_cmap_rev_items (map_to_list cmap).

Definition codepoint_to_glyph_name (obj : font) (codepoint : codepoint)
  : res glyph :=
  from_option Ok (Raise KeyError) (cmap obj !! codepoint).

Definition empty_glyph : json :=
  JObj [("advanceWidth", JNum 0); ("advanceHeight", JNum 1000);
        ("verticalOrigin", JNum 880)].

Definition insert_empty_glyph (obj : font) (name : glyph) : font :=
  set_glyph_order (glyph_order obj ++ [name])
    (set_glyf (<[name := empty_glyph]> (glyf obj)) obj).

Definition get_glyph_count (obj : font) : nat := length (glyph_order obj).

Definition disassociate_codepoint_and_glyph_name (obj : font)
    (codepoint : codepoint) (glyph_name : glyph) : res (font * bool) :=
  cmap' ← dict_del codepoint (cmap obj);
  let is_only_item :=
    bool_decide (cmap_rev_get (cmap_rev obj) glyph_name = [codepoint]) in
  if is_only_item then
    Ok (set_cmap_rev (delete glyph_name (cmap_rev obj)) (set_cmap cmap' obj),
        true)
  else
    l ← list_remove codepoint (cmap_rev_get (cmap_rev obj) glyph_name);
    Ok (set_cmap_rev (<[glyph_name := l]> (cmap_rev obj)) (set_cmap cmap' obj),
        false).

Definition remove_associated_codepoints_of_glyph (obj : font)
    (glyph_name : glyph) : res font :=
  cmap' ← for_each (cmap_rev_get (cmap_rev obj) glyph_name)
            (λ codepoint cmap, dict_del codepoint cmap) (cmap obj);
  Ok (set_cmap_rev (delete glyph_name (cmap_rev obj)) (set_cmap cmap' obj)).

(** ** Glyph removal *)

Section remove_glyph.
Variable glyph_name : glyph.

(** [glyph_name not in rule.get(k, [])] *)
Definition not_in (l : option (list glyph)) : Prop :=
  glyph_name ∉ default [] l.

(** [subtable.pop(glyph_name, None)], then the loop popping every key whose
    value is the glyph. *)
Definition remove_glyph_single (subtable : gmap glyph glyph)
  : gmap glyph glyph :=
  filter (λ kv, kv.2 ≠ glyph_name) (delete glyph_name subtable).

(** [subtable.pop(glyph_name, None)], then [alternates.remove(glyph_name)]
    on every list that holds the glyph; the test [key == glyph_name] of
    that loop cannot hold after the pop. *)
Definition remove_glyph_alternate (subtable : gmap glyph (list glyph))
  : gmap glyph (list glyph) :=
  remove_first glyph_name <$> delete glyph_name subtable.

Definition remove_glyph_ligature (subtable : Ligature.subtable)
  : Ligature.subtable :=
  {| Ligature.substitutions :=
       filter (λ s, (glyph_name ∉ from s) ∧ glyph_name ≠ to s)
              (Ligature.substitutions subtable) |}.

Definition remove_glyph_gsub_lookup (lookup : lookup_record) : lookup_record :=
  match typed lookup with
  | gsub_single sts =>
      {| flags := flags lookup;
         typed := gsub_single (remove_glyph_single <$> sts) |}
  | gsub_alternate sts =>
      {| flags := flags lookup;
         typed := gsub_alternate (remove_glyph_alternate <$> sts) |}
  | gsub_ligature sts =>
      {| flags := flags lookup;
         typed := gsub_ligature (remove_glyph_ligature <$> sts) |}
  | _ => lookup (* print: Unknown GSUB lookup type *)
  end.

Definition remove_glyph_pair (subtable : Pair.subtable) : Pair.subtable :=
  {| Pair.first := delete glyph_name (Pair.first subtable);
     Pair.second := delete glyph_name (Pair.second subtable) |}.

Definition remove_glyph_mark_to_base (subtable : MarkToBase.subtable)
  : MarkToBase.subtable :=
  {| MarkToBase.marks := delete glyph_name (MarkToBase.marks subtable);
     MarkToBase.bases := delete glyph_name (MarkToBase.bases subtable) |}.

Definition remove_glyph_mark_to_mark (subtable : MarkToMark.subtable)
  : MarkToMark.subtable :=
  {| MarkToMark.marks := delete glyph_name (MarkToMark.marks subtable);
     MarkToMark.mark2s := delete glyph_name (MarkToMark.mark2s subtable) |}.

Definition remove_glyph_mark_to_ligature (subtable : MarkToLigature.subtable)
  : MarkToLigature.subtable :=
  {| MarkToLigature.marks := delete glyph_name (MarkToLigature.marks subtable);
     MarkToLigature.bases :=
       (λ anchors : gmap string (gmap glyph json),
          (λ anchor : gmap glyph json, delete glyph_name anchor) <$> anchors)
         <$> MarkToLigature.bases subtable |}.

Definition remove_glyph_context (subtable : Context.subtable)
  : res Context.subtable :=
  match Context.rules subtable with
  | Some rules =>
      Ok {| Context.rules :=
              Some (filter (λ rule, not_in (Rule.input rule) ∧
                                    not_in (Rule.lookups rule)) rules);
            Context.coverage := Context.coverage subtable;
            Context.pos := Context.pos subtable;
            Context.classes := Context.classes subtable |}
  | None =>
      match Context.coverage subtable, Context.pos subtable with
      | Some coverage, Some pos =>
          if decide (glyph_name ∈ coverage) then
            let index := index_of glyph_name coverage in
            coverage' ← list_pop index coverage;
            pos' ← list_pop index pos;
            Ok {| Context.rules := None;
                  Context.coverage := Some coverage';
                  Context.pos := Some pos';
                  Context.classes := Context.classes subtable |}
          else Ok subtable
      | _, _ =>
          match Context.classes subtable with
          | Some classes =>
              Ok {| Context.rules := None;
                    Context.coverage := Context.coverage subtable;
                    Context.pos := Context.pos subtable;
                    Context.classes :=
                      Some (remove_first glyph_name <$> classes) |}
          | None => Ok subtable (* print: Unknown subtable format *)
          end
      end
  end.

Definition remove_glyph_chaining (subtable : Chaining.subtable)
  : Chaining.subtable :=
  match Chaining.rules subtable with
  | Some rules =>
      {| Chaining.rules :=
           Some (filter (λ rule, not_in (Rule.input rule) ∧
                                 not_in (Rule.backtrack rule) ∧
                                 not_in (Rule.lookahead rule) ∧
                                 not_in (Rule.lookups rule)) rules) |}
  | None => subtable (* print: Unknown subtable format *)
  end.

Definition remove_glyph_gpos_lookup (lookup : lookup_record)
  : res lookup_record :=
  match typed lookup with
  | gpos_single sts =>
      Ok {| flags := flags lookup;
            typed := gpos_single (delete glyph_name <$> sts) |}
  | gpos_pair sts =>
      Ok {| flags := flags lookup;
            typed := gpos_pair (remove_glyph_pair <$> sts) |}
  | gpos_mark_to_base sts =>
      Ok {| flags := flags lookup;
            typed := gpos_mark_to_base (remove_glyph_mark_to_base <$> sts) |}
  | gpos_mark_to_mark sts =>
      Ok {| flags := flags lookup;
            typed := gpos_mark_to_mark (remove_glyph_mark_to_mark <$> sts) |}
  | gpos_mark_to_ligature sts =>
      Ok {| flags := flags lookup;
            typed :=
              gpos_mark_to_ligature (remove_glyph_mark_to_ligature <$> sts) |}
  | gpos_cursive sts =>
      Ok {| flags := flags lookup;
            typed := gpos_cursive (delete glyph_name <$> sts) |}
  | gpos_context sts =>
      sts' ← traverse remove_glyph_context sts;
      Ok {| flags := flags lookup; typed := gpos_context sts' |}
  | gpos_chaining sts =>
      Ok {| flags := flags lookup;
            typed := gpos_chaining (remove_glyph_chaining <$> sts) |}
  | _ => Ok lookup (* print: Unknown GPOS lookup type *)
  end.

Definition remove_glyph_base_record (base_record : Base.base_record)
  : Base.base_record :=
  {| Base.BaseCoord := delete glyph_name <$> Base.BaseCoord base_record |}.

Definition remove_glyph_base_lang_sys (base_lang_sys : Base.base_lang_sys)
  : Base.base_lang_sys :=
  {| Base.BaseValues :=
       (λ base_values : list Base.base_record,
          remove_glyph_base_record <$> base_values)
         <$> Base.BaseValues base_lang_sys |}.

Definition remove_glyph_base (base_table : Base.table) : Base.table :=
  {| Base.HorizAxis :=
       (λ axis,
          {| Base.BaseTagList :=
               (λ tags,
                  {| Base.BaseScriptList :=
                       (λ scripts : gmap string (gmap string Base.base_lang_sys),
                          (λ axis : gmap string Base.base_lang_sys,
                             remove_glyph_base_lang_sys <$> axis) <$> scripts)
                         <$> Base.BaseScriptList tags |})
                 <$> Base.BaseTagList axis |})
         <$> Base.HorizAxis base_table |}.

(** [remove_glyph(obj, glyph_name)].  A missing [GSUB], [GPOS] or [BASE]
    is skipped ([obj.get('GSUB', {})], [if 'BASE' in obj]). *)
Definition remove_glyph (obj : font) : res font :=
  let obj := set_glyph_order (remove_first glyph_name (glyph_order obj)) obj in
  let obj := set_glyf (delete glyph_name (glyf obj)) obj in
  let obj :=
    set_GSUB ((λ t, set_lookups (remove_glyph_gsub_lookup <$> Otl.lookups t) t)
                <$> GSUB obj) obj in
  gpos ← match GPOS obj with
         | Some t =>
             lookups ← dict_traverse remove_glyph_gpos_lookup (Otl.lookups t);
             Ok (Some (set_lookups lookups t))
         | None => Ok None
         end;
  let obj := set_GPOS gpos obj in
  Ok (set_BASE (remove_glyph_base <$> BASE obj) obj).
End remove_glyph.

(** ** Codepoint removal *)

(** [if not glyph_name: return] leaves when [cmap.get] finds nothing, and
    also when the name found is the empty string. *)
Definition remove_codepoint (obj : font) (codepoint : codepoint) : res font :=
  match cmap obj !! codepoint with
  | None => Ok obj
  | Some glyph_name =>
      if decide (glyph_name = "") then Ok obj
      else
        '(obj, is_only_item) ←
          disassociate_codepoint_and_glyph_name obj codepoint glyph_name;
        if is_only_item : bool then remove_glyph glyph_name obj else Ok obj
  end.

Definition remove_codepoints (obj : font) (codepoints : list codepoint)
  : res font :=
  for_each codepoints (λ codepoint obj, remove_codepoint obj codepoint) obj.

(** ** Reachability *)

(** What one lookup adds to the reachable glyphs for [glyph_name].  The
    source scans [subtable.items()] for the key [glyph_name]; a dict has a
    key once, so the scan is a lookup. *)
Definition lookup_targets (glyph_name : glyph) (lookup : lookup_record)
  : res (gset glyph) :=
  match typed lookup with
  | gsub_single sts =>
      Ok (⋃ ((λ subtable : gmap glyph glyph,
                match subtable !! glyph_name with
                | Some v => {[v]}
                | None => ∅
                end) <$> sts))
  | gsub_alternate sts =>
      Ok (⋃ ((λ subtable : gmap glyph (list glyph),
                match subtable !! glyph_name with
                | Some vs => list_to_set vs
                | None => ∅
                end) <$> sts))
  | gsub_ligature sts =>
      Ok (⋃ ((λ subtable,
                list_to_set
                  (to <$> filter (λ item, glyph_name ∈ from item)
                            (Ligature.substitutions subtable))) <$> sts))
  | _ => Raise NotImplementedError
  end.

Definition get_reachable_glyphs (obj : font) : res (gset glyph) :=
  for_each (map_to_list (cmap obj)).*2
    (λ glyph_name (reachable_glyphs : gset glyph),
       let reachable_glyphs := {[glyph_name]} ∪ reachable_glyphs in
       gsub ← from_option Ok (Raise KeyError) (GSUB obj);
       for_each (map_to_list (Otl.lookups gsub)).*2
         (λ lookup (reachable_glyphs : gset glyph),
            targets ← lookup_targets glyph_name lookup;
            Ok (targets ∪ reachable_glyphs))
         reachable_glyphs)
    {[".notdef"; ".null"]}.

(** The loop of [clean_unused_glyphs] over the glyphs in the given order. *)
Definition sweep (glyphs : list glyph) (obj : font) : res font :=
  for_each glyphs
    (λ glyph_name obj,
       obj ← remove_associated_codepoints_of_glyph obj glyph_name;
       remove_glyph glyph_name obj)
    obj.

(** [order] is the order in which Python iterates over a set of strings. *)
Definition clean_unused_glyphs (order : gset glyph → list glyph) (obj : font)
  : res font :=
  reachable_glyphs ← get_reachable_glyphs obj;
  let all_glyphs : gset glyph := list_to_set (glyph_order obj) in
  sweep (order (all_glyphs ∖ reachable_glyphs)) obj.

(** An iteration order visits every element of the set once. *)
Definition set_order (order : gset glyph → list glyph) : Prop :=
  ∀ s, order s ≡ₚ elements s.

(** ** Lookup assembler *)

Definition insert_empty_feature (obj : font) (feature_name : string)
  : res font :=
  gsub ← from_option Ok (Raise KeyError) (GSUB obj);
  let languages :=
    (λ table : Language.t,
       {| Language.features := Language.features table ++ [feature_name];
          Language.rest := Language.rest table |}) <$> Otl.languages gsub in
  Ok (set_GSUB
        (Some {| Otl.languages := languages;
                 Otl.features := <[feature_name := []]> (Otl.features gsub);
                 Otl.lookups := Otl.lookups gsub;
                 Otl.lookupOrder := Otl.lookupOrder gsub |}) obj).

(** The three statements that end every [create_*_table]: append the lookup
    name to the feature, store the lookup, append its name to
    [lookupOrder]. *)
Definition register_lookup (obj : font) (feature_name lookup_name : string)
    (typed : subtables) : res font :=
  gsub ← from_option Ok (Raise KeyError) (GSUB obj);
  feature ← from_option Ok (Raise KeyError) (Otl.features gsub !! feature_name);
  Ok (set_GSUB
        (Some {| Otl.languages := Otl.languages gsub;
                 Otl.features :=
                   <[feature_name := feature ++ [lookup_name]]>
                     (Otl.features gsub);
                 Otl.lookups :=
                   <[lookup_name := {| flags := JObj []; typed := typed |}]>
                     (Otl.lookups gsub);
                 Otl.lookupOrder := Otl.lookupOrder gsub ++ [lookup_name] |})
        obj).

(** [grouper2] and [grouper] at the default [n = SUBTABLE_MAX_COUNT]; the
    generators stop because that constant is positive. *)
Definition subtable_groups2 {A} (key : A → nat) (conversions : list A)
  : list (list A) :=
  default [] (grouper2 SUBTABLE_MAX_COUNT key conversions).
Definition subtable_groups {A} (conversions : list A) : list (list A) :=
  default [] (grouper SUBTABLE_MAX_COUNT conversions).

(** [{k: v for k, v in subtable}]: a later pair overwrites an earlier one. *)
Definition dict_of {V} (subtable : list (glyph * V)) : gmap glyph V :=
  foldl (λ d kv, <[kv.1 := kv.2]> d) ∅ subtable.

Definition word2pseu_subtable (subtable : list (list glyph * glyph))
  : Ligature.subtable :=
  {| Ligature.substitutions :=
       (λ item, {| from := item.1; to := item.2 |}) <$> subtable |}.

Definition create_word2pseu_table (obj : font) (feature_name : string)
    (conversions : list (list glyph * glyph)) : res font :=
  let conversion_item_len (conversion_item : list glyph * glyph) :=
    length conversion_item.1 in
  let subtables :=
    word2pseu_subtable <$> subtable_groups2 conversion_item_len conversions in
  register_lookup obj feature_name "word2pseu" (gsub_ligature subtables).

Definition create_char2char_table (obj : font) (feature_name : string)
    (conversions : list (glyph * glyph)) : res font :=
  let subtables := dict_of <$> subtable_groups conversions in
  register_lookup obj feature_name "char2char" (gsub_single subtables).

Definition create_pseu2word_table (obj : font) (feature_name : string)
    (conversions : list (glyph * list glyph)) : res font :=
  let conversion_item_len (conversion_item : glyph * list glyph) :=
    length conversion_item.2 in
  let subtables :=
    dict_of <$> subtable_groups2 conversion_item_len conversions in
  register_lookup obj feature_name "pseu2word" (gsub_multiple subtables).

(** ** Conversion tables *)

(** A Python [str] whose characters are inspected: its code points. *)
Abbreviation text := (list N) (only parsing).

(** [line.rstrip('\n')] *)
Fixpoint lstrip_newline (line : text) : text :=
  match line with
  | c :: line' => if decide (c = 10%N) then lstrip_newline line' else line
  | [] => []
  end.
Definition rstrip_newline (line : text) : text :=
  reverse (lstrip_newline (reverse line)).

(** [s.split('\t')] *)
Fixpoint split_tab (s : text) : list text :=
  match s with
  | [] => [[]]
  | c :: s' =>
      if decide (c = 9%N) then [] :: split_tab s'
      else match split_tab s' with
           | field :: fields => (c :: field) :: fields
           | [] => [[c]]
           end
  end.

(** [k, v = line.rstrip('\n').split('\t')] *)
Definition parse_line (line : text) : res (text * text) :=
  match split_tab (rstrip_newline line) with
  | [k; v] => Ok (k, v)
  | _ => Raise ValueError
  end.

Definition ord (c : text) : res N :=
  match c with
  | [codepoint] => Ok codepoint
  | _ => Raise TypeError
  end.

Definition build_codepoints_font (obj : font) : gset codepoint :=
  dom (cmap obj).

Definition range (start stop : N) : list N :=
  (λ i, start + N.of_nat i)%N <$> seq 0 (N.to_nat (stop - start)).

Definition build_codepoints_non_han : gset codepoint :=
  list_to_set
    (range 0x0020 (0x00FF + 1) ++ range 0x02B0 (0x02FF + 1) ++
     range 0x2002 (0x203B + 1) ++ range 0x2E00 (0x2E7F + 1) ++
     range 0x2E80 (0x2EFF + 1) ++ range 0x3000 (0x301C + 1) ++
     range 0x3100 (0x312F + 1) ++ range 0x3190 (0x31BF + 1) ++
     range 0xFE10 (0xFE1F + 1) ++ range 0xFE30 (0xFE4F + 1) ++
     range 0xFF01 (0xFF5E + 1) ++ range 0xFF5F (0xFF60 + 1) ++
     range 0xFF61 (0xFF64 + 1))%N.

(** The loop over the lines of [cache/convert_table_chars*.txt]. *)
Definition build_opencc_char_table (codepoints_font : gset codepoint)
    (lines : list text) : res (list (codepoint * codepoint)) :=
  for_each lines
    (λ line entries,
       '(k, v) ← parse_line line;
       codepoint_k ← ord k;
       codepoint_v ← ord v;
       if decide (codepoint_k ∈ codepoints_font ∧ codepoint_v ∈ codepoints_font)
       then Ok (entries ++ [(codepoint_k, codepoint_v)])
       else Ok entries)
    [].

(** The loop over the lines of [cache/convert_table_words*.txt]. *)
Definition build_opencc_word_table (codepoints_font : gset codepoint)
    (lines : list text) : res (list (list codepoint * list codepoint)) :=
  for_each lines
    (λ line entries,
       '(codepoints_k, codepoints_v) ← parse_line line;
       if decide (Forall (λ c, c ∈ codepoints_font) codepoints_k ∧
                  Forall (λ c, c ∈ codepoints_font) codepoints_v)
       then Ok (entries ++ [(codepoints_k, codepoints_v)])
       else Ok entries)
    [].

(** ** Metadata *)

(** [s.replace(old, new)] for a non-empty [old]: [skip] characters of a
    match are still to be passed over. *)
Fixpoint replace_from (old new : string) (skip : nat) (s : string) : string :=
  match s with
  | EmptyString => EmptyString
  | String c s' =>
      match skip with
      | S skip' => replace_from old new skip' s'
      | O =>
          if String.prefix old s
          then new +:+ replace_from old new (String.length old - 1) s'
          else String c (replace_from old new 0 s')
      end
  end.
Definition replace (old new s : string) : string := replace_from old new 0 s.

Definition build_name_header (name_header : list name_entry)
    (style version date : string) : list name_entry :=
  (λ item,
     {| nameID := nameID item;
        nameString :=
          replace "<Date>" date
            (replace "<Version>" version
               (replace "<Typographic Subfamily Name>" style
                  (nameString item)));
        name_rest := name_rest item |}) <$> name_header.

Definition modify_metadata (obj : font) (name_header : list name_entry)
    (font_version : float) (today : string) : font :=
  let styles :=
    nameString <$>
      filter (λ item, nameID item = 17%Z ∨ nameID item = 2%Z) (name obj) in
  let style := match styles with s :: _ => s | [] => "Regular" end in
  set_name_head (build_name_header name_header style font_version today)
    {| fontRevision := font_version; head_rest := head_rest (head obj) |} obj.

(** ** The build *)

(** An opentype font can hold at most 65535 glyphs. *)
Definition MAX_GLYPH_COUNT : Z := 65535.

Definition load_font (doc : document) : font :=
  {| cmap := doc_cmap doc; cmap_rev := build_cmap_rev (doc_cmap doc);
     glyph_order := doc_glyph_order doc; glyf := doc_glyf doc;
     GSUB := doc_GSUB doc; GPOS := doc_GPOS doc; BASE := doc_BASE doc;
     name := doc_name doc; head := doc_head doc |}.

Definition save_font (obj : font) : document :=
  {| doc_cmap := cmap obj; doc_glyph_order := glyph_order obj;
     doc_glyf := glyf obj; doc_GSUB := GSUB obj; doc_GPOS := GPOS obj;
     doc_BASE := BASE obj; doc_name := name obj; doc_head := head obj |}.

(** ['%X' % i] *)
Definition hex_digit (d : N) : Ascii.ascii :=
  default Ascii.zero (String.get (N.to_nat d) "0123456789ABCDEF").
Fixpoint format_X_from (fuel : nat) (i : N) (acc : string) : string :=
  match fuel with
  | O => acc
  | S fuel' =>
      let acc := String (hex_digit (i mod 16)) acc in
      if decide (i / 16 = 0)%N then acc else format_X_from fuel' (i / 16)%N acc
  end.
Definition format_X (i : N) : string :=
  format_X_from (S (N.to_nat (N.log2 i))) i "".

(** What the build reads from outside: the dump of the input font, the
    lines of the two conversion tables chosen by [twp], the Han code
    points, the name header, the version and the date of the day. *)
Record build_input := {
  input_font : document;
  convert_table_chars : list text;
  convert_table_words : list text;
  codepoints_han : gset codepoint;
  name_header : list name_entry;
  font_version : float;
  today : string;
}.

Section build_font.
(** The orders in which Python iterates over a set of strings and over a
    set of integers. *)
Variable order_glyphs : gset glyph → list glyph.
Variable order_codepoints : gset codepoint → list codepoint.

(** [build_font] down to [clean_unused_glyphs(font)]. *)
Definition prune_font (inp : build_input)
  : res (font * list (codepoint * codepoint)
              * list (list codepoint * list codepoint)) :=
  let font := load_font (input_font inp) in
  let codepoints_font := build_codepoints_font font in
  entries_char ← build_opencc_char_table codepoints_font
                   (convert_table_chars inp);
  entries_word ← build_opencc_word_table codepoints_font
                   (convert_table_words inp);
  let codepoints_final :=
    (build_codepoints_non_han ∪ codepoints_han inp) ∩ codepoints_font in
  font ← remove_codepoints font
           (order_codepoints (codepoints_font ∖ codepoints_final));
  font ← clean_unused_glyphs order_glyphs font;
  Ok (font, entries_char, entries_word).

(** The loop over [enumerate(entries_word)]. *)
Definition add_word_entry
    (entry : nat * (list codepoint * list codepoint))
    (state : font * list (list glyph * glyph) * list (glyph * list glyph))
  : res (font * list (list glyph * glyph) * list (glyph * list glyph)) :=
  let '(i, (codepoints_k, codepoints_v)) := entry in
  let '(font, word2pseu_table, pseu2word_table) := state in
  let pseudo_glyph_name := "pseu" +:+ format_X (N.of_nat i) in
  glyph_names_k ← traverse (codepoint_to_glyph_name font) codepoints_k;
  glyph_names_v ← traverse (codepoint_to_glyph_name font) codepoints_v;
  Ok (insert_empty_glyph font pseudo_glyph_name,
      word2pseu_table ++ [(glyph_names_k, pseudo_glyph_name)],
      pseu2word_table ++ [(pseudo_glyph_name, glyph_names_v)]).

Definition add_char_entry (font : font) (entry : codepoint * codepoint)
  : res (glyph * glyph) :=
  glyph_name_k ← codepoint_to_glyph_name font entry.1;
  glyph_name_v ← codepoint_to_glyph_name font entry.2;
  Ok (glyph_name_k, glyph_name_v).

(** [build_font] from the glyph budget on. *)
Definition assemble_font (inp : build_input) (font : font)
    (entries_char : list (codepoint * codepoint))
    (entries_word : list (list codepoint * list codepoint)) : res document :=
  let available_glyph_count :=
    (MAX_GLYPH_COUNT - Z.of_nat (get_glyph_count font))%Z in
  if decide (available_glyph_count < Z.of_nat (length entries_word))%Z
  then Raise AssertionError
  else
    '(font, word2pseu_table, pseu2word_table) ←
      for_each (imap pair entries_word) add_word_entry (font, [], []);
    char2char_table ← traverse (add_char_entry font) entries_char;
    let feature_name := "liga_s2t" in
    font ← insert_empty_feature font feature_name;
    font ← create_word2pseu_table font feature_name word2pseu_table;
    font ← create_char2char_table font feature_name char2char_table;
    font ← create_pseu2word_table font feature_name pseu2word_table;
    let font :=
      modify_metadata font (name_header inp) (font_version inp) (today inp) in
    Ok (save_font font).

(** The document handed to [otfccbuild], or the exception that ends the
    build before anything is written. *)
Definition build_font (inp : build_input) : res document :=
  '(font, entries_char, entries_word) ← prune_font inp;
  assemble_font inp font entries_char entries_word.
End build_font.

(** ** Predicates of the statements *)

(** The reverse-index invariant: [cmap[c] = g] exactly when [c] is in
    [cmap_rev[g]]. *)
Definition rev_inv (obj : font) : Prop :=
  ∀ c g, cmap obj !! c = Some g ↔ c ∈ cmap_rev_get (cmap_rev obj) g.

(** No reverse entry lists a codepoint twice. *)
Definition rev_nodup (obj : font) : Prop :=
  ∀ g, NoDup (cmap_rev_get (cmap_rev obj) g).

(** [g] is directly targeted by [cmap]. *)
Definition cmap_target (obj : font) (g : glyph) : Prop :=
  ∃ c, cmap obj !! c = Some g.

(** One substitution of [lookup] leads from [g] to [h]: a [gsub_single]
    target, a member of a [gsub_alternate] list, the output of a
    [gsub_ligature] rule with [g] among its inputs. *)
Definition lookup_step (lookup : lookup_record) (g h : glyph) : Prop :=
  match typed lookup with
  | gsub_single sts => ∃ st, st ∈ sts ∧ st !! g = Some h
  | gsub_alternate sts => ∃ st vs, st ∈ sts ∧ st !! g = Some vs ∧ h ∈ vs
  | gsub_ligature sts =>
      ∃ st item, st ∈ sts ∧ item ∈ Ligature.substitutions st ∧
                 g ∈ from item ∧ h = to item
  | _ => False
  end.

Definition gsub_lookup (obj : font) (lookup : lookup_record) : Prop :=
  ∃ t name, GSUB obj = Some t ∧ Otl.lookups t !! name = Some lookup.

Definition gpos_lookup (obj : font) (lookup : lookup_record) : Prop :=
  ∃ t name, GPOS obj = Some t ∧ Otl.lookups t !! name = Some lookup.

Definition gsub_step (obj : font) (g h : glyph) : Prop :=
  ∃ lookup, gsub_lookup obj lookup ∧ lookup_step lookup g h.

(** The lookup types the reachability analysis has a branch for. *)
Definition reachability_type (lookup : lookup_record) : Prop :=
  match typed lookup with
  | gsub_single _ | gsub_alternate _ | gsub_ligature _ => True
  | _ => False
  end.

(** The font has a [GSUB] table and all its lookups are of those types. *)
Definition reachability_types (obj : font) : Prop :=
  ∃ t, GSUB obj = Some t ∧
       map_Forall (λ _ lookup, reachability_type lookup) (Otl.lookups t).

(** A set of glyphs closed under following the substitutions. *)
Definition closed_under_gsub (obj : font) (R : gset glyph) : Prop :=
  ∀ g h, g ∈ R → gsub_step obj g h → h ∈ R.

(** A rule of some [gsub_ligature] lookup of the font. *)
Definition ligature_rule (obj : font) (item : substitution) : Prop :=
  ∃ lookup sts st, gsub_lookup obj lookup ∧ typed lookup = gsub_ligature sts ∧
                   st ∈ sts ∧ item ∈ Ligature.substitutions st.

(** No ligature rule that a [cmap] target takes part in has an input glyph
    in [P]. *)
Definition ligature_inputs_avoid (obj : font) (P : glyph → Prop) : Prop :=
  ∀ item g x, ligature_rule obj item → cmap_target obj g → g ∈ from item →
              x ∈ from item → ¬ P x.

(** Two fonts agree on every table but the character map and its reverse
    index. *)
Definition same_tables (obj1 obj2 : font) : Prop :=
  glyph_order obj1 = glyph_order obj2 ∧ glyf obj1 = glyf obj2 ∧
  GSUB obj1 = GSUB obj2 ∧ GPOS obj1 = GPOS obj2 ∧ BASE obj1 = BASE obj2 ∧
  name obj1 = name obj2 ∧ head obj1 = head obj2.

(** [c] is the only codepoint that [cmap] maps to [g]. *)
Definition only_codepoint (obj : font) (c : codepoint) (g : glyph) : Prop :=
  ∀ c', cmap obj !! c' = Some g → c' = c.

(** A call of the pruner's interface, and a sequence of calls. *)
Inductive call :=
| Remove_codepoint (codepoint : codepoint)
| Remove_codepoints (codepoints : list codepoint).

Definition run_call (c : call) (obj : font) : res font :=
  match c with
  | Remove_codepoint codepoint => remove_codepoint obj codepoint
  | Remove_codepoints codepoints => remove_codepoints obj codepoints
  end.

Definition run_calls (calls : list call) (obj : font) : res font :=
  for_each calls run_call obj.

(** *** Where a lookup names a glyph

    The positions listed for [remove_glyph], per lookup type. *)

Definition gsub_occurs (g : glyph) (s : subtables) : Prop :=
  match s with
  | gsub_single sts =>
      ∃ st, st ∈ sts ∧ (is_Some (st !! g) ∨ ∃ k, st !! k = Some g)
  | gsub_alternate sts =>
      ∃ st, st ∈ sts ∧
            (is_Some (st !! g) ∨ ∃ k vs, st !! k = Some vs ∧ g ∈ vs)
  | gsub_ligature sts =>
      ∃ st item, st ∈ sts ∧ item ∈ Ligature.substitutions st ∧
                 (g ∈ from item ∨ g = to item)
  | gsub_multiple sts => ∃ st, st ∈ sts ∧ is_Some (st !! g)
  | _ => False
  end.

(** The three shapes of a [gpos_context] subtable, told apart as the source
    tells them apart: rule list, coverage with positions, class list. *)
Definition context_occurs (g : glyph) (st : Context.subtable) : Prop :=
  match Context.rules st with
  | Some rules =>
      ∃ rule, rule ∈ rules ∧ (g ∈ default [] (Rule.input rule) ∨
                              g ∈ default [] (Rule.lookups rule))
  | None =>
      match Context.coverage st, Context.pos st with
      | Some coverage, Some _ => g ∈ coverage
      | _, _ =>
          match Context.classes st with
          | Some classes => ∃ class_list, class_list ∈ classes ∧ g ∈ class_list
          | None => False
          end
      end
  end.

Definition chaining_occurs (g : glyph) (st : Chaining.subtable) : Prop :=
  ∃ rules rule, Chaining.rules st = Some rules ∧ rule ∈ rules ∧
    (g ∈ default [] (Rule.input rule) ∨ g ∈ default [] (Rule.backtrack rule) ∨
     g ∈ default [] (Rule.lookahead rule) ∨ g ∈ default [] (Rule.lookups rule)).

Definition gpos_occurs (g : glyph) (s : subtables) : Prop :=
  match s with
  | gpos_single sts | gpos_cursive sts => ∃ st, st ∈ sts ∧ is_Some (st !! g)
  | gpos_pair sts =>
      ∃ st, st ∈ sts ∧
            (is_Some (Pair.first st !! g) ∨ is_Some (Pair.second st !! g))
  | gpos_mark_to_base sts =>
      ∃ st, st ∈ sts ∧ (is_Some (MarkToBase.marks st !! g) ∨
                        is_Some (MarkToBase.bases st !! g))
  | gpos_mark_to_mark sts =>
      ∃ st, st ∈ sts ∧ (is_Some (MarkToMark.marks st !! g) ∨
                        is_Some (MarkToMark.mark2s st !! g))
  | gpos_mark_to_ligature sts =>
      ∃ st, st ∈ sts ∧
            (is_Some (MarkToLigature.marks st !! g) ∨
             ∃ base anchors component anchor,
               MarkToLigature.bases st !! base = Some anchors ∧
               anchors !! component = Some anchor ∧ is_Some (anchor !! g))
  | gpos_context sts => ∃ st, st ∈ sts ∧ context_occurs g st
  | gpos_chaining sts => ∃ st, st ∈ sts ∧ chaining_occurs g st
  | _ => False
  end.

(** The glyph lists out of which [remove_glyph] takes one occurrence of the
    name: alternates lists, coverage lists, class lists. *)
Definition context_lists (st : Context.subtable) : list (list glyph) :=
  match Context.coverage st with Some coverage => [coverage] | None => [] end
  ++ default [] (Context.classes st).

(** None of those lists names a glyph twice. *)
Definition distinct_lists (s : subtables) : Prop :=
  match s with
  | gsub_alternate sts => ∀ st k vs, st ∈ sts → st !! k = Some vs → NoDup vs
  | gpos_context sts => ∀ st l, st ∈ sts → l ∈ context_lists st → NoDup l
  | _ => True
  end.

(** The number an upper-case hexadecimal numeral stands for. *)
Definition hex_value (c : Ascii.ascii) : N :=
  let n := Ascii.N_of_ascii c in
  if decide (n < 65)%N then (n - 48)%N else (n - 55)%N.
Fixpoint parse_X (s : string) : N :=
  match s with
  | EmptyString => 0%N
  | String c s' =>
      (hex_value c * 16 ^ N.of_nat (String.length s') + parse_X s')%N
  end.

(** The rows of the three tables of [build_font] against the entries they
    come from: [names font cs gs] when [gs] are the glyphs of the
    codepoints [cs]. *)
Definition names (font : font) (cs : list codepoint) (gs : list glyph) : Prop :=
  Forall2 (λ c g, cmap font !! c = Some g) cs gs.
Definition pseudo_glyph_name (i : nat) : glyph :=
  "pseu" +:+ format_X (N.of_nat i).

(** ** Sample fonts *)

Module Sample.
Definition empty_table : Otl.table :=
  {| Otl.languages := ∅; Otl.features := ∅; Otl.lookups := ∅;
     Otl.lookupOrder := [] |}.

Definition table_of (name : string) (typed : subtables) : Otl.table :=
  {| Otl.languages := ∅; Otl.features := ∅;
     Otl.lookups := {[ name := {| flags := JObj []; typed := typed |} ]};
     Otl.lookupOrder := [name] |}.

Definition make (cmap : gmap codepoint glyph) (glyph_order : list glyph)
    (gsub : option Otl.table) : font :=
  {| cmap := cmap; cmap_rev := build_cmap_rev cmap;
     glyph_order := glyph_order; glyf := ∅;
     GSUB := gsub; GPOS := None; BASE := None; name := [];
     head := {| fontRevision := "1.0"; head_rest := JNull |} |}.

(** [A] and [B] both show glyph [a]; [a] is replaced by [b], [b] by [c]. *)
Definition chain : font :=
  make {[ 65%N := "a"; 66%N := "a" ]} [".notdef"; "a"; "b"; "c"]
       (Some (table_of "sub" (gsub_single [ {[ "a" := "b"; "b" := "c" ]} ]))).

(** The ligature [a x -> b], with [x] not in [cmap]. *)
Definition liga : font :=
  make {[ 65%N := "a" ]} [".notdef"; "a"; "b"; "x"]
       (Some (table_of "liga"
                (gsub_ligature
                   [ {| Ligature.substitutions :=
                          [ {| from := ["a"; "x"]; to := "b" |} ] |} ]))).

(** A [gsub_multiple] lookup keyed by [g]. *)
Definition multiple : font :=
  make {[ 65%N := "a" ]} [".notdef"; "a"; "g"]
       (Some (table_of "mult" (gsub_multiple [ {[ "g" := ["a"; "a"] ]} ]))).

(** Alternates in GSUB and a coverage-shaped context subtable in GPOS,
    both naming [g]. *)
Definition positioned : font :=
  {| cmap := {[ 65%N := "a" ]}; cmap_rev := {[ "a" := [65%N] ]};
     glyph_order := [".notdef"; "a"; "b"; "g"]; glyf := ∅;
     GSUB :=
       Some (table_of "aalt"
               (gsub_alternate [ {[ "a" := ["b"; "g"]; "g" := ["a"] ]} ]));
     GPOS :=
       Some (table_of "ctx"
               (gpos_context
                  [ {| Context.rules := None;
                       Context.coverage := Some ["a"; "g"];
                       Context.pos := Some [JNum 1; JNum 2];
                       Context.classes := None |} ]));
     BASE := None; name := [];
     head := {| fontRevision := "1.0"; head_rest := JNull |} |}.

(** A font that has the feature [liga_s2t], still without lookups. *)
Definition featured : font :=
  make {[ 65%N := "a"; 66%N := "b"; 67%N := "c" ]}
       [".notdef"; "a"; "b"; "c"]
       (Some {| Otl.languages := ∅; Otl.features := {[ "liga_s2t" := [] ]};
                Otl.lookups := ∅; Otl.lookupOrder := [] |}).

(** A font with as many glyphs as the format holds: [.notdef], [a], and
    65533 alternates of [a]. *)
Definition alternates : list glyph :=
  (λ i, "g" +:+ format_X i) <$> range 0 65533.

Definition crowded : document :=
  {| doc_cmap := {[ 65%N := "a" ]};
     doc_glyph_order := ".notdef" :: "a" :: alternates;
     doc_glyf := ∅;
     doc_GSUB :=
       Some (table_of "aalt" (gsub_alternate [ {[ "a" := alternates ]} ]));
     doc_GPOS := None; doc_BASE := None; doc_name := [];
     doc_head := {| fontRevision := "1.0"; head_rest := JNull |} |}.

(** One word entry, [A -> A], and no character entry. *)
Definition crowded_input : build_input :=
  {| input_font := crowded;
     convert_table_chars := [];
     convert_table_words := [[65; 9; 65; 10]%N];
     codepoints_han := ∅;
     name_header := [];
     font_version := "1.0";
     today := "Jan 01, 2024" |}.

(** A codepoint mapped to the empty glyph name. *)
Definition unnamed : font :=
  make {[ 65%N := "" ]} [".notdef"; ""] (Some empty_table).

(** A font with the Han codepoints U+4E00 and U+4E01; the table of
    characters turns U+4E01 into U+4E00, and only U+4E00 is in the list of
    the Han codepoints to keep. *)
Definition stray : document :=
  {| doc_cmap := {[ 65%N := "a"; 19968%N := "h1"; 19969%N := "h2" ]};
     doc_glyph_order := [".notdef"; "a"; "h1"; "h2"];
     doc_glyf := ∅;
     doc_GSUB := Some empty_table;
     doc_GPOS := None; doc_BASE := None; doc_name := [];
     doc_head := {| fontRevision := "1.0"; head_rest := JNull |} |}.

Definition stray_input : build_input :=
  {| input_font := stray;
     convert_table_chars := [[19969; 9; 19968; 10]%N];
     convert_table_words := [];
     codepoints_han := {[ 19968%N ]};
     name_header := [];
     font_version := "1.0";
     today := "Jan 01, 2024" |}.
End Sample.
(** * Properties *)

(** *** Properties of the partitioner *)

Section grouper_facts.
Context {A : Type}.
Implicit Types (l lst : list A) (n fuel : nat).

Lemma fill_take_drop n lst l :
  fill n lst l = (lst ++ take n l, drop n l, bool_decide (length l < n)).
Proof.
  revert lst l. induction n as [|n IH]; intros lst l; simpl.
  - rewrite take_0, app_nil_r, drop_0. done.
  - destruct l as [|x l]; simpl.
    + rewrite app_nil_r. done.
    + rewrite IH, <- app_assoc. simpl.
      do 2 f_equal. apply bool_decide_ext. lia.
Qed.

(** What one run of the generator yields. *)
Record partition_of (n : nat) (l : list A) (gs : list (list A)) : Prop := {
  part_concat : mjoin gs = l;
  part_bound : Forall (λ g, length g ≤ n) gs;
  part_nonempty : Forall (λ g, g ≠ []) gs;
  part_full : ∀ gs' g, gs = gs' ++ [g] → Forall (λ x, length x = n) gs';
}.

Lemma grouper_loop_partition n fuel l :
  1 ≤ n → length l < fuel →
  ∃ gs, grouper_loop fuel n l = Some gs ∧ partition_of n l gs.
Proof.
  intros Hn. revert l. induction fuel as [|fuel IH]; intros l Hl; [lia|].
  simpl. rewrite fill_take_drop. simpl.
  case_bool_decide as Hlen.
  - (* the iterator ran dry inside the inner loop *)
    rewrite take_ge by lia.
    destruct l as [|x l].
    + exists []. split; [done|]. split; simpl; auto.
      intros gs' g Heq. by destruct gs'.
    + exists [x :: l]. split; [done|]. split; simpl.
      * by rewrite app_nil_r.
      * repeat constructor. simpl in *. lia.
      * by repeat constructor.
      * intros gs' g Heq. destruct gs' as [|? [|? ?]]; by simplify_eq.
  - (* a full group *)
    destruct (IH (drop n l)) as (gs & Hgs & Hp).
    { rewrite length_drop. lia. }
    rewrite Hgs. simpl. exists (take n l :: gs). split; [done|].
    destruct Hp as [Hc Hb Hne Hf]. split; simpl.
    + by rewrite Hc, take_drop.
    + constructor; [|done]. rewrite length_take. lia.
    + constructor; [|done]. intros Heq.
      apply (f_equal length) in Heq. rewrite length_take in Heq.
      simpl in Heq. lia.
    + intros gs' g Heq. destruct gs' as [|g' gs']; [done|].
      simpl in Heq. injection Heq as <- ->.
      constructor; [|by eapply Hf].
      rewrite length_take. lia.
Qed.

Lemma grouper_partition n l :
  1 ≤ n → ∃ gs, grouper n l = Some gs ∧ partition_of n l gs.
Proof. intros Hn. apply grouper_loop_partition; [done|lia]. Qed.

(** Every group is a segment of the input. *)
Lemma grouper_elem n l gs g x :
  grouper n l = Some gs → 1 ≤ n → g ∈ gs → x ∈ g → x ∈ l.
Proof.
  intros Hg Hn Hin Hx.
  destruct (grouper_partition n l Hn) as (gs' & Hg' & [Hc _ _ _]).
  rewrite Hg in Hg'. simplify_eq. apply list_elem_of_join. eauto.
Qed.
End grouper_facts.

Section grouper2_facts.
Context {A K : Type} `{EqDecision K}.
Implicit Types (l : list A) (key : A → K).

Lemma groupby_concat key l : mjoin (snd <$> groupby key l) = l.
Proof.
  induction l as [|x l IH]; [done|]. simpl.
  destruct (groupby key l) as [|[k vx] gs]; simpl in *.
  - by subst.
  - case_decide; simpl; by rewrite <- IH.
Qed.

Lemma groupby_same_key key l :
  Forall (λ kvx, ∀ x, x ∈ kvx.2 → key x = kvx.1) (groupby key l).
Proof.
  induction l as [|x l IH]; simpl; [constructor|].
  destruct (groupby key l) as [|[k vx] gs].
  - repeat constructor. simpl. intros y Hy.
    apply list_elem_of_singleton in Hy. by subst.
  - inversion_clear IH as [|? ? Hk Hgs]. case_decide.
    + constructor; [|done]. simpl in *. intros y Hy.
      apply elem_of_cons in Hy as [->|Hy]; auto.
    + constructor; [|by constructor]. simpl. intros y Hy.
      apply list_elem_of_singleton in Hy. by subst.
Qed.

Lemma grouper2_mapM n (groups : list (K * list A)) :
  1 ≤ n →
  ∃ gss, mapM (λ kvx, grouper n kvx.2) groups = Some gss ∧
         Forall2 (λ kvx gs, partition_of n kvx.2 gs) groups gss.
Proof.
  intros Hn. induction groups as [|[k vx] groups (gss & Hgss & HF)].
  - exists []. by split; [|constructor].
  - destruct (grouper_partition n vx Hn) as (gs & Hgs & Hp).
    exists (gs :: gss). split; [|by constructor].
    simpl. rewrite Hgs. simpl. rewrite Hgss. done.
Qed.

Lemma grouper2_total n key l :
  1 ≤ n → is_Some (grouper2 n key l).
Proof.
  intros Hn. unfold grouper2.
  destruct (grouper2_mapM n (groupby key l) Hn) as (gss & -> & _). by eexists.
Qed.

Lemma grouper2_concat n key l gs :
  1 ≤ n → grouper2 n key l = Some gs → mjoin gs = l.
Proof.
  intros Hn. unfold grouper2.
  destruct (grouper2_mapM n (groupby key l) Hn) as (gss & -> & HF).
  simpl. intros [= <-]. rewrite <- (groupby_concat key l).
  induction HF as [|[k vx] gs' ? ? [Hc _ _ _] _ IH]; [done|].
  simpl in *. by rewrite join_app, Hc, IH.
Qed.

Lemma grouper2_groups n key l gs g :
  1 ≤ n → grouper2 n key l = Some gs → g ∈ gs →
  g ≠ [] ∧ length g ≤ n ∧ ∃ k, ∀ x, x ∈ g → key x = k.
Proof.
  intros Hn. unfold grouper2.
  destruct (grouper2_mapM n (groupby key l) Hn) as (gss & -> & HF).
  simpl. intros [= <-] Hg. pose proof (groupby_same_key key l) as Hk.
  induction HF as [|[k vx] gs' ? ? [Hc Hb Hne _] _ IH]; simpl in Hg.
  - by apply elem_of_nil in Hg.
  - inversion_clear Hk as [|? ? Hk1 Hk2].
    apply elem_of_app in Hg as [Hg|Hg]; [|by apply IH].
    rewrite Forall_forall in Hb, Hne. repeat split; [by auto..|].
    exists k. intros x Hx. apply Hk1. simpl in *. rewrite <- Hc.
    apply list_elem_of_join. eauto.
Qed.
End grouper2_facts.

(** ** The exception monad and loops *)

Lemma bind_Ok {A B} (m : res A) (f : A → res B) (b : B) :
  m ≫= f = Ok b ↔ ∃ a, m = Ok a ∧ f a = Ok b.
Proof.
  destruct m as [a|e]; simpl; split.
  - eauto.
  - by intros (a' & [= ->] & ?).
  - done.
  - by intros (a' & ? & ?).
Qed.

Lemma bind_Raise {A B} (m : res A) (f : A → res B) (e : exn) :
  m ≫= f = Raise e ↔ m = Raise e ∨ ∃ a, m = Ok a ∧ f a = Raise e.
Proof.
  destruct m as [a|e']; simpl; split.
  - eauto.
  - by intros [?|(a' & [= ->] & ?)].
  - intros [= ->]. by left.
  - by intros [[= ->]|(a' & ? & ?)].
Qed.

Lemma for_each_app {A S} (l1 l2 : list A) (body : A → S → res S) (s : S) :
  for_each (l1 ++ l2) body s = for_each l1 body s ≫= for_each l2 body.
Proof.
  revert s. induction l1 as [|x l1 IH]; intros s; simpl; [done|].
  destruct (body x s); simpl; auto.
Qed.

(** A loop invariant kept by every turn holds when the loop returns. *)
Lemma for_each_inv {A S} (P : S → Prop) (l : list A) (body : A → S → res S)
    (s s' : S) :
  (∀ x t t', x ∈ l → P t → body x t = Ok t' → P t') →
  P s → for_each l body s = Ok s' → P s'.
Proof.
  revert s. induction l as [|x l IH]; intros s Hbody Hs; simpl.
  - by intros [= <-].
  - intros (t & Ht & Hrest)%bind_Ok. eapply IH; [|by eapply Hbody, Ht; [left|]|done].
    intros y u u' Hy. apply Hbody. by right.
Qed.

(** The exceptions of a loop are exceptions of its body. *)
Lemma for_each_Raise {A S} (l : list A) (body : A → S → res S) (s : S) e :
  for_each l body s = Raise e → ∃ x t, x ∈ l ∧ body x t = Raise e.
Proof.
  revert s. induction l as [|x l IH]; intros s; simpl; [done|].
  intros [Hx|(t & _ & Hrest)]%bind_Raise.
  - exists x, s. split; [left|done].
  - destruct (IH _ Hrest) as (y & u & Hy & Hu). exists y, u. split; [by right|done].
Qed.

Lemma traverse_Ok {A B} (f : A → res B) (l : list A) (l' : list B) :
  traverse f l = Ok l' ↔ Forall2 (λ x y, f x = Ok y) l l'.
Proof.
  revert l'. induction l as [|x l IH]; intros l'; simpl.
  - split; [intros [= <-]; constructor|by inversion 1].
  - split.
    + intros (y & Hy & (ys & Hys & [= <-])%bind_Ok)%bind_Ok.
      constructor; [done|by apply IH].
    + inversion 1 as [|? y ? ys Hy Hys]; subst.
      rewrite Hy. simpl. apply IH in Hys. by rewrite Hys.
Qed.

Lemma traverse_Raise {A B} (f : A → res B) (l : list A) e :
  traverse f l = Raise e → ∃ x, x ∈ l ∧ f x = Raise e.
Proof.
  induction l as [|x l IH]; simpl; [done|].
  intros [Hx|(y & _ & [Hl|(ys & _ & ?)]%bind_Raise)]%bind_Raise; [| |done].
  - exists x. split; [left|done].
  - destruct (IH Hl) as (z & Hz & ?). exists z. split; [by right|done].
Qed.

Lemma dict_traverse_Ok `{Countable K} {V} (f : V → res V) (d d' : gmap K V) :
  dict_traverse f d = Ok d' →
  ∀ k, d' !! k = (d !! k) ≫= (λ v, match f v with Ok v' => Some v' | Raise _ => None end)
       ∧ ∀ v, d !! k = Some v → is_Some (d' !! k).
Proof.
  unfold dict_traverse. revert d'.
  apply (map_fold_weak_ind (λ r d, ∀ d', r = Ok d' → ∀ k,
    d' !! k = (d !! k) ≫= (λ v, match f v with Ok v' => Some v' | Raise _ => None end)
    ∧ ∀ v, d !! k = Some v → is_Some (d' !! k))).
  - intros d' [= <-] k. rewrite !lookup_empty. split; [done|]. by intros v.
  - intros i x m r Hi IH d' (d1 & -> & (v' & Hv' & [= <-])%bind_Ok)%bind_Ok k.
    destruct (IH d1 eq_refl k) as [IH1 IH2].
    destruct (decide (i = k)) as [->|Hne].
    + rewrite !lookup_insert_eq. simpl. rewrite Hv'. split; [done|]. by eauto.
    + rewrite !lookup_insert_ne by done. done.
Qed.

Lemma dict_traverse_Raise `{Countable K} {V} (f : V → res V) (d : gmap K V) e :
  dict_traverse f d = Raise e → ∃ k v, d !! k = Some v ∧ f v = Raise e.
Proof.
  unfold dict_traverse.
  apply (map_fold_weak_ind (λ r d, r = Raise e →
                                   ∃ k v, d !! k = Some v ∧ f v = Raise e)).
  - done.
  - intros i x m r Hi IH [Hr|(d1 & -> & [Hx|(? & _ & ?)]%bind_Raise)]%bind_Raise.
    + destruct (IH Hr) as (k & v & Hk & Hv). exists k, v. split; [|done].
      rewrite lookup_insert_ne; [done|]. intros ->. congruence.
    + exists i, x. by rewrite lookup_insert_eq.
    + done.
Qed.

(** ** Python list primitives *)

Section remove_first_facts.
Context {A : Type} `{EqDecision A}.
Implicit Types (x y : A) (l : list A).

Lemma elem_of_remove_first x y l : x ∈ remove_first y l → x ∈ l.
Proof.
  induction l as [|z l IH]; simpl; [done|].
  case_decide; [by right|].
  intros [->|?]%elem_of_cons; [left|right; auto].
Qed.

Lemma elem_of_remove_first_ne x y l : x ∈ l → x ≠ y → x ∈ remove_first y l.
Proof.
  intros Hx Hne. induction l as [|z l IH]; simpl; [done|].
  apply elem_of_cons in Hx as [->|Hx].
  - case_decide; [congruence|left].
  - case_decide; [done|right; auto].
Qed.

Lemma remove_first_not_elem x l : x ∉ l → remove_first x l = l.
Proof.
  induction l as [|z l IH]; simpl; [done|].
  intros [? ?]%not_elem_of_cons. case_decide; [done|]. f_equal. auto.
Qed.

Lemma NoDup_remove_first x l : NoDup l → NoDup (remove_first x l).
Proof.
  induction 1 as [|z l Hz Hl IH]; simpl; [constructor|].
  case_decide; [done|]. constructor; [|done].
  intros ?%elem_of_remove_first. done.
Qed.

Lemma not_elem_of_remove_first x l : NoDup l → x ∉ remove_first x l.
Proof.
  induction 1 as [|z l Hz Hl IH]; simpl; [by apply not_elem_of_nil|].
  case_decide; [by subst|]. by apply not_elem_of_cons.
Qed.

Lemma elem_of_remove_first_NoDup x y l :
  NoDup l → x ∈ remove_first y l ↔ x ∈ l ∧ x ≠ y.
Proof.
  intros Hl. split.
  - intros Hx. split; [by eapply elem_of_remove_first|].
    intros ->. by eapply not_elem_of_remove_first.
  - intros [? ?]. by apply elem_of_remove_first_ne.
Qed.
End remove_first_facts.

(** ** Reverse index *)

Lemma cmap_rev_get_insert m g g' l :
  cmap_rev_get (<[g := l]> m) g' = if decide (g = g') then l else cmap_rev_get m g'.
Proof.
  unfold cmap_rev_get. case_decide; subst.
  - by rewrite lookup_insert_eq.
  - by rewrite lookup_insert_ne.
Qed.

Lemma cmap_rev_get_delete m g g' :
  cmap_rev_get (delete g m) g' = if decide (g = g') then [] else cmap_rev_get m g'.
Proof.
  unfold cmap_rev_get. case_decide; subst.
  - by rewrite lookup_delete_eq.
  - by rewrite lookup_delete_ne.
Qed.

(** The reverse index built from the items of a dict lists, under each
    glyph, the codepoints mapped to it, each once. *)
Lemma build_cmap_rev_items_spec (items : list (codepoint * glyph)) :
  NoDup items.*1 →
  ∀ g, NoDup (cmap_rev_get (build_cmap_rev_items items) g) ∧
       ∀ c, c ∈ cmap_rev_get (build_cmap_rev_items items) g ↔ (c, g) ∈ items.
Proof.
  unfold build_cmap_rev_items.
  induction items as [|[c0 g0] items IH] using rev_ind; intros Hnd g.
  - simpl. unfold cmap_rev_get. rewrite lookup_empty. simpl.
    split; [constructor|]. intros c. by rewrite !elem_of_nil.
  - rewrite fmap_app in Hnd. apply NoDup_app in Hnd as (Hnd & Hfresh & _).
    rewrite foldl_app. simpl. rewrite cmap_rev_get_insert.
    destruct (IH Hnd g) as [IHn IHe]. case_decide as Hg; [subst g0|].
    + split.
      * apply NoDup_app. split_and!; [done| |apply NoDup_singleton].
        intros c Hc ->%list_elem_of_singleton.
        apply IHe in Hc. eapply Hfresh; [|left].
        apply list_elem_of_fmap. by exists (c0, g).
      * intros c. rewrite !elem_of_app, IHe, !list_elem_of_singleton.
        naive_solver.
    + split; [done|]. intros c.
      rewrite elem_of_app, IHe, list_elem_of_singleton. naive_solver.
Qed.

Lemma build_cmap_rev_items_inv (obj : font) (items : list (codepoint * glyph)) :
  items ≡ₚ map_to_list (cmap obj) →
  cmap_rev obj = build_cmap_rev_items items →
  rev_inv obj ∧ rev_nodup obj.
Proof.
  intros Hperm Hrev.
  assert (NoDup items.*1) as Hnd.
  { rewrite Hperm. apply NoDup_fst_map_to_list. }
  split.
  - intros c g. rewrite Hrev.
    destruct (build_cmap_rev_items_spec items Hnd g) as [_ ->].
    by rewrite Hperm, elem_of_map_to_list.
  - intros g. rewrite Hrev. by apply build_cmap_rev_items_spec.
Qed.

(** ** Frame of [remove_glyph]: the character map is not touched *)

Lemma remove_glyph_cmap g obj obj' :
  remove_glyph g obj = Ok obj' →
  cmap obj' = cmap obj ∧ cmap_rev obj' = cmap_rev obj.
Proof.
  unfold remove_glyph. intros (gpos & _ & [= <-])%bind_Ok. done.
Qed.

Lemma remove_glyph_glyph_order g obj obj' :
  remove_glyph g obj = Ok obj' →
  glyph_order obj' = remove_first g (glyph_order obj).
Proof.
  unfold remove_glyph. intros (gpos & _ & [= <-])%bind_Ok. done.
Qed.

Lemma remove_glyph_GSUB g obj obj' :
  remove_glyph g obj = Ok obj' →
  GSUB obj' =
    (λ t, set_lookups (remove_glyph_gsub_lookup g <$> Otl.lookups t) t)
      <$> GSUB obj.
Proof.
  unfold remove_glyph. intros (gpos & _ & [= <-])%bind_Ok. done.
Qed.

Lemma remove_glyph_context_Raise g st e :
  remove_glyph_context g st = Raise e → e = IndexError.
Proof.
  unfold remove_glyph_context, list_pop.
  repeat (case_match || case_decide); simpl; congruence.
Qed.

(** [remove_glyph] raises nothing but the [IndexError] of a [pos] list
    shorter than its [coverage]. *)
Lemma remove_glyph_Raise g obj e :
  remove_glyph g obj = Raise e → e = IndexError.
Proof.
  unfold remove_glyph. intros [Hgpos|(? & _ & ?)]%bind_Raise; [|done].
  simpl in Hgpos. destruct (GPOS obj) as [t|]; [|done].
  apply bind_Raise in Hgpos as [Hd|(? & _ & ?)]; [|done].
  apply dict_traverse_Raise in Hd as (k & lookup & _ & Hl).
  unfold remove_glyph_gpos_lookup in Hl.
  destruct (typed lookup); try done.
  apply bind_Raise in Hl as [Hl|(? & _ & ?)]; [|done].
  apply traverse_Raise in Hl as (st & _ & Hst).
  by eapply remove_glyph_context_Raise.
Qed.

(** ** Removing a codepoint *)

Lemma only_codepoint_singleton obj c g :
  rev_inv obj → rev_nodup obj → cmap obj !! c = Some g →
  cmap_rev_get (cmap_rev obj) g = [c] ↔ only_codepoint obj c g.
Proof.
  intros Hinv Hnd Hc. split.
  - intros Heq c' Hc'. apply Hinv in Hc'. rewrite Heq in Hc'.
    by apply list_elem_of_singleton in Hc'.
  - intros Honly. specialize (Hnd g). apply Hinv in Hc.
    destruct (cmap_rev_get (cmap_rev obj) g) as [|c1 [|c2 l]] eqn:Heq.
    + by apply elem_of_nil in Hc.
    + f_equal. apply Honly, Hinv. rewrite Heq. left.
    + exfalso. assert (c1 = c) as ->.
      { apply Honly, Hinv. rewrite Heq. left. }
      assert (c2 = c) as ->.
      { apply Honly, Hinv. rewrite Heq. right. left. }
      apply NoDup_cons in Hnd as [Hnd _]. apply Hnd. left.
Qed.

(** On a consistent reverse index, disassociating a codepoint of [cmap]
    raises nothing and keeps the index consistent. *)
Lemma disassociate_spec obj c g :
  rev_inv obj → rev_nodup obj → cmap obj !! c = Some g →
  ∃ obj1,
    disassociate_codepoint_and_glyph_name obj c g =
      Ok (obj1, bool_decide (cmap_rev_get (cmap_rev obj) g = [c])) ∧
    cmap obj1 = delete c (cmap obj) ∧
    (∀ g' c', c' ∈ cmap_rev_get (cmap_rev obj1) g' ↔
              c' ∈ cmap_rev_get (cmap_rev obj) g' ∧ c' ≠ c) ∧
    same_tables obj1 obj ∧ rev_inv obj1 ∧ rev_nodup obj1.
Proof.
  intros Hinv Hnd Hc.
  assert (c ∈ cmap_rev_get (cmap_rev obj) g) as Hin by by apply Hinv.
  assert (∀ g' c', c' ∈ cmap_rev_get (cmap_rev obj) g' → g' ≠ g → c' ≠ c)
    as Hother.
  { intros g' c' Hc' Hg' ->. apply Hinv in Hc'. congruence. }
  unfold disassociate_codepoint_and_glyph_name, dict_del. rewrite Hc. simpl.
  case_bool_decide as Honly.
  - eexists. split; [done|]. simpl.
    assert (∀ g' c', c' ∈ cmap_rev_get (delete g (cmap_rev obj)) g' ↔
                     c' ∈ cmap_rev_get (cmap_rev obj) g' ∧ c' ≠ c) as Hget.
    { intros g' c'. rewrite cmap_rev_get_delete. case_decide as Hg; [subst g'|].
      - rewrite Honly, elem_of_nil, list_elem_of_singleton. naive_solver.
      - naive_solver. }
    split_and!; try done.
    + unfold rev_inv. simpl. intros c' g'. rewrite Hget, <- (Hinv c' g').
      rewrite lookup_delete_Some. naive_solver.
    + unfold rev_nodup. simpl. intros g'. rewrite cmap_rev_get_delete.
      case_decide; [constructor|apply Hnd].
  - unfold list_remove. rewrite decide_True by done. simpl.
    eexists. split; [done|]. simpl.
    assert (∀ g' c',
      c' ∈ cmap_rev_get
             (<[g := remove_first c (cmap_rev_get (cmap_rev obj) g)]>
                (cmap_rev obj)) g' ↔
      c' ∈ cmap_rev_get (cmap_rev obj) g' ∧ c' ≠ c) as Hget.
    { intros g' c'. rewrite cmap_rev_get_insert. case_decide as Hg; [subst g'|].
      - by apply elem_of_remove_first_NoDup.
      - naive_solver. }
    split_and!; try done.
    + unfold rev_inv. simpl. intros c' g'. rewrite Hget, <- (Hinv c' g').
      rewrite lookup_delete_Some. naive_solver.
    + unfold rev_nodup. simpl. intros g'. rewrite cmap_rev_get_insert.
      case_decide; [by apply NoDup_remove_first|apply Hnd].
Qed.

Lemma remove_glyph_rev g obj obj' :
  remove_glyph g obj = Ok obj' →
  (rev_inv obj → rev_inv obj') ∧ (rev_nodup obj → rev_nodup obj').
Proof.
  intros [Hc Hr]%remove_glyph_cmap. unfold rev_inv, rev_nodup.
  rewrite Hc, Hr. done.
Qed.

(** [remove_codepoint] keeps the reverse index consistent and raises
    nothing but the [IndexError] of [remove_glyph]. *)
Lemma remove_codepoint_rev obj c :
  rev_inv obj → rev_nodup obj →
  match remove_codepoint obj c with
  | Ok obj' => rev_inv obj' ∧ rev_nodup obj'
  | Raise e => e = IndexError
  end.
Proof.
  intros Hinv Hnd. unfold remove_codepoint.
  destruct (cmap obj !! c) as [g|] eqn:Hc; [|done].
  case_decide; [done|].
  destruct (disassociate_spec obj c g Hinv Hnd Hc)
    as (obj1 & -> & _ & _ & _ & Hinv1 & Hnd1).
  simpl. case_bool_decide; [|done].
  destruct (remove_glyph g obj1) as [obj'|e] eqn:Hrm.
  - apply remove_glyph_rev in Hrm as [? ?]. auto.
  - by eapply remove_glyph_Raise.
Qed.

Lemma remove_codepoints_rev obj cs :
  rev_inv obj → rev_nodup obj →
  match remove_codepoints obj cs with
  | Ok obj' => rev_inv obj' ∧ rev_nodup obj'
  | Raise e => e = IndexError
  end.
Proof.
  unfold remove_codepoints. revert obj.
  induction cs as [|c cs IH]; intros obj Hinv Hnd; simpl; [done|].
  pose proof (remove_codepoint_rev obj c Hinv Hnd) as Hc.
  destruct (remove_codepoint obj c) as [obj1|e]; simpl; [|done].
  destruct Hc. by apply IH.
Qed.

Lemma run_calls_rev calls obj :
  rev_inv obj → rev_nodup obj →
  match run_calls calls obj with
  | Ok obj' => rev_inv obj' ∧ rev_nodup obj'
  | Raise e => e = IndexError
  end.
Proof.
  unfold run_calls. revert obj.
  induction calls as [|c calls IH]; intros obj Hinv Hnd; simpl; [done|].
  assert (match run_call c obj with
          | Ok obj' => rev_inv obj' ∧ rev_nodup obj'
          | Raise e => e = IndexError
          end) as Hc.
  { destruct c; simpl; [by apply remove_codepoint_rev|by apply remove_codepoints_rev]. }
  destruct (run_call c obj) as [obj1|e]; simpl; [|done].
  destruct Hc. by apply IH.
Qed.

(** ** The reverse-index invariant and [remove_codepoint] *)

(** C4. Starting from a font whose [cmap_rev] was built by [build_cmap_rev]
    from [cmap] (in whatever order the dict is walked), after any sequence
    of [remove_codepoint] and [remove_codepoints] calls that returns, the
    reverse-index invariant holds: [cmap] maps [c] to [g] exactly when [c]
    is in [cmap_rev[g]]; the only exception a call can raise is the
    [IndexError] of [remove_glyph]. *)
Theorem reverse_index_invariant (obj : font)
    (items : list (codepoint * glyph)) (calls : list call) :
  items ≡ₚ map_to_list (cmap obj) →
  cmap_rev obj = build_cmap_rev_items items →
  match run_calls calls obj with
  | Ok obj' => rev_inv obj'
  | Raise e => e = IndexError
  end.
Proof.
  intros Hperm Hrev.
  destruct (build_cmap_rev_items_inv obj items Hperm Hrev) as [Hinv Hnd].
  pose proof (run_calls_rev calls obj Hinv Hnd) as H.
  destruct (run_calls calls obj); [by destruct H|done].
Qed.

Lemma reverse_index_invariant_witness :
  let calls := [Remove_codepoint 65; Remove_codepoints [66; 67]]%N in
  map_to_list (cmap Sample.chain) ≡ₚ map_to_list (cmap Sample.chain) ∧
  cmap_rev Sample.chain =
    build_cmap_rev_items (map_to_list (cmap Sample.chain)) ∧
  match run_calls calls Sample.chain with
  | Ok obj' => rev_inv obj'
  | Raise e => e = IndexError
  end.
Proof.
  intros calls. split; [reflexivity|]. split; [reflexivity|].
  apply (reverse_index_invariant Sample.chain
           (map_to_list (cmap Sample.chain)) calls); reflexivity.
Defined.

(** C8, as the code has it. If [c] is absent from [cmap], or mapped to the
    empty glyph name, [remove_codepoint] leaves the font unchanged.
    Otherwise, on a font with a consistent reverse index, it removes [c]
    from [cmap] and from the reverse entries, touches no other table, and
    goes on with [remove_glyph] on the glyph exactly when [c] was the only
    codepoint of that glyph. *)
Theorem remove_codepoint_spec (obj : font) (c : codepoint) :
  rev_inv obj → rev_nodup obj →
  match cmap obj !! c with
  | None => remove_codepoint obj c = Ok obj
  | Some g =>
      if decide (g = "") then remove_codepoint obj c = Ok obj
      else
        ∃ obj1,
          cmap obj1 = delete c (cmap obj) ∧
          (∀ g' c', c' ∈ cmap_rev_get (cmap_rev obj1) g' ↔
                    c' ∈ cmap_rev_get (cmap_rev obj) g' ∧ c' ≠ c) ∧
          same_tables obj1 obj ∧
          (only_codepoint obj c g →
             remove_codepoint obj c = remove_glyph g obj1) ∧
          (¬ only_codepoint obj c g → remove_codepoint obj c = Ok obj1)
  end.
Proof.
  intros Hinv Hnd. unfold remove_codepoint.
  destruct (cmap obj !! c) as [g|] eqn:Hc; [|done].
  case_decide as Hg; [done|].
  destruct (disassociate_spec obj c g Hinv Hnd Hc)
    as (obj1 & -> & Hcmap & Hrev & Hsame & _ & _).
  exists obj1. split_and!; [done..| |]; simpl.
  - intros Honly%only_codepoint_singleton; [|done..].
    by rewrite bool_decide_eq_true_2.
  - intros Honly. rewrite bool_decide_eq_false_2; [done|].
    by rewrite only_codepoint_singleton.
Qed.

Lemma remove_codepoint_spec_witness :
  rev_inv Sample.chain ∧ rev_nodup Sample.chain ∧
  ∃ obj1,
    cmap obj1 = delete 65%N (cmap Sample.chain) ∧
    (∀ g' c', c' ∈ cmap_rev_get (cmap_rev obj1) g' ↔
              c' ∈ cmap_rev_get (cmap_rev Sample.chain) g' ∧ c' ≠ 65%N) ∧
    same_tables obj1 Sample.chain ∧
    (only_codepoint Sample.chain 65 "a" →
       remove_codepoint Sample.chain 65 = remove_glyph "a" obj1) ∧
    (¬ only_codepoint Sample.chain 65 "a" →
       remove_codepoint Sample.chain 65 = Ok obj1).
Proof.
  destruct (build_cmap_rev_items_inv Sample.chain
              (map_to_list (cmap Sample.chain))) as [Hinv Hnd];
    [reflexivity..|].
  split; [exact Hinv|]. split; [exact Hnd|].
  exact (remove_codepoint_spec Sample.chain 65 Hinv Hnd).
Defined.

(** C8 as the claim has it fails on a codepoint that [cmap] maps to the
    empty glyph name: the codepoint is present, the reverse index is the one
    [build_cmap_rev] builds, and [remove_codepoint] leaves the codepoint in
    [cmap]. *)
Lemma remove_codepoint_keeps_unnamed :
  cmap Sample.unnamed !! 65%N = Some "" ∧
  cmap_rev Sample.unnamed = build_cmap_rev (cmap Sample.unnamed) ∧
  ∃ obj', remove_codepoint Sample.unnamed 65 = Ok obj' ∧
          cmap obj' !! 65%N = Some "" ∧
          65%N ∈ cmap_rev_get (cmap_rev obj') "".
Proof.
  split; [reflexivity|]. split; [reflexivity|].
  exists Sample.unnamed. split; [reflexivity|]. split; [reflexivity|].
  vm_compute. left.
Qed.

(** ** Reachability *)

Lemma lookup_targets_Ok g lookup T :
  lookup_targets g lookup = Ok T →
  reachability_type lookup ∧ ∀ h, h ∈ T ↔ lookup_step lookup g h.
Proof.
  unfold lookup_targets, reachability_type, lookup_step.
  destruct (typed lookup) as [sts|sts|sts| | | | | | | | | |]; try done;
    intros [= <-]; (split; [done|]); intros h;
    rewrite elem_of_union_list; setoid_rewrite list_elem_of_fmap.
  - split.
    + intros (X & (st & -> & Hst) & Hh). exists st. split; [done|].
      destruct (st !! g); set_solver.
    + intros (st & Hst & Hh). eexists. split; [by exists st|].
      rewrite Hh. set_solver.
  - split.
    + intros (X & (st & -> & Hst) & Hh).
      destruct (st !! g) as [vs|] eqn:Hg; [|set_solver].
      exists st, vs. by rewrite elem_of_list_to_set in Hh.
    + intros (st & vs & Hst & Hg & Hh). eexists. split; [by exists st|].
      rewrite Hg. by rewrite elem_of_list_to_set.
  - split.
    + intros (X & (st & -> & Hst) & Hh).
      apply elem_of_list_to_set, list_elem_of_fmap in Hh as (item & -> & Hi).
      apply list_elem_of_filter in Hi as [? ?]. by exists st, item.
    + intros (st & item & Hst & Hi & Hg & ->). eexists. split; [by exists st|].
      apply elem_of_list_to_set, list_elem_of_fmap. exists item.
      split; [done|]. by apply list_elem_of_filter.
Qed.

Lemma lookup_targets_total g lookup :
  reachability_type lookup → ∃ T, lookup_targets g lookup = Ok T.
Proof.
  unfold lookup_targets, reachability_type.
  destruct (typed lookup); try done; by eexists.
Qed.

Section reach_loops.
Variable obj : font.

(** The loop over the lookups, for one glyph of [cmap]. *)
Let inner (g : glyph) (lookups : list lookup_record) (R : gset glyph) :=
  for_each lookups
    (λ lookup (R : gset glyph), T ← lookup_targets g lookup; Ok (T ∪ R)) R.

Lemma inner_Ok g lookups R R' :
  inner g lookups R = Ok R' →
  Forall reachability_type lookups ∧
  ∀ h, h ∈ R' ↔ h ∈ R ∨ ∃ lookup, lookup ∈ lookups ∧ lookup_step lookup g h.
Proof.
  unfold inner. revert R.
  induction lookups as [|lookup lookups IH]; intros R; simpl.
  - intros [= <-]. split; [constructor|]. intros h. set_solver.
  - intros (R1 & (T & HT & [= <-])%bind_Ok & Hrest)%bind_Ok.
    apply lookup_targets_Ok in HT as [Hty HT].
    apply IH in Hrest as [Htys Hrest]. split; [by constructor|].
    intros h. rewrite Hrest, elem_of_union, HT.
    setoid_rewrite elem_of_cons. naive_solver.
Qed.

Lemma inner_total g lookups R :
  Forall reachability_type lookups → ∃ R', inner g lookups R = Ok R'.
Proof.
  unfold inner. intros Hty. revert R.
  induction Hty as [|lookup lookups Hl _ IH]; intros R; simpl; [by eexists|].
  destruct (lookup_targets_total g lookup Hl) as [T ->]. simpl. apply IH.
Qed.

(** The loop over the glyphs of [cmap]. *)
Let outer (glyphs : list glyph) (R : gset glyph) :=
  for_each glyphs
    (λ glyph_name (reachable_glyphs : gset glyph),
       let reachable_glyphs := {[glyph_name]} ∪ reachable_glyphs in
       gsub ← from_option Ok (Raise KeyError) (GSUB obj);
       for_each (map_to_list (Otl.lookups gsub)).*2
         (λ lookup (reachable_glyphs : gset glyph),
            targets ← lookup_targets glyph_name lookup;
            Ok (targets ∪ reachable_glyphs))
         reachable_glyphs) R.

Lemma elem_of_lookups (t : Otl.table) lookup :
  lookup ∈ (map_to_list (Otl.lookups t)).*2 ↔
  ∃ name, Otl.lookups t !! name = Some lookup.
Proof.
  rewrite list_elem_of_fmap. split.
  - intros ([name l] & -> & Hl%elem_of_map_to_list). by exists name.
  - intros (name & Hl). exists (name, lookup). by rewrite elem_of_map_to_list.
Qed.

Lemma reachability_types_Forall (t : Otl.table) :
  GSUB obj = Some t →
  Forall reachability_type (map_to_list (Otl.lookups t)).*2 ↔
  reachability_types obj.
Proof.
  intros Ht. unfold reachability_types. rewrite Forall_forall. split.
  - intros H. exists t. split; [done|]. intros name lookup Hl.
    apply H, elem_of_lookups. by exists name.
  - intros (t' & Ht' & H) lookup (name & Hl)%elem_of_lookups.
    simplify_eq. by eapply H.
Qed.

Lemma outer_Ok glyphs R0 R :
  outer glyphs R0 = Ok R →
  (glyphs = [] ∨ reachability_types obj) ∧
  ∀ h, h ∈ R ↔ h ∈ R0 ∨ h ∈ glyphs ∨ ∃ g, g ∈ glyphs ∧ gsub_step obj g h.
Proof.
  unfold outer. revert R0.
  induction glyphs as [|g glyphs IH]; intros R0; simpl.
  - intros [= <-]. split; [by left|]. intros h. set_solver.
  - intros (R1 & (t & Ht & Hin)%bind_Ok & Hrest)%bind_Ok.
    destruct (GSUB obj) as [t'|] eqn:Hgsub; simplify_eq/=.
    apply inner_Ok in Hin as [Hty Hin]. apply IH in Hrest as [_ Hrest].
    split; [right; by apply (reachability_types_Forall t)|].
    intros h. rewrite Hrest, Hin, elem_of_union, elem_of_singleton.
    setoid_rewrite elem_of_cons. setoid_rewrite elem_of_lookups.
    unfold gsub_step, gsub_lookup. split.
    + intros [[[->|?]|(lookup & (name & ?) & ?)]|[?|(g' & ? & ?)]]; eauto 10.
      right. right. exists g. split; [by left|]. exists lookup. eauto 10.
    + intros [?|[[->|?]|(g' & [->|?] & lookup & (t' & name & ? & ?) & ?)]];
        simplify_eq; eauto 10.
Qed.

Lemma outer_total glyphs R0 :
  glyphs = [] ∨ reachability_types obj → ∃ R, outer glyphs R0 = Ok R.
Proof.
  unfold outer. intros [->|Hty]; [by eexists|]. revert R0.
  induction glyphs as [|g glyphs IH]; intros R0; simpl; [by eexists|].
  destruct Hty as (t & Ht & Hty).
  destruct (inner_total g (map_to_list (Otl.lookups t)).*2 ({[g]} ∪ R0))
    as [R1 HR1].
  { apply reachability_types_Forall; [done|]. by exists t. }
  destruct (IH R1) as [R HR]. exists R.
  apply bind_Ok. exists R1. split; [|done].
  rewrite Ht. simpl. exact HR1.
Qed.
End reach_loops.

Lemma elem_of_cmap_values (obj : font) g :
  g ∈ (map_to_list (cmap obj)).*2 ↔ cmap_target obj g.
Proof.
  rewrite list_elem_of_fmap. split.
  - intros ([c g'] & -> & Hc%elem_of_map_to_list). by exists c.
  - intros (c & Hc). exists (c, g). by rewrite elem_of_map_to_list.
Qed.

(** What [get_reachable_glyphs] returns, when it returns. *)
Lemma get_reachable_glyphs_Ok obj R :
  get_reachable_glyphs obj = Ok R →
  ∀ h, h ∈ R ↔ h = ".notdef" ∨ h = ".null" ∨ cmap_target obj h ∨
               ∃ g, cmap_target obj g ∧ gsub_step obj g h.
Proof.
  intros [_ H]%outer_Ok h. rewrite H.
  setoid_rewrite elem_of_cmap_values. set_solver.
Qed.

(** [get_reachable_glyphs] returns exactly on the fonts with an empty
    [cmap] and on those whose lookups it has a branch for. *)
Lemma get_reachable_glyphs_defined obj :
  (∃ R, get_reachable_glyphs obj = Ok R) ↔
  cmap obj = ∅ ∨ reachability_types obj.
Proof.
  split.
  - intros [R [[Hnil|?] _]%outer_Ok]; [left|by right].
    apply fmap_nil_inv in Hnil. by apply map_to_list_empty_iff.
  - intros H. apply outer_total. destruct H as [->|?]; [left|by right].
    by rewrite map_to_list_empty.
Qed.

(** C1, as the code has it. For every font whose GSUB lookups are all of
    type [gsub_single], [gsub_alternate] or [gsub_ligature],
    [get_reachable_glyphs] returns the set made of [.notdef], [.null], every
    glyph directly targeted by [cmap], and every glyph that one substitution
    reaches from a glyph targeted by [cmap]: the substitutions are followed
    one step from [cmap], not to a closure. *)
Theorem get_reachable_glyphs_one_step (obj : font) :
  reachability_types obj →
  ∃ R, get_reachable_glyphs obj = Ok R ∧
       ∀ h, h ∈ R ↔ h = ".notdef" ∨ h = ".null" ∨ cmap_target obj h ∨
                    ∃ g, cmap_target obj g ∧ gsub_step obj g h.
Proof.
  intros Hty.
  destruct (proj2 (get_reachable_glyphs_defined obj)) as [R HR]; [by right|].
  exists R. split; [done|]. by apply get_reachable_glyphs_Ok.
Qed.

Lemma sample_chain_types : reachability_types Sample.chain.
Proof.
  eexists. split; [reflexivity|]. by apply map_Forall_singleton.
Qed.

Lemma get_reachable_glyphs_one_step_witness :
  reachability_types Sample.chain ∧
  ∃ R, get_reachable_glyphs Sample.chain = Ok R ∧
       ∀ h, h ∈ R ↔ h = ".notdef" ∨ h = ".null" ∨ cmap_target Sample.chain h ∨
                    ∃ g, cmap_target Sample.chain g ∧
                         gsub_step Sample.chain g h.
Proof.
  split; [exact sample_chain_types|].
  exact (get_reachable_glyphs_one_step Sample.chain sample_chain_types).
Defined.

(** C1 as the claim has it fails: in the sample font [a] is targeted by
    [cmap] and [a -> b -> c] are two [gsub_single] substitutions; the
    returned set holds [b], and is not closed, for it leaves out [c]. *)
Lemma get_reachable_glyphs_not_closed :
  reachability_types Sample.chain ∧
  ∃ R, get_reachable_glyphs Sample.chain = Ok R ∧
       "b" ∈ R ∧ gsub_step Sample.chain "b" "c" ∧ ("c" ∉ R) ∧
       ¬ closed_under_gsub Sample.chain R.
Proof.
  split; [exact sample_chain_types|].
  exists {[".notdef"; ".null"; "a"; "b"]}.
  assert (gsub_step Sample.chain "b" "c") as Hstep.
  { eexists. split.
    - eexists _, "sub". split; reflexivity.
    - eexists. split; [left|reflexivity]. }
  assert ("c" ∉ ({[".notdef"; ".null"; "a"; "b"]} : gset string)) as Hc
    by set_solver.
  split_and!; [by vm_compute|set_solver|done|done|].
  intros Hclosed. apply Hc. eapply Hclosed; [|done]. set_solver.
Qed.

(** ** What [remove_glyph] does to the GSUB lookups *)

Lemma remove_glyph_gsub_lookups g obj obj' lookup' :
  remove_glyph g obj = Ok obj' →
  gsub_lookup obj' lookup' ↔
  ∃ lookup, gsub_lookup obj lookup ∧
            lookup' = remove_glyph_gsub_lookup g lookup.
Proof.
  intros Hgsub%remove_glyph_GSUB. unfold gsub_lookup. rewrite Hgsub. split.
  - intros (t' & name & Ht' & Hl).
    destruct (GSUB obj) as [t|]; simplify_eq/=.
    apply lookup_fmap_Some in Hl as (lookup & <- & Hl). eauto 10.
  - intros (lookup & (t & name & -> & Hl) & ->). simpl.
    eexists _, name. split; [done|]. simpl. by rewrite lookup_fmap, Hl.
Qed.

Lemma remove_glyph_gsub_lookup_type g lookup :
  reachability_type (remove_glyph_gsub_lookup g lookup) ↔
  reachability_type lookup.
Proof.
  unfold reachability_type, remove_glyph_gsub_lookup.
  destruct (typed lookup) eqn:Hty; simpl; rewrite ?Hty; done.
Qed.

(** A substitution that is left was there before. *)
Lemma remove_glyph_gsub_lookup_step g lookup g0 h :
  lookup_step (remove_glyph_gsub_lookup g lookup) g0 h →
  lookup_step lookup g0 h.
Proof.
  unfold lookup_step, remove_glyph_gsub_lookup.
  destruct (typed lookup) as [sts|sts|sts| | | | | | | | | |] eqn:Hty;
    simpl; rewrite ?Hty; try done.
  - intros (st' & (st & -> & Hst)%list_elem_of_fmap & Hg).
    exists st. split; [done|]. unfold remove_glyph_single in Hg.
    apply map_lookup_filter_Some in Hg as [Hg _].
    by apply lookup_delete_Some in Hg as [_ Hg].
  - intros (st' & vs' & (st & -> & Hst)%list_elem_of_fmap & Hg & Hh).
    unfold remove_glyph_alternate in Hg.
    apply lookup_fmap_Some in Hg as (vs & <- & Hg).
    apply lookup_delete_Some in Hg as [_ Hg].
    exists st, vs. split_and!; [done..|]. by eapply elem_of_remove_first.
  - intros (st' & item & (st & -> & Hst)%list_elem_of_fmap & Hi & Hg & Hh).
    simpl in Hi. apply list_elem_of_filter in Hi as [_ Hi]. by exists st, item.
Qed.

(** A substitution between two other glyphs is left, unless it is a
    ligature rule with the removed glyph among its inputs. *)
Lemma remove_glyph_gsub_lookup_step_kept g lookup g0 h :
  lookup_step lookup g0 h → g0 ≠ g → h ≠ g →
  (∀ sts st item, typed lookup = gsub_ligature sts → st ∈ sts →
                  item ∈ Ligature.substitutions st → g0 ∈ from item →
                  g ∉ from item) →
  lookup_step (remove_glyph_gsub_lookup g lookup) g0 h.
Proof.
  unfold lookup_step, remove_glyph_gsub_lookup.
  destruct (typed lookup) as [sts|sts|sts| | | | | | | | | |] eqn:Hty;
    simpl; try done.
  - intros (st & Hst & Hg) Hg0 Hh _. exists (remove_glyph_single g st).
    split; [apply list_elem_of_fmap; eauto|]. unfold remove_glyph_single.
    apply map_lookup_filter_Some. split; [|done].
    by apply lookup_delete_Some.
  - intros (st & vs & Hst & Hg & Hvs) Hg0 Hh _.
    exists (remove_glyph_alternate g st), (remove_first g vs).
    split_and!; [apply list_elem_of_fmap; eauto| |].
    + unfold remove_glyph_alternate. apply lookup_fmap_Some. exists vs.
      split; [done|]. by apply lookup_delete_Some.
    + by apply elem_of_remove_first_ne.
  - intros (st & item & Hst & Hi & Hg & ->) Hg0 Hh Hlig.
    exists (remove_glyph_ligature g st), item.
    split_and!; [apply list_elem_of_fmap; eauto| |done..].
    simpl. apply list_elem_of_filter. split; [|done].
    split; [by eapply Hlig|done].
Qed.

Lemma remove_glyph_ligature_rule g obj obj' item :
  remove_glyph g obj = Ok obj' →
  ligature_rule obj' item → ligature_rule obj item.
Proof.
  intros Hrm (lookup' & sts' & st' & Hl & Hty & Hst & Hi).
  apply (remove_glyph_gsub_lookups g obj obj' lookup' Hrm)
    in Hl as (lookup & Hl & ->).
  unfold remove_glyph_gsub_lookup in Hty.
  destruct (typed lookup) as [sts|sts|sts| | | | | | | | | |] eqn:Hty';
    simpl in Hty; rewrite ?Hty' in Hty; simplify_eq/=.
  apply list_elem_of_fmap in Hst as (st & -> & Hst). simpl in Hi.
  apply list_elem_of_filter in Hi as [_ Hi]. by exists lookup, sts, st.
Qed.

Lemma remove_glyph_gsub_step g obj obj' g0 h :
  remove_glyph g obj = Ok obj' →
  gsub_step obj' g0 h → gsub_step obj g0 h.
Proof.
  intros Hrm (lookup' & Hl & Hstep).
  apply (remove_glyph_gsub_lookups g obj obj' lookup' Hrm)
    in Hl as (lookup & Hl & ->).
  exists lookup. split; [done|]. by eapply remove_glyph_gsub_lookup_step.
Qed.

Lemma remove_glyph_gsub_step_kept g obj obj' g0 h :
  remove_glyph g obj = Ok obj' →
  gsub_step obj g0 h → g0 ≠ g → h ≠ g →
  (∀ item, ligature_rule obj item → g0 ∈ from item → g ∉ from item) →
  gsub_step obj' g0 h.
Proof.
  intros Hrm (lookup & Hl & Hstep) Hg0 Hh Hlig.
  exists (remove_glyph_gsub_lookup g lookup). split.
  - apply (remove_glyph_gsub_lookups g obj obj' _ Hrm). eauto.
  - apply remove_glyph_gsub_lookup_step_kept; [done..|].
    intros sts st item Hty Hst Hi. apply Hlig. by exists lookup, sts, st.
Qed.

Lemma remove_glyph_reachability_types g obj obj' :
  remove_glyph g obj = Ok obj' →
  reachability_types obj → reachability_types obj'.
Proof.
  intros Hgsub%remove_glyph_GSUB (t & Ht & Hty).
  rewrite Ht in Hgsub. simpl in Hgsub. eexists. split; [done|]. simpl.
  intros name lookup' (lookup & <- & Hl)%lookup_fmap_Some.
  apply remove_glyph_gsub_lookup_type. by eapply Hty.
Qed.

(** Removing a glyph that is not reachable, and is no input of a ligature
    rule that a [cmap] target takes part in, leaves the reachable set as
    it is. *)
Lemma remove_glyph_reachable g obj obj' R :
  remove_glyph g obj = Ok obj' →
  get_reachable_glyphs obj = Ok R → g ∉ R →
  ligature_inputs_avoid obj (λ x, x = g) →
  get_reachable_glyphs obj' = Ok R.
Proof.
  intros Hrm HR Hg Hlig.
  pose proof (remove_glyph_cmap g obj obj' Hrm) as [Hcmap _].
  pose proof (get_reachable_glyphs_Ok obj R HR) as HinR.
  destruct (proj2 (get_reachable_glyphs_defined obj')) as [R' HR'].
  { rewrite Hcmap.
    destruct (proj1 (get_reachable_glyphs_defined obj)) as [?|?]; eauto.
    right. by eapply remove_glyph_reachability_types. }
  rewrite HR'. f_equal. apply set_eq. intros h.
  rewrite (get_reachable_glyphs_Ok obj' R' HR' h), HinR.
  unfold cmap_target. rewrite Hcmap.
  split; (intros [?|[?|[?|(g0 & Hg0 & Hstep)]]]; [by eauto..|]);
    do 3 right; exists g0; (split; [done|]).
  - by eapply remove_glyph_gsub_step.
  - eapply remove_glyph_gsub_step_kept; [done..| | |].
    + intros ->. apply Hg, HinR. eauto.
    + intros ->. apply Hg, HinR. do 3 right. eauto.
    + intros item Hitem Hin Hgin. by eapply (Hlig item g0 g).
Qed.

(** ** The sweep of [clean_unused_glyphs] *)

Lemma get_reachable_glyphs_ext obj1 obj2 :
  cmap obj1 = cmap obj2 → GSUB obj1 = GSUB obj2 →
  get_reachable_glyphs obj1 = get_reachable_glyphs obj2.
Proof. unfold get_reachable_glyphs. by intros -> ->. Qed.

Lemma ligature_inputs_avoid_ext obj1 obj2 P :
  cmap obj1 = cmap obj2 → GSUB obj1 = GSUB obj2 →
  ligature_inputs_avoid obj2 P → ligature_inputs_avoid obj1 P.
Proof.
  unfold ligature_inputs_avoid, ligature_rule, gsub_lookup, cmap_target.
  by intros -> ->.
Qed.

(** A glyph that [cmap] does not target has no codepoint to lose. *)
Lemma remove_associated_codepoints_untargeted obj g :
  rev_inv obj → ¬ cmap_target obj g →
  cmap_rev_get (cmap_rev obj) g = [] ∧
  ∃ obj1, remove_associated_codepoints_of_glyph obj g = Ok obj1 ∧
          cmap obj1 = cmap obj ∧ same_tables obj1 obj ∧ rev_inv obj1.
Proof.
  intros Hinv Hg.
  assert (cmap_rev_get (cmap_rev obj) g = []) as Hnil.
  { destruct (cmap_rev_get (cmap_rev obj) g) as [|c l] eqn:Heq; [done|].
    destruct Hg. exists c. apply Hinv. rewrite Heq. left. }
  split; [done|]. unfold remove_associated_codepoints_of_glyph.
  rewrite Hnil. simpl. eexists. split; [done|]. split_and!; try done.
  unfold rev_inv. simpl. intros c g'. rewrite cmap_rev_get_delete.
  case_decide as Hgg; [subst g'|apply Hinv].
  rewrite elem_of_nil. split; [|done]. intros Hc. apply Hg. by exists c.
Qed.

(** One turn of the sweep, on a glyph that [cmap] does not target: the
    character map stays, and the other tables change as [remove_glyph]
    changes them. *)
Lemma sweep_step g obj obj' :
  rev_inv obj → ¬ cmap_target obj g →
  remove_associated_codepoints_of_glyph obj g ≫= remove_glyph g = Ok obj' →
  rev_inv obj' ∧ cmap obj' = cmap obj ∧
  glyph_order obj' = remove_first g (glyph_order obj) ∧
  ∃ obj1, cmap obj1 = cmap obj ∧ GSUB obj1 = GSUB obj ∧
          remove_glyph g obj1 = Ok obj'.
Proof.
  intros Hinv Htarget (obj1 & Hassoc & Hrm)%bind_Ok.
  destruct (remove_associated_codepoints_untargeted obj g Hinv Htarget)
    as (_ & obj1' & Hassoc' & Hcmap1 & Hsame & Hinv1).
  rewrite Hassoc in Hassoc'. injection Hassoc' as <-.
  destruct Hsame as (Horder & _ & Hgsub & _).
  pose proof (remove_glyph_cmap g obj1 obj' Hrm) as [Hcmap' _].
  split_and!.
  - by apply (remove_glyph_rev g obj1 obj' Hrm).
  - congruence.
  - rewrite <- Horder. by apply remove_glyph_glyph_order.
  - by exists obj1.
Qed.

Lemma sweep_cons g glyphs obj :
  sweep (g :: glyphs) obj =
    (remove_associated_codepoints_of_glyph obj g ≫= remove_glyph g)
      ≫= sweep glyphs.
Proof. done. Qed.

(** A sweep over glyphs that [cmap] does not target keeps the character
    map. *)
Lemma sweep_cmap glyphs obj obj' :
  rev_inv obj → (∀ g, g ∈ glyphs → ¬ cmap_target obj g) →
  sweep glyphs obj = Ok obj' →
  cmap obj' = cmap obj ∧
  glyph_order obj' =
    foldl (λ order g, remove_first g order) (glyph_order obj) glyphs.
Proof.
  revert obj. induction glyphs as [|g glyphs IH]; intros obj Hinv Hgs.
  - by intros [= <-].
  - rewrite sweep_cons. intros (obj1 & Hstep & Hrest)%bind_Ok.
    destruct (sweep_step g obj obj1 Hinv) as (Hinv1 & Hcmap1 & Horder1 & _);
      [apply Hgs; left|done|].
    destruct (IH obj1) as (Hcmap' & Horder'); [done| |done|].
    + intros g' Hg'. unfold cmap_target. rewrite Hcmap1. apply Hgs. by right.
    + split; [congruence|]. simpl. by rewrite <- Horder1.
Qed.

(** A sweep over glyphs that are not reachable, and are no inputs of the
    ligature rules that [cmap] targets take part in, keeps the reachable
    set. *)
Lemma sweep_reachable glyphs obj obj' R :
  rev_inv obj → get_reachable_glyphs obj = Ok R →
  (∀ g, g ∈ glyphs → g ∉ R) →
  ligature_inputs_avoid obj (λ x, x ∈ glyphs) →
  sweep glyphs obj = Ok obj' →
  get_reachable_glyphs obj' = Ok R.
Proof.
  revert obj. induction glyphs as [|g glyphs IH]; intros obj Hinv HR Hgs Hlig.
  - by intros [= <-].
  - rewrite sweep_cons. intros (obj1 & Hstep & Hrest)%bind_Ok.
    assert (¬ cmap_target obj g) as Htarget.
    { intros ?. eapply Hgs; [left|].
      apply (get_reachable_glyphs_Ok obj R HR). eauto. }
    destruct (sweep_step g obj obj1 Hinv Htarget Hstep)
      as (Hinv1 & Hcmap1 & _ & obj0 & Hcmap0 & Hgsub0 & Hrm).
    assert (ligature_inputs_avoid obj0 (λ x, x ∈ g :: glyphs)) as Hlig0
      by by eapply ligature_inputs_avoid_ext.
    apply (IH obj1); [done| | | |done].
    + eapply remove_glyph_reachable; [done| | |].
      * by rewrite (get_reachable_glyphs_ext obj0 obj).
      * apply Hgs. left.
      * intros item g0 x Hitem Hg0 Hin Hx ->. eapply Hlig0; [done..|left].
    + intros g' Hg'. apply Hgs. by right.
    + intros item g0 x Hitem [c Hc] Hin Hx Hx'.
      eapply (Hlig0 item g0 x); [|exists c; congruence|done..|by right].
      by eapply remove_glyph_ligature_rule.
Qed.

Lemma elem_of_foldl_remove_first (glyphs order : list glyph) x :
  NoDup order →
  x ∈ foldl (λ order g, remove_first g order) order glyphs ↔
  x ∈ order ∧ x ∉ glyphs.
Proof.
  revert order. induction glyphs as [|g glyphs IH]; intros order Hnd; simpl.
  - rewrite elem_of_nil. naive_solver.
  - rewrite IH by by apply NoDup_remove_first.
    rewrite elem_of_remove_first_NoDup by done.
    rewrite not_elem_of_cons. naive_solver.
Qed.

Lemma set_order_elem order (s : gset glyph) x :
  set_order order → x ∈ order s ↔ x ∈ s.
Proof. intros Horder. by rewrite (Horder s), elem_of_elements. Qed.

Lemma set_order_empty order : set_order order → order ∅ = [].
Proof.
  intros Horder. apply Permutation_nil_r. by rewrite (Horder ∅), elements_empty.
Qed.

(** ** Pruning *)

Lemma sample_chain_rev : rev_inv Sample.chain ∧ rev_nodup Sample.chain.
Proof.
  by apply (build_cmap_rev_items_inv Sample.chain
              (map_to_list (cmap Sample.chain))).
Qed.

Lemma clean_unused_glyphs_unfold order obj R :
  get_reachable_glyphs obj = Ok R →
  clean_unused_glyphs order obj =
    sweep (order (list_to_set (glyph_order obj) ∖ R)) obj.
Proof. unfold clean_unused_glyphs. by intros ->. Qed.

Lemma set_order_elements : set_order elements.
Proof. by intros s. Qed.

(** C10. For every font whose [cmap_rev] satisfies the reverse-index
    invariant with respect to [cmap], every glyph outside the reachable set
    has no associated codepoint, and [clean_unused_glyphs] leaves the
    [cmap] table unchanged, in whatever order it walks the unused glyphs. *)
Theorem clean_unused_glyphs_keeps_cmap (order : gset glyph → list glyph)
    (obj : font) :
  set_order order → rev_inv obj →
  (∀ R g, get_reachable_glyphs obj = Ok R → g ∉ R →
          cmap_rev_get (cmap_rev obj) g = []) ∧
  (∀ obj', clean_unused_glyphs order obj = Ok obj' → cmap obj' = cmap obj).
Proof.
  intros Horder Hinv.
  assert (∀ R g, get_reachable_glyphs obj = Ok R → g ∉ R →
                 ¬ cmap_target obj g) as Htarget.
  { intros R g HR Hg ?. apply Hg, (get_reachable_glyphs_Ok obj R HR). eauto. }
  split.
  - intros R g HR Hg.
    by apply (remove_associated_codepoints_untargeted obj g Hinv), (Htarget R).
  - intros obj'. unfold clean_unused_glyphs.
    intros (R & HR & Hsweep)%bind_Ok.
    eapply sweep_cmap; [done| |done].
    intros g Hg. apply (Htarget R); [done|].
    apply (set_order_elem order) in Hg; [|done]. set_solver.
Qed.

Lemma clean_unused_glyphs_keeps_cmap_witness :
  set_order elements ∧ rev_inv Sample.chain ∧
  (∀ R g, get_reachable_glyphs Sample.chain = Ok R → g ∉ R →
          cmap_rev_get (cmap_rev Sample.chain) g = []) ∧
  (∀ obj', clean_unused_glyphs elements Sample.chain = Ok obj' →
           cmap obj' = cmap Sample.chain).
Proof.
  split; [exact set_order_elements|]. split; [exact (proj1 sample_chain_rev)|].
  exact (clean_unused_glyphs_keeps_cmap elements Sample.chain
           set_order_elements (proj1 sample_chain_rev)).
Defined.

(** C3, as the code has it. On a font with a consistent reverse index and
    distinct names in [glyph_order], in which no [gsub_ligature] rule with a
    [cmap]-targeted input glyph also has an input glyph that is in
    [glyph_order] and not reachable, a [clean_unused_glyphs] that succeeds
    makes a second call change nothing: the second call computes the same
    reachable set and returns the font as it got it. *)
Theorem clean_unused_glyphs_twice (order1 order2 : gset glyph → list glyph)
    (obj obj' : font) (R : gset glyph) :
  set_order order1 → set_order order2 →
  rev_inv obj → NoDup (glyph_order obj) →
  get_reachable_glyphs obj = Ok R →
  ligature_inputs_avoid obj (λ x, x ∈ glyph_order obj ∧ x ∉ R) →
  clean_unused_glyphs order1 obj = Ok obj' →
  get_reachable_glyphs obj' = Ok R ∧
  clean_unused_glyphs order2 obj' = Ok obj'.
Proof.
  intros Horder1 Horder2 Hinv Hnd HR Hlig. unfold clean_unused_glyphs at 1.
  rewrite HR. simpl.
  set (unused := order1 (list_to_set (glyph_order obj) ∖ R)).
  intros Hsweep.
  assert (∀ g, g ∈ unused ↔ g ∈ glyph_order obj ∧ g ∉ R) as Hunused.
  { intros g. unfold unused. rewrite (set_order_elem order1) by done.
    set_solver. }
  assert (∀ g, g ∈ unused → ¬ cmap_target obj g) as Htarget.
  { intros g [_ Hg]%Hunused ?.
    apply Hg, (get_reachable_glyphs_Ok obj R HR). eauto. }
  destruct (sweep_cmap unused obj obj' Hinv Htarget Hsweep) as [_ Horder'].
  assert (get_reachable_glyphs obj' = Ok R) as HR'.
  { eapply sweep_reachable; [done..| | |done].
    - intros g Hg. by apply Hunused.
    - intros item g x Hitem Hg Hin Hx Hx'%Hunused. by eapply Hlig. }
  split; [done|]. unfold clean_unused_glyphs. rewrite HR'. simpl.
  assert (list_to_set (glyph_order obj') ∖ R = (∅ : gset glyph)) as ->.
  { apply set_eq. intros x.
    rewrite elem_of_difference, elem_of_list_to_set, Horder'.
    rewrite elem_of_foldl_remove_first, Hunused by done.
    split; [|set_solver]. intros [[? Hx] ?]. destruct Hx. done. }
  by rewrite set_order_empty.
Qed.

Lemma sample_chain_no_ligature P : ligature_inputs_avoid Sample.chain P.
Proof.
  intros item g x (lookup & sts & st & (t & name & Ht & Hl) & Hty & _) _ _ _.
  injection Ht as <-. simpl in Hl.
  apply lookup_singleton_Some in Hl as [_ <-]. done.
Qed.

Lemma clean_unused_glyphs_twice_witness :
  ∃ obj' R,
    set_order elements ∧ rev_inv Sample.chain ∧
    NoDup (glyph_order Sample.chain) ∧
    get_reachable_glyphs Sample.chain = Ok R ∧
    ligature_inputs_avoid Sample.chain
      (λ x, x ∈ glyph_order Sample.chain ∧ x ∉ R) ∧
    clean_unused_glyphs elements Sample.chain = Ok obj' ∧
    glyph_order obj' = [".notdef"; "a"; "b"] ∧
    get_reachable_glyphs obj' = Ok R ∧
    clean_unused_glyphs elements obj' = Ok obj'.
Proof.
  eexists _, _.
  assert (get_reachable_glyphs Sample.chain =
            Ok {[".notdef"; ".null"; "a"; "b"]}) as HR
    by (vm_compute; reflexivity).
  assert (NoDup (glyph_order Sample.chain)) as Hnd
    by (apply (bool_decide_unpack _); vm_compute; exact I).
  split; [exact set_order_elements|]. split; [exact (proj1 sample_chain_rev)|].
  split; [exact Hnd|]. split; [exact HR|].
  split; [apply sample_chain_no_ligature|].
  split; [vm_compute; reflexivity|]. split; [reflexivity|].
  apply (clean_unused_glyphs_twice elements elements Sample.chain _ _
           set_order_elements set_order_elements (proj1 sample_chain_rev)
           Hnd HR (sample_chain_no_ligature _)).
  vm_compute; reflexivity.
Defined.

(** With one unused glyph, the order of the sweep plays no part. *)
Lemma clean_unused_glyphs_single order obj R x :
  set_order order → get_reachable_glyphs obj = Ok R →
  elements (list_to_set (glyph_order obj) ∖ R : gset glyph) = [x] →
  clean_unused_glyphs order obj = sweep [x] obj.
Proof.
  intros Horder HR Hx. rewrite (clean_unused_glyphs_unfold order obj R HR).
  f_equal. apply Permutation_singleton_r.
  by rewrite <- Hx, (Horder (list_to_set (glyph_order obj) ∖ R)).
Qed.

(** C3 as the claim has it fails. In the sample font [a] is targeted by
    [cmap], [x] is not, and the only rule is the ligature [a x -> b]. The
    first call finds [b] reachable and sweeps [x], which drops the rule;
    the second call no longer finds [b] reachable and removes it from
    [glyph_order]. The font is as [load_font] makes it and the order of the
    sweep plays no part. *)
Lemma clean_unused_glyphs_not_idempotent :
  cmap_rev Sample.liga = build_cmap_rev (cmap Sample.liga) ∧
  NoDup (glyph_order Sample.liga) ∧
  ∀ order1 order2, set_order order1 → set_order order2 →
  ∃ obj1 obj2 R1 R2,
    get_reachable_glyphs Sample.liga = Ok R1 ∧
    clean_unused_glyphs order1 Sample.liga = Ok obj1 ∧
    get_reachable_glyphs obj1 = Ok R2 ∧
    clean_unused_glyphs order2 obj1 = Ok obj2 ∧
    "b" ∈ R1 ∧ ("b" ∉ R2) ∧
    glyph_order obj1 = [".notdef"; "a"; "b"] ∧
    glyph_order obj2 = [".notdef"; "a"].
Proof.
  split; [reflexivity|].
  split; [apply (bool_decide_unpack _); vm_compute; exact I|].
  intros order1 order2 Horder1 Horder2.
  assert ("b" ∈ ({[".notdef"; ".null"; "a"; "b"]} : gset glyph)) as Hb1
    by set_solver.
  assert ("b" ∉ ({[".notdef"; ".null"; "a"]} : gset glyph)) as Hb2
    by set_solver.
  assert (get_reachable_glyphs Sample.liga =
            Ok {[".notdef"; ".null"; "a"; "b"]}) as HR1
    by (vm_compute; reflexivity).
  assert (elements (list_to_set (glyph_order Sample.liga) ∖
                      {[".notdef"; ".null"; "a"; "b"]} : gset glyph)
          = ["x"]) as Hd1 by (vm_compute; reflexivity).
  assert (∃ obj1, sweep ["x"] Sample.liga = Ok obj1 ∧
                  glyph_order obj1 = [".notdef"; "a"; "b"] ∧
                  get_reachable_glyphs obj1 =
                    Ok {[".notdef"; ".null"; "a"]} ∧
                  elements (list_to_set (glyph_order obj1) ∖
                              {[".notdef"; ".null"; "a"]} : gset glyph)
                  = ["b"] ∧
                  ∃ obj2, sweep ["b"] obj1 = Ok obj2 ∧
                          glyph_order obj2 = [".notdef"; "a"])
    as (obj1 & Hs1 & Ho1 & HR2 & Hd2 & obj2 & Hs2 & Ho2).
  { eexists. split; [vm_compute; reflexivity|]. split; [reflexivity|].
    split; [vm_compute; reflexivity|]. split; [vm_compute; reflexivity|].
    eexists. split; [vm_compute; reflexivity|reflexivity]. }
  exists obj1, obj2, {[".notdef"; ".null"; "a"; "b"]},
         {[".notdef"; ".null"; "a"]}.
  split; [exact HR1|].
  split; [by rewrite (clean_unused_glyphs_single order1 _ _ "x" Horder1 HR1 Hd1)|].
  split; [exact HR2|].
  split; [by rewrite (clean_unused_glyphs_single order2 _ _ "b" Horder2 HR2 Hd2)|].
  split; [exact Hb1|]. split; [exact Hb2|]. split; [exact Ho1|exact Ho2].
Qed.

(** ** The positions [remove_glyph] clears *)

Lemma delete_index_of {A} `{EqDecision A} (x : A) (l : list A) :
  x ∈ l → delete (index_of x l) l = remove_first x l.
Proof.
  induction l as [|y l IH]; simpl; [by intros ?%elem_of_nil|].
  intros Hx. case_decide; [done|]. simpl. f_equal. apply IH.
  apply elem_of_cons in Hx as [?|?]; done.
Qed.

Lemma remove_glyph_gsub_lookup_clear g lookup :
  distinct_lists (typed lookup) →
  (∀ sts, typed lookup ≠ gsub_multiple sts) →
  ¬ gsub_occurs g (typed (remove_glyph_gsub_lookup g lookup)).
Proof.
  unfold remove_glyph_gsub_lookup.
  destruct (typed lookup) as [sts|sts|sts|sts| | | | | | | | |] eqn:Hty;
    simpl; rewrite ?Hty; simpl; try by intros _ _ [].
  - intros _ _ (st' & (st & -> & Hst)%list_elem_of_fmap & Hocc).
    unfold remove_glyph_single in Hocc. destruct Hocc as [[v Hv]|[k Hk]].
    + apply map_lookup_filter_Some in Hv as [Hv _].
      by rewrite lookup_delete_eq in Hv.
    + by apply map_lookup_filter_Some in Hk as [_ Hk].
  - intros Hnd _ (st' & (st & -> & Hst)%list_elem_of_fmap & Hocc).
    unfold remove_glyph_alternate in Hocc.
    destruct Hocc as [[v Hv]|(k & vs' & Hk & Hg)].
    + by rewrite lookup_fmap, lookup_delete_eq in Hv.
    + apply lookup_fmap_Some in Hk as (vs & <- & Hk).
      apply lookup_delete_Some in Hk as [_ Hk].
      revert Hg. apply not_elem_of_remove_first. by eapply Hnd.
  - intros _ _ (st' & item & (st & -> & Hst)%list_elem_of_fmap & Hi & Hocc).
    simpl in Hi. apply list_elem_of_filter in Hi as [[? ?] _].
    by destruct Hocc.
  - intros _ Hmult. by destruct (Hmult sts).
Qed.

Lemma remove_glyph_context_clear g st st' :
  remove_glyph_context g st = Ok st' →
  (∀ l, l ∈ context_lists st → NoDup l) →
  ¬ context_occurs g st'.
Proof.
  unfold remove_glyph_context, context_occurs, context_lists, not_in.
  destruct st as [rules coverage pos classes]; simpl.
  destruct rules as [rules|].
  { intros [= <-] _. simpl. intros (rule & Hrule & Hocc).
    apply list_elem_of_filter in Hrule as [[? ?] _]. by destruct Hocc. }
  destruct coverage as [coverage|], pos as [pos|]; simpl.
  - case_decide as Hg.
    + intros (coverage' & Hc & (pos' & Hp & [= <-])%bind_Ok)%bind_Ok Hnd.
      simpl. unfold list_pop in Hc. case_decide; [|done].
      injection Hc as <-. rewrite delete_index_of by done.
      apply not_elem_of_remove_first, Hnd. left.
    + by intros [= <-] _.
  - destruct classes as [classes|]; intros [= <-] Hnd; simpl; [|by intros []].
    intros (cl' & (cl & -> & Hcl)%list_elem_of_fmap & Hg).
    revert Hg. apply not_elem_of_remove_first, Hnd. by right.
  - destruct classes as [classes|]; intros [= <-] Hnd; simpl; [|by intros []].
    intros (cl' & (cl & -> & Hcl)%list_elem_of_fmap & Hg).
    revert Hg. by apply not_elem_of_remove_first, Hnd.
  - destruct classes as [classes|]; intros [= <-] Hnd; simpl; [|by intros []].
    intros (cl' & (cl & -> & Hcl)%list_elem_of_fmap & Hg).
    revert Hg. by apply not_elem_of_remove_first, Hnd.
Qed.

Lemma remove_glyph_chaining_clear g st :
  ¬ chaining_occurs g (remove_glyph_chaining g st).
Proof.
  unfold remove_glyph_chaining, chaining_occurs, not_in.
  destruct (Chaining.rules st) as [rules|] eqn:Hrules; simpl.
  - intros (rules' & rule & [= <-] & Hrule & Hocc).
    apply list_elem_of_filter in Hrule as [(? & ? & ? & ?) _].
    by destruct Hocc as [?|[?|[?|?]]].
  - intros (rules' & rule & Hr & _). congruence.
Qed.

Lemma Forall2_elem_of_r {A B} (P : A → B → Prop) l k y :
  Forall2 P l k → y ∈ k → ∃ x, x ∈ l ∧ P x y.
Proof.
  induction 1 as [|x y' l k Hxy _ IH]; [by intros ?%elem_of_nil|].
  intros [->|Hy]%elem_of_cons.
  - exists x. split; [left|done].
  - destruct (IH Hy) as (x' & ? & ?). exists x'. split; [by right|done].
Qed.

Lemma remove_glyph_gpos_lookup_clear g lookup lookup' :
  remove_glyph_gpos_lookup g lookup = Ok lookup' →
  distinct_lists (typed lookup) →
  ¬ gpos_occurs g (typed lookup').
Proof.
  unfold remove_glyph_gpos_lookup.
  destruct (typed lookup) as [| | | |sts|sts|sts|sts|sts|sts|sts|sts|] eqn:Hty.
  1-4, 13: by intros [= <-] _; rewrite Hty; intros [].
  - intros [= <-] _. simpl.
    intros (st' & (st & -> & Hst)%list_elem_of_fmap & [v Hv]).
    by rewrite lookup_delete_eq in Hv.
  - intros [= <-] _. simpl.
    intros (st' & (st & -> & Hst)%list_elem_of_fmap & Hocc).
    simpl in Hocc. rewrite !lookup_delete_eq in Hocc.
    by destruct Hocc as [[? ?]|[? ?]].
  - intros [= <-] _. simpl.
    intros (st' & (st & -> & Hst)%list_elem_of_fmap & Hocc).
    simpl in Hocc. rewrite !lookup_delete_eq in Hocc.
    by destruct Hocc as [[? ?]|[? ?]].
  - intros [= <-] _. simpl.
    intros (st' & (st & -> & Hst)%list_elem_of_fmap & Hocc).
    simpl in Hocc. rewrite !lookup_delete_eq in Hocc.
    by destruct Hocc as [[? ?]|[? ?]].
  - intros [= <-] _. simpl.
    intros (st' & (st & -> & Hst)%list_elem_of_fmap & Hocc).
    simpl in Hocc. rewrite lookup_delete_eq in Hocc.
    destruct Hocc
      as [[? ?]|(base & anchors' & component & anchor' & Hb & Hc & Ha)];
      [done|].
    apply lookup_fmap_Some in Hb as (anchors & <- & Hb).
    apply lookup_fmap_Some in Hc as (anchor & <- & Hc).
    rewrite lookup_delete_eq in Ha. by destruct Ha.
  - intros [= <-] _. simpl.
    intros (st' & (st & -> & Hst)%list_elem_of_fmap & [v Hv]).
    by rewrite lookup_delete_eq in Hv.
  - intros (sts' & Hsts & [= <-])%bind_Ok Hnd. simpl.
    intros (st' & Hst' & Hocc). apply traverse_Ok in Hsts.
    destruct (Forall2_elem_of_r _ _ _ _ Hsts Hst') as (st & Hst & Hrm).
    revert Hocc. eapply remove_glyph_context_clear; [done|].
    intros l Hl. by eapply Hnd.
  - intros [= <-] _. simpl.
    intros (st' & (st & -> & Hst)%list_elem_of_fmap & Hocc).
    by eapply remove_glyph_chaining_clear.
Qed.

Lemma remove_glyph_gpos_lookups g obj obj' lookup' :
  remove_glyph g obj = Ok obj' → gpos_lookup obj' lookup' →
  ∃ lookup, gpos_lookup obj lookup ∧
            remove_glyph_gpos_lookup g lookup = Ok lookup'.
Proof.
  unfold remove_glyph, gpos_lookup.
  intros (gpos & Hgpos & [= <-])%bind_Ok (t' & name & Ht' & Hl).
  simpl in *. subst gpos. destruct (GPOS obj) as [t|]; [|done].
  apply bind_Ok in Hgpos as (lookups' & Hd & [= <-]). simpl in Hl.
  destruct (dict_traverse_Ok _ _ _ Hd name) as [Hname _].
  rewrite Hl in Hname. destruct (Otl.lookups t !! name) as [lookup|] eqn:Hlk;
    [|done].
  simpl in Hname. exists lookup. split; [by eauto|].
  by destruct (remove_glyph_gpos_lookup g lookup); simplify_eq.
Qed.

(** C2, as the code has it. When [remove_glyph(font, g)] returns, [g] no
    longer appears in any of the listed positions of any GSUB lookup of type
    [gsub_single], [gsub_alternate] or [gsub_ligature], nor of any GPOS
    lookup of a listed type, on a font whose alternates, coverage and class
    lists name no glyph twice; a [gsub_multiple] lookup is none of the
    types [remove_glyph] has a branch for and is left as it is. *)
Theorem remove_glyph_positions (g : glyph) (obj obj' : font) :
  remove_glyph g obj = Ok obj' →
  (∀ lookup, gsub_lookup obj lookup ∨ gpos_lookup obj lookup →
             distinct_lists (typed lookup)) →
  (∀ lookup', gsub_lookup obj' lookup' →
              (∀ sts, typed lookup' ≠ gsub_multiple sts) →
              ¬ gsub_occurs g (typed lookup')) ∧
  (∀ lookup', gpos_lookup obj' lookup' → ¬ gpos_occurs g (typed lookup')) ∧
  (∀ lookup sts, typed lookup = gsub_multiple sts →
                 gsub_lookup obj' lookup ↔ gsub_lookup obj lookup).
Proof.
  intros Hrm Hnd. split_and!.
  - intros lookup' Hl Hmult.
    apply (remove_glyph_gsub_lookups g obj obj' lookup' Hrm)
      in Hl as (lookup & Hl & ->).
    apply remove_glyph_gsub_lookup_clear; [by apply Hnd; left|].
    intros sts Hty. apply (Hmult sts).
    unfold remove_glyph_gsub_lookup. by rewrite Hty.
  - intros lookup' Hl.
    destruct (remove_glyph_gpos_lookups g obj obj' lookup' Hrm Hl)
      as (lookup & Hlk & Hrml).
    eapply remove_glyph_gpos_lookup_clear; [done|]. by apply Hnd; right.
  - intros lookup sts Hty.
    rewrite (remove_glyph_gsub_lookups g obj obj' lookup Hrm). split.
    + intros (lookup0 & Hl & ->). unfold remove_glyph_gsub_lookup in *.
      destruct (typed lookup0) eqn:Hty0; simpl in Hty; by simplify_eq.
    + intros Hl. exists lookup. split; [done|].
      unfold remove_glyph_gsub_lookup. by rewrite Hty.
Qed.

Lemma sample_positioned_distinct lookup :
  gsub_lookup Sample.positioned lookup ∨ gpos_lookup Sample.positioned lookup →
  distinct_lists (typed lookup).
Proof.
  intros [(t & name & [= <-] & Hl)|(t & name & [= <-] & Hl)];
    simpl in Hl; apply lookup_singleton_Some in Hl as [_ <-]; simpl.
  - intros st k vs ->%list_elem_of_singleton. revert k vs.
    apply (bool_decide_unpack (map_Forall (λ _ vs, NoDup vs) _)).
    vm_compute. exact I.
  - intros st l ->%list_elem_of_singleton ->%list_elem_of_singleton.
    apply (bool_decide_unpack _). vm_compute. exact I.
Qed.

Lemma remove_glyph_positions_witness :
  ∃ obj',
    remove_glyph "g" Sample.positioned = Ok obj' ∧
    (∀ lookup, gsub_lookup Sample.positioned lookup ∨
               gpos_lookup Sample.positioned lookup →
               distinct_lists (typed lookup)) ∧
    (∀ lookup', gsub_lookup obj' lookup' →
                (∀ sts, typed lookup' ≠ gsub_multiple sts) →
                ¬ gsub_occurs "g" (typed lookup')) ∧
    (∀ lookup', gpos_lookup obj' lookup' →
                ¬ gpos_occurs "g" (typed lookup')) ∧
    (∀ lookup sts, typed lookup = gsub_multiple sts →
                   gsub_lookup obj' lookup ↔
                   gsub_lookup Sample.positioned lookup).
Proof.
  eexists. split; [vm_compute; reflexivity|].
  split; [exact sample_positioned_distinct|].
  apply (remove_glyph_positions "g" Sample.positioned);
    [vm_compute; reflexivity|exact sample_positioned_distinct].
Defined.

(** C2 as the claim has it fails on [gsub_multiple]: [remove_glyph] returns
    and the lookup still has the glyph as a key. *)
Lemma remove_glyph_keeps_multiple_key :
  ∃ obj' lookup',
    remove_glyph "g" Sample.multiple = Ok obj' ∧
    gsub_lookup obj' lookup' ∧ gsub_occurs "g" (typed lookup').
Proof.
  eexists _, _. split; [vm_compute; reflexivity|]. split.
  - eexists _, "mult". split; [reflexivity|]. vm_compute. reflexivity.
  - simpl. eexists. split; [left|]. vm_compute. by eexists.
Qed.

(** ** The partitioner and the lookups built with it *)

(** C5. For every list and every [n >= 1], [grouper] yields groups whose
    concatenation in order is the list; every group has at most [n] items,
    every group but the last has exactly [n], and the last has between 1
    and [n]: no group is empty. *)
Theorem grouper_chunks {A : Type} (n : nat) (iterable : list A) :
  1 ≤ n →
  ∃ groups,
    grouper n iterable = Some groups ∧
    mjoin groups = iterable ∧
    Forall (λ g, 1 ≤ length g ≤ n) groups ∧
    ∀ groups' last, groups = groups' ++ [last] →
                    Forall (λ g, length g = n) groups'.
Proof.
  intros Hn.
  destruct (grouper_partition n iterable Hn) as (gs & Hgs & [Hc Hb Hne Hf]).
  exists gs. split_and!; [done..| |done].
  rewrite Forall_forall in Hb, Hne. apply Forall_forall. intros g Hg.
  split; [|by apply Hb]. specialize (Hne g Hg). destruct g; simpl; [done|lia].
Qed.

Lemma grouper_chunks_witness :
  1 ≤ 2 ∧
  ∃ groups,
    grouper 2 [1; 2; 3; 4; 5] = Some groups ∧
    mjoin groups = [1; 2; 3; 4; 5] ∧
    Forall (λ g, 1 ≤ length g ≤ 2) groups ∧
    ∀ groups' last, groups = groups' ++ [last] →
                    Forall (λ g, length g = 2) groups'.
Proof.
  split; [lia|]. apply (grouper_chunks 2 [1; 2; 3; 4; 5]). lia.
Defined.

(** C6. For every list, every [n >= 1] and every key function, [grouper2]
    yields its groups and none of them holds two items with different
    keys. *)
Theorem grouper2_one_key {A K : Type} `{EqDecision K} (n : nat)
    (key : A → K) (iterable : list A) :
  1 ≤ n →
  ∃ groups,
    grouper2 n key iterable = Some groups ∧
    ∀ g x y, g ∈ groups → x ∈ g → y ∈ g → key x = key y.
Proof.
  intros Hn. destruct (grouper2_total n key iterable Hn) as [gs Hgs].
  exists gs. split; [done|]. intros g x y Hg Hx Hy.
  destruct (grouper2_groups n key iterable gs g Hn Hgs Hg) as (_ & _ & k & Hk).
  by rewrite (Hk x), (Hk y).
Qed.

Lemma grouper2_one_key_witness :
  1 ≤ 3 ∧
  ∃ groups,
    grouper2 3 String.length ["AA"; "BBB"; "CCC"; "DDD"; "EE"] = Some groups ∧
    ∀ g x y, g ∈ groups → x ∈ g → y ∈ g → String.length x = String.length y.
Proof.
  split; [lia|].
  apply (grouper2_one_key 3 String.length ["AA"; "BBB"; "CCC"; "DDD"; "EE"]).
  lia.
Defined.

Lemma join_fmap_fmap {A B} (f : A → B) (ls : list (list A)) :
  mjoin (fmap f <$> ls) = f <$> mjoin ls.
Proof.
  induction ls as [|l ls IH]; [done|]. csimpl. by rewrite fmap_app, IH.
Qed.

(** In a sorted concatenation, the items of an earlier group come before
    those of a later one. *)
Lemma sorted_groups {A} (R : relation A) (groups : list (list A)) i j gi gj x y :
  StronglySorted R (mjoin groups) →
  groups !! i = Some gi → groups !! j = Some gj → i < j →
  x ∈ gi → y ∈ gj → R x y.
Proof.
  revert i j. induction groups as [|g groups IH]; intros i j Hs Hi Hj Hij Hx Hy;
    [done|].
  simpl in Hs. destruct j as [|j]; [lia|]. destruct i as [|i]; simplify_eq/=.
  - eapply StronglySorted_app_1_elem_of; [done..|].
    apply list_elem_of_join. exists gj. split; [done|].
    by eapply list_elem_of_lookup_2.
  - eapply (IH i j); [by eapply StronglySorted_app_1_r|done..|lia|done|done].
Qed.

Lemma SUBTABLE_MAX_COUNT_pos : 1 ≤ SUBTABLE_MAX_COUNT.
Proof. unfold SUBTABLE_MAX_COUNT. lia. Qed.

Lemma subtable_groups2_spec {A} (key : A → nat) (conversions : list A) :
  grouper2 SUBTABLE_MAX_COUNT key conversions =
    Some (subtable_groups2 key conversions).
Proof.
  unfold subtable_groups2.
  by destruct (grouper2_total SUBTABLE_MAX_COUNT key conversions
                 SUBTABLE_MAX_COUNT_pos) as [gs ->].
Qed.

Lemma register_lookup_Ok obj feature_name lookup_name typed_subtables t feature :
  GSUB obj = Some t → Otl.features t !! feature_name = Some feature →
  ∃ obj' t',
    register_lookup obj feature_name lookup_name typed_subtables = Ok obj' ∧
    GSUB obj' = Some t' ∧
    Otl.lookups t' !! lookup_name =
      Some {| flags := JObj []; typed := typed_subtables |} ∧
    Otl.features t' !! feature_name = Some (feature ++ [lookup_name]) ∧
    Otl.lookupOrder t' = Otl.lookupOrder t ++ [lookup_name].
Proof.
  intros Ht Hf. unfold register_lookup. rewrite Ht. simpl. rewrite Hf. simpl.
  eexists _, _. split; [done|]. simpl. split; [done|]. simpl.
  by rewrite !lookup_insert_eq.
Qed.

(** C9. For every list of word entries sorted longest source first, on a
    font that has the feature, [create_word2pseu_table] stores under
    [word2pseu] a [gsub_ligature] lookup whose rules, read subtable after
    subtable, are the entries in their order; and a rule with a longer
    source sits in an earlier subtable than any rule with a shorter one. *)
Theorem word2pseu_longest_first (obj : font) (feature_name : string)
    (conversions : list (list glyph * glyph)) (t : Otl.table)
    (feature : list string) :
  GSUB obj = Some t → Otl.features t !! feature_name = Some feature →
  StronglySorted (λ a b, length b.1 ≤ length a.1) conversions →
  ∃ obj' t' sts,
    create_word2pseu_table obj feature_name conversions = Ok obj' ∧
    GSUB obj' = Some t' ∧
    Otl.lookups t' !! "word2pseu" =
      Some {| flags := JObj []; typed := gsub_ligature sts |} ∧
    mjoin (Ligature.substitutions <$> sts) =
      (λ item, {| from := item.1; to := item.2 |}) <$> conversions ∧
    ∀ i j sti stj ri rj,
      sts !! i = Some sti → sts !! j = Some stj →
      ri ∈ Ligature.substitutions sti → rj ∈ Ligature.substitutions stj →
      length (from rj) < length (from ri) → i < j.
Proof.
  intros Ht Hf Hsorted. unfold create_word2pseu_table.
  set (key := λ conversion_item : list glyph * glyph,
                length conversion_item.1).
  pose proof (subtable_groups2_spec key conversions) as Hgs.
  set (gs := subtable_groups2 key conversions) in *.
  pose proof (grouper2_concat _ _ _ _ SUBTABLE_MAX_COUNT_pos Hgs) as Hjoin.
  destruct (register_lookup_Ok obj feature_name "word2pseu"
              (gsub_ligature (word2pseu_subtable <$> gs)) t feature Ht Hf)
    as (obj' & t' & Hreg & Ht' & Hl & _).
  exists obj', t', (word2pseu_subtable <$> gs). split_and!; [done..| |].
  - rewrite <- list_fmap_compose, <- Hjoin, <- join_fmap_fmap. done.
  - intros i j sti stj ri rj Hi Hj Hri Hrj Hlen.
    apply list_lookup_fmap_Some in Hi as (gi & -> & Hgi).
    apply list_lookup_fmap_Some in Hj as (gj & -> & Hgj).
    simpl in Hri, Hrj.
    apply list_elem_of_fmap in Hri as (xi & -> & Hxi).
    apply list_elem_of_fmap in Hrj as (xj & -> & Hxj). simpl in Hlen.
    destruct (decide (i < j)) as [|Hij]; [done|]. exfalso.
    destruct (decide (i = j)) as [->|Hne].
    + simplify_eq.
      destruct (grouper2_groups _ key conversions gs gi
                  SUBTABLE_MAX_COUNT_pos Hgs) as (_ & _ & k & Hk);
        [by eapply list_elem_of_lookup_2|].
      pose proof (Hk xi Hxi). pose proof (Hk xj Hxj). unfold key in *. lia.
    + rewrite <- Hjoin in Hsorted.
      pose proof (sorted_groups _ gs j i gj gi xj xi Hsorted Hgj Hgi) as Hle.
      simpl in Hle. specialize (Hle ltac:(lia) Hxj Hxi). lia.
Qed.

Lemma word2pseu_longest_first_witness :
  let conversions := [(["a"; "b"; "c"], "pseu0"); (["a"; "b"], "pseu1")] in
  ∃ t feature,
    GSUB Sample.featured = Some t ∧
    Otl.features t !! "liga_s2t" = Some feature ∧
    StronglySorted (λ a b : list glyph * glyph, length b.1 ≤ length a.1)
      conversions ∧
    ∃ obj' t' sts,
      create_word2pseu_table Sample.featured "liga_s2t" conversions = Ok obj' ∧
      GSUB obj' = Some t' ∧
      Otl.lookups t' !! "word2pseu" =
        Some {| flags := JObj []; typed := gsub_ligature sts |} ∧
      mjoin (Ligature.substitutions <$> sts) =
        (λ item, {| from := item.1; to := item.2 |}) <$> conversions ∧
      ∀ i j sti stj ri rj,
        sts !! i = Some sti → sts !! j = Some stj →
        ri ∈ Ligature.substitutions sti → rj ∈ Ligature.substitutions stj →
        length (from rj) < length (from ri) → i < j.
Proof.
  intros conversions.
  assert (StronglySorted (λ a b : list glyph * glyph, length b.1 ≤ length a.1)
            conversions) as Hsorted.
  { repeat constructor; simpl; lia. }
  eexists _, _. split; [reflexivity|]. split; [reflexivity|].
  split; [exact Hsorted|].
  exact (word2pseu_longest_first Sample.featured "liga_s2t" conversions _ _
           eq_refl eq_refl Hsorted).
Defined.

(** ** The glyph budget *)

(** C7. For every build input on which the pruning stages succeed, if the
    glyph count after pruning plus the number of word entries exceeds
    65535, [build_font] ends with the failed assertion on the glyph budget:
    no placeholder glyph has been inserted, nothing is handed to the
    encoder, and there is no output document. *)
Theorem build_font_capacity_exceeded
    (order_glyphs : gset glyph → list glyph)
    (order_codepoints : gset codepoint → list codepoint)
    (inp : build_input) (font : font)
    (entries_char : list (codepoint * codepoint))
    (entries_word : list (list codepoint * list codepoint)) :
  prune_font order_glyphs order_codepoints inp =
    Ok (font, entries_char, entries_word) →
  (MAX_GLYPH_COUNT <
     Z.of_nat (get_glyph_count font) + Z.of_nat (length entries_word))%Z →
  assemble_font inp font entries_char entries_word = Raise AssertionError ∧
  build_font order_glyphs order_codepoints inp = Raise AssertionError.
Proof.
  intros Hprune Hcount.
  assert (assemble_font inp font entries_char entries_word =
            Raise AssertionError) as Hassemble.
  { unfold assemble_font. rewrite decide_True; [done|lia]. }
  split; [done|]. unfold build_font. rewrite Hprune. simpl. done.
Qed.

(** A font whose glyphs are all reachable is left as it is. *)
Lemma clean_unused_glyphs_all_reachable order obj R :
  set_order order → get_reachable_glyphs obj = Ok R →
  (∀ g, g ∈ glyph_order obj → g ∈ R) →
  clean_unused_glyphs order obj = Ok obj.
Proof.
  intros Horder HR Hall. rewrite (clean_unused_glyphs_unfold order obj R HR).
  assert (list_to_set (glyph_order obj) ∖ R = (∅ : gset glyph)) as ->.
  { apply set_eq. intros x. rewrite elem_of_difference, elem_of_list_to_set.
    split; [|set_solver]. intros [? Hx]. destruct Hx. auto. }
  by rewrite set_order_empty.
Qed.

(** The pruning stages leave alone a font that has no codepoint outside
    the wanted ranges and no unreachable glyph. *)
Lemma prune_font_unchanged order_glyphs order_codepoints inp entries_word R :
  set_order order_glyphs → (∀ s, order_codepoints s ≡ₚ elements s) →
  convert_table_chars inp = [] →
  build_opencc_word_table (dom (doc_cmap (input_font inp)))
    (convert_table_words inp) = Ok entries_word →
  dom (doc_cmap (input_font inp)) ⊆
    build_codepoints_non_han ∪ codepoints_han inp →
  get_reachable_glyphs (load_font (input_font inp)) = Ok R →
  (∀ g, g ∈ doc_glyph_order (input_font inp) → g ∈ R) →
  prune_font order_glyphs order_codepoints inp =
    Ok (load_font (input_font inp), [], entries_word).
Proof.
  intros Hog Hoc Hchars Hwords Hsub HR Hall. unfold prune_font.
  cbv zeta. rewrite Hchars.
  change (build_codepoints_font (load_font (input_font inp)))
    with (dom (doc_cmap (input_font inp))).
  cbn [build_opencc_char_table for_each mbind res_bind].
  rewrite Hwords. cbn [mbind res_bind].
  assert (dom (doc_cmap (input_font inp)) ∖
            ((build_codepoints_non_han ∪ codepoints_han inp) ∩
               dom (doc_cmap (input_font inp))) = (∅ : gset codepoint)) as ->
    by set_solver.
  assert (order_codepoints ∅ = []) as ->.
  { apply Permutation_nil_r. by rewrite (Hoc ∅), elements_empty. }
  cbn [remove_codepoints for_each mbind res_bind].
  by rewrite (clean_unused_glyphs_all_reachable order_glyphs _ R).
Qed.

Lemma elem_of_range (c start stop : N) :
  c ∈ range start stop ↔ (start ≤ c < stop)%N.
Proof.
  unfold range. rewrite list_elem_of_fmap. setoid_rewrite elem_of_seq. split.
  - intros (i & -> & Hi). lia.
  - intros Hc. exists (N.to_nat (c - start)). lia.
Qed.

Lemma sample_alternates_length :
  Z.of_nat (length Sample.alternates) = 65533%Z.
Proof.
  unfold Sample.alternates, range. rewrite !length_fmap, length_seq. lia.
Qed.

Lemma sample_crowded_prune :
  prune_font elements elements Sample.crowded_input =
    Ok (load_font Sample.crowded, [], [([65%N], [65%N])]).
Proof.
  assert (reachability_types (load_font Sample.crowded)) as Hty.
  { eexists. split; [reflexivity|]. by apply map_Forall_singleton. }
  destruct (proj2 (get_reachable_glyphs_defined (load_font Sample.crowded)))
    as [R HR]; [by right|].
  pose proof (get_reachable_glyphs_Ok _ R HR) as HinR.
  apply (prune_font_unchanged elements elements Sample.crowded_input _ R).
  - exact set_order_elements.
  - by intros s.
  - reflexivity.
  - change (dom (doc_cmap (input_font Sample.crowded_input)))
      with (dom ({[65%N := "a"]} : gmap codepoint glyph)).
    change (convert_table_words Sample.crowded_input)
      with [[65; 9; 65; 10]%N].
    vm_compute. reflexivity.
  - change (dom (doc_cmap (input_font Sample.crowded_input)))
      with (dom ({[65%N := "a"]} : gmap codepoint glyph)).
    rewrite dom_singleton_L. intros c ->%elem_of_singleton.
    apply elem_of_union. left. unfold build_codepoints_non_han.
    apply elem_of_list_to_set, elem_of_app. left. apply elem_of_range. lia.
  - exact HR.
  - assert (cmap_target (load_font Sample.crowded) "a") as Ha
      by (exists 65%N; reflexivity).
    intros g Hg. apply HinR.
    change (doc_glyph_order (input_font Sample.crowded_input))
      with (".notdef" :: "a" :: Sample.alternates) in Hg.
    apply elem_of_cons in Hg as [->|Hg]; [by left|].
    apply elem_of_cons in Hg as [->|Hg]; [by right; right; left|].
    do 3 right. exists "a". split; [done|].
    eexists. split.
    + eexists _, "aalt". split; reflexivity.
    + eexists _, Sample.alternates. split; [left|]. split; [|done].
      apply lookup_singleton_eq.
Qed.

Lemma build_font_capacity_exceeded_witness :
  let font := load_font Sample.crowded in
  let entries_word := [([65%N], [65%N])] in
  prune_font elements elements Sample.crowded_input =
    Ok (font, [], entries_word) ∧
  (MAX_GLYPH_COUNT <
     Z.of_nat (get_glyph_count font) + Z.of_nat (length entries_word))%Z ∧
  assemble_font Sample.crowded_input font [] entries_word =
    Raise AssertionError ∧
  build_font elements elements Sample.crowded_input = Raise AssertionError.
Proof.
  intros font entries_word.
  assert (MAX_GLYPH_COUNT <
            Z.of_nat (get_glyph_count font) +
            Z.of_nat (length entries_word))%Z as Hcount.
  { unfold get_glyph_count, font, load_font, MAX_GLYPH_COUNT.
    cbn [glyph_order Sample.crowded doc_glyph_order length].
    pose proof sample_alternates_length. unfold entries_word.
    cbn [length]. lia. }
  split; [exact sample_crowded_prune|]. split; [exact Hcount|].
  exact (build_font_capacity_exceeded elements elements Sample.crowded_input
           font [] entries_word sample_crowded_prune Hcount).
Defined.

(** * Further properties of the code *)

(** ** Partitioner *)

(** X1. With [n = 0] the generator of [grouper] never stops, whatever the
    input, the empty one included: the inner loop takes nothing, so
    [StopIteration] is never raised. *)
Theorem grouper_zero_never_stops {A : Type} (fuel : nat) (iterable : list A) :
  grouper_loop fuel 0 iterable = None.
Proof.
  induction fuel as [|fuel IH]; [done|]. simpl. by rewrite IH.
Qed.

(** X2. For [n >= 1], [grouper2] yields groups whose concatenation in order
    is the input, each with between 1 and [n] items. *)
Theorem grouper2_chunks {A K : Type} `{EqDecision K} (n : nat)
    (key : A → K) (iterable : list A) :
  1 ≤ n →
  ∃ groups,
    grouper2 n key iterable = Some groups ∧
    mjoin groups = iterable ∧
    Forall (λ g, 1 ≤ length g ≤ n) groups.
Proof.
  intros Hn. destruct (grouper2_total n key iterable Hn) as [gs Hgs].
  exists gs. split_and!; [done|by eapply grouper2_concat|].
  apply Forall_forall. intros g Hg.
  destruct (grouper2_groups n key iterable gs g Hn Hgs Hg) as (Hne & Hle & _).
  split; [|done]. destruct g; simpl; [done|lia].
Qed.

Lemma grouper2_chunks_witness :
  1 ≤ 2 ∧
  ∃ groups,
    grouper2 2 String.length ["AA"; "BBB"; "CCC"; "DDD"; "EE"] = Some groups ∧
    mjoin groups = ["AA"; "BBB"; "CCC"; "DDD"; "EE"] ∧
    Forall (λ g, 1 ≤ length g ≤ 2) groups.
Proof.
  split; [lia|].
  apply (grouper2_chunks 2 String.length ["AA"; "BBB"; "CCC"; "DDD"; "EE"]).
  lia.
Defined.

(** ** Reverse index *)

Lemma build_cmap_rev_items_nonempty (items : list (codepoint * glyph)) g l :
  build_cmap_rev_items items !! g = Some l → l ≠ [].
Proof.
  unfold build_cmap_rev_items. revert g l.
  induction items as [|[c0 g0] items IH] using rev_ind; intros g l.
  - simpl. by rewrite lookup_empty.
  - rewrite foldl_app. simpl. rewrite lookup_insert_Some.
    intros [[_ <-]|[_ Hl]]; [|by eapply IH].
    by destruct (cmap_rev_get _ g0).
Qed.

(** X3. In whatever order [build_cmap_rev] walks [cmap], the index it builds
    lists [c] under [g] exactly when [cmap] maps [c] to [g], lists no
    codepoint twice, and has an entry exactly for the glyphs that [cmap]
    targets. *)
Theorem build_cmap_rev_exact (cmap : gmap codepoint glyph)
    (items : list (codepoint * glyph)) :
  items ≡ₚ map_to_list cmap →
  let cmap_rev := build_cmap_rev_items items in
  (∀ c g, c ∈ cmap_rev_get cmap_rev g ↔ cmap !! c = Some g) ∧
  (∀ g, NoDup (cmap_rev_get cmap_rev g)) ∧
  (∀ g, is_Some (cmap_rev !! g) ↔ ∃ c, cmap !! c = Some g).
Proof.
  intros Hperm. cbv zeta.
  assert (NoDup items.*1) as Hnd.
  { rewrite Hperm. apply NoDup_fst_map_to_list. }
  assert (∀ c g, c ∈ cmap_rev_get (build_cmap_rev_items items) g ↔
                 cmap !! c = Some g) as Hin.
  { intros c g.
    destruct (build_cmap_rev_items_spec items Hnd g) as [_ ->].
    by rewrite Hperm, elem_of_map_to_list. }
  split_and!; [done|intros g; by apply build_cmap_rev_items_spec|].
  intros g. split.
  - intros [l Hl]. pose proof (build_cmap_rev_items_nonempty items g l Hl).
    destruct l as [|c l]; [done|]. exists c. apply Hin.
    unfold cmap_rev_get. rewrite Hl. left.
  - intros [c Hc%Hin]. unfold cmap_rev_get in Hc.
    destruct (build_cmap_rev_items items !! g); [done|].
    by apply elem_of_nil in Hc.
Qed.

Lemma build_cmap_rev_exact_witness :
  let cmap : gmap codepoint glyph := {[ 65%N := "a"; 66%N := "a" ]} in
  let items := [(66%N, "a"); (65%N, "a")] in
  items ≡ₚ map_to_list cmap ∧
  let cmap_rev := build_cmap_rev_items items in
  (∀ c g, c ∈ cmap_rev_get cmap_rev g ↔ cmap !! c = Some g) ∧
  (∀ g, NoDup (cmap_rev_get cmap_rev g)) ∧
  (∀ g, is_Some (cmap_rev !! g) ↔ ∃ c, cmap !! c = Some g).
Proof.
  intros cmap items.
  assert (items ≡ₚ map_to_list cmap) as Hperm.
  { unfold items, cmap. rewrite map_to_list_insert by done.
    rewrite map_to_list_singleton. apply Permutation_swap. }
  split; [exact Hperm|]. exact (build_cmap_rev_exact cmap items Hperm).
Defined.

(** X4. On an index that is not consistent, disassociating raises: a
    codepoint that [cmap] does not have is a [KeyError], and a codepoint
    that the reverse entry of the glyph does not list is a [ValueError]. *)
Theorem disassociate_inconsistent (obj : font) (c : codepoint) (g : glyph) :
  (cmap obj !! c = None →
   disassociate_codepoint_and_glyph_name obj c g = Raise KeyError) ∧
  (is_Some (cmap obj !! c) → c ∉ cmap_rev_get (cmap_rev obj) g →
   disassociate_codepoint_and_glyph_name obj c g = Raise ValueError).
Proof.
  unfold disassociate_codepoint_and_glyph_name, dict_del. split.
  - by intros ->.
  - intros [g' ->] Hc. simpl. rewrite bool_decide_eq_false_2.
    + unfold list_remove. by rewrite decide_False.
    + intros Heq. apply Hc. rewrite Heq. left.
Qed.

Lemma disassociate_inconsistent_witness :
  let obj := set_cmap_rev ∅ Sample.chain in
  (cmap obj !! 67%N = None →
   disassociate_codepoint_and_glyph_name obj 67 "a" = Raise KeyError) ∧
  (is_Some (cmap obj !! 65%N) → 65%N ∉ cmap_rev_get (cmap_rev obj) "a" →
   disassociate_codepoint_and_glyph_name obj 65 "a" = Raise ValueError) ∧
  cmap obj !! 67%N = None ∧ is_Some (cmap obj !! 65%N) ∧
  (65%N ∉ cmap_rev_get (cmap_rev obj) "a").
Proof.
  intros obj.
  split; [exact (proj1 (disassociate_inconsistent obj 67 "a"))|].
  split; [exact (proj2 (disassociate_inconsistent obj 65 "a"))|].
  split; [reflexivity|]. split; [by eexists|]. by intros ?%elem_of_nil.
Defined.

Lemma for_each_dict_del `{Countable K} {V} (l : list K) (m : gmap K V) :
  NoDup l → (∀ k, k ∈ l → is_Some (m !! k)) →
  for_each l (λ k m, dict_del k m) m = Ok (filter (λ kv, kv.1 ∉ l) m).
Proof.
  revert m. induction l as [|k l IH]; intros m Hnd Hl; simpl.
  - f_equal. symmetry. apply map_filter_id. intros ? ? _. apply not_elem_of_nil.
  - apply NoDup_cons in Hnd as [Hk Hnd].
    assert (dict_del k m = Ok (delete k m)) as ->.
    { unfold dict_del. by destruct (Hl k) as [v ->]; [left|]. }
    simpl. rewrite IH; [|done|].
    + f_equal. apply map_eq. intros k'. apply option_eq. intros v'.
      rewrite !map_lookup_filter_Some, lookup_delete_Some. simpl.
      rewrite not_elem_of_cons. naive_solver.
    + intros k' Hk'. rewrite lookup_delete_ne by (by intros ->).
      apply Hl. by right.
Qed.

Lemma for_each_dict_del_Ok `{Countable K} {V} (l : list K) (m m' : gmap K V) :
  for_each l (λ k m, dict_del k m) m = Ok m' → ∀ k, k ∈ l → is_Some (m !! k).
Proof.
  revert m. induction l as [|k l IH]; intros m; simpl.
  - intros _ k ?%elem_of_nil. done.
  - intros (m1 & Hdel & Hrest)%bind_Ok k' Hk'. unfold dict_del in Hdel.
    destruct (m !! k) as [v|] eqn:Hk; [|done]. injection Hdel as <-.
    apply elem_of_cons in Hk' as [->|Hk']; [by eexists|].
    destruct (IH _ Hrest k' Hk') as [v' Hv'].
    apply lookup_delete_Some in Hv' as [_ ?]. by eexists.
Qed.

(** X5. On a consistent reverse index,
    [remove_associated_codepoints_of_glyph] returns, deletes from [cmap]
    exactly the codepoints mapped to the glyph and from [cmap_rev] the entry
    of the glyph, touches no other table and keeps the index consistent. *)
Theorem remove_associated_codepoints_spec (obj : font) (g : glyph) :
  rev_inv obj → rev_nodup obj →
  ∃ obj',
    remove_associated_codepoints_of_glyph obj g = Ok obj' ∧
    cmap obj' = filter (λ kv, kv.2 ≠ g) (cmap obj) ∧
    cmap_rev obj' = delete g (cmap_rev obj) ∧
    same_tables obj' obj ∧ rev_inv obj' ∧ rev_nodup obj'.
Proof.
  intros Hinv Hnd. unfold remove_associated_codepoints_of_glyph.
  rewrite for_each_dict_del; [|apply Hnd|].
  2: { intros c Hc%Hinv. by eexists. }
  simpl. eexists. split; [done|].
  assert (filter (λ kv : codepoint * glyph,
                    kv.1 ∉ cmap_rev_get (cmap_rev obj) g) (cmap obj)
          = filter (λ kv, kv.2 ≠ g) (cmap obj)) as Hfilter.
  { apply map_filter_ext. intros c g' Hc. simpl. rewrite <- (Hinv c g).
    rewrite Hc. naive_solver. }
  simpl. rewrite Hfilter. split_and!; try done.
  - unfold rev_inv. simpl. intros c g'.
    rewrite map_lookup_filter_Some, cmap_rev_get_delete. simpl.
    case_decide as Hg; [subst g'|].
    + rewrite elem_of_nil. naive_solver.
    + rewrite (Hinv c g'). naive_solver.
  - unfold rev_nodup. simpl. intros g'. rewrite cmap_rev_get_delete.
    case_decide; [constructor|apply Hnd].
Qed.

Lemma remove_associated_codepoints_spec_witness :
  rev_inv Sample.chain ∧ rev_nodup Sample.chain ∧
  ∃ obj',
    remove_associated_codepoints_of_glyph Sample.chain "a" = Ok obj' ∧
    cmap obj' = filter (λ kv, kv.2 ≠ "a") (cmap Sample.chain) ∧
    cmap_rev obj' = delete "a" (cmap_rev Sample.chain) ∧
    same_tables obj' Sample.chain ∧ rev_inv obj' ∧ rev_nodup obj'.
Proof.
  split; [exact (proj1 sample_chain_rev)|].
  split; [exact (proj2 sample_chain_rev)|].
  exact (remove_associated_codepoints_spec Sample.chain "a"
           (proj1 sample_chain_rev) (proj2 sample_chain_rev)).
Defined.

(** X6. When the reverse entry of the glyph lists a codepoint that [cmap]
    does not have, [remove_associated_codepoints_of_glyph] raises
    [KeyError]. *)
Theorem remove_associated_codepoints_missing (obj : font) (g : glyph)
    (c : codepoint) :
  c ∈ cmap_rev_get (cmap_rev obj) g → cmap obj !! c = None →
  remove_associated_codepoints_of_glyph obj g = Raise KeyError.
Proof.
  intros Hc Hnone. unfold remove_associated_codepoints_of_glyph.
  destruct (for_each _ _ (cmap obj)) as [cmap'|e] eqn:Hloop; simpl.
  - destruct (for_each_dict_del_Ok _ _ _ Hloop c Hc) as [? ?]. congruence.
  - apply for_each_Raise in Hloop as (c' & m & _ & Hdel).
    unfold dict_del in Hdel. destruct (m !! c'); by simplify_eq.
Qed.

Lemma remove_associated_codepoints_missing_witness :
  let obj := set_cmap ∅ Sample.chain in
  65%N ∈ cmap_rev_get (cmap_rev obj) "a" ∧ cmap obj !! 65%N = None ∧
  remove_associated_codepoints_of_glyph obj "a" = Raise KeyError.
Proof.
  intros obj.
  assert (65%N ∈ cmap_rev_get (cmap_rev obj) "a") as H1
    by (vm_compute; right; left).
  split; [exact H1|]. split; [reflexivity|].
  exact (remove_associated_codepoints_missing obj "a" 65 H1 eq_refl).
Defined.

(** ** Removing codepoints and glyphs *)

Lemma remove_codepoint_cmap obj c obj' :
  rev_inv obj → rev_nodup obj → cmap obj !! c ≠ Some "" →
  remove_codepoint obj c = Ok obj' → cmap obj' = delete c (cmap obj).
Proof.
  intros Hinv Hnd Hname. unfold remove_codepoint.
  destruct (cmap obj !! c) as [g|] eqn:Hc.
  - rewrite decide_False by congruence.
    destruct (disassociate_spec obj c g Hinv Hnd Hc)
      as (obj1 & -> & Hcmap & _). simpl.
    case_bool_decide.
    + intros [Hc' _]%remove_glyph_cmap. congruence.
    + intros [= <-]. done.
  - intros [= <-]. by rewrite delete_id.
Qed.

(** X7. On a consistent reverse index and with no codepoint of the list
    mapped to the empty name, a [remove_codepoints] that returns has removed
    from [cmap] exactly the listed codepoints, in whatever order they were
    listed. *)
Theorem remove_codepoints_cmap (obj obj' : font) (codepoints : list codepoint) :
  rev_inv obj → rev_nodup obj →
  (∀ c, c ∈ codepoints → cmap obj !! c ≠ Some "") →
  remove_codepoints obj codepoints = Ok obj' →
  cmap obj' = filter (λ kv, kv.1 ∉ codepoints) (cmap obj).
Proof.
  unfold remove_codepoints. revert obj.
  induction codepoints as [|c cs IH]; intros obj Hinv Hnd Hname; simpl.
  - intros [= <-]. symmetry. apply map_filter_id.
    intros ? ? _. apply not_elem_of_nil.
  - intros (obj1 & Hc & Hrest)%bind_Ok.
    pose proof (remove_codepoint_rev obj c Hinv Hnd) as Hrev.
    rewrite Hc in Hrev. destruct Hrev as [Hinv1 Hnd1].
    apply remove_codepoint_cmap in Hc; [|done..|apply Hname; left].
    assert (∀ c', c' ∈ cs → cmap obj1 !! c' ≠ Some "") as Hname1.
    { intros c' Hc'. rewrite Hc. intros [_ ?]%lookup_delete_Some.
      by eapply Hname; [right|]. }
    rewrite (IH obj1 Hinv1 Hnd1 Hname1 Hrest), Hc.
    apply map_eq. intros k. apply option_eq. intros v.
    rewrite !map_lookup_filter_Some, lookup_delete_Some. simpl.
    rewrite not_elem_of_cons. naive_solver.
Qed.

Lemma remove_codepoints_cmap_witness :
  ∃ obj',
    rev_inv Sample.chain ∧ rev_nodup Sample.chain ∧
    (∀ c, c ∈ [66; 65]%N → cmap Sample.chain !! c ≠ Some "") ∧
    remove_codepoints Sample.chain [66; 65]%N = Ok obj' ∧
    cmap obj' = filter (λ kv, kv.1 ∉ [66; 65]%N) (cmap Sample.chain).
Proof.
  assert (∀ c, c ∈ [66; 65]%N → cmap Sample.chain !! c ≠ Some "") as Hname.
  { intros c Hc. apply elem_of_cons in Hc as [->|Hc]; [done|].
    apply list_elem_of_singleton in Hc as ->. done. }
  eexists. split; [exact (proj1 sample_chain_rev)|].
  split; [exact (proj2 sample_chain_rev)|]. split; [exact Hname|].
  assert (∀ obj', remove_codepoints Sample.chain [66; 65]%N = Ok obj' →
                  remove_codepoints Sample.chain [66; 65]%N = Ok obj' ∧
                  cmap obj' =
                    filter (λ kv, kv.1 ∉ [66; 65]%N) (cmap Sample.chain))
    as Hthm.
  { intros obj' Hrm. split; [done|].
    exact (remove_codepoints_cmap Sample.chain obj' [66; 65]%N
             (proj1 sample_chain_rev) (proj2 sample_chain_rev) Hname Hrm). }
  apply Hthm. vm_compute. reflexivity.
Defined.

Lemma filter_ne_not_elem {A} `{EqDecision A} (x : A) (l : list A) :
  x ∉ l → filter (λ y, y ≠ x) l = l.
Proof.
  induction l as [|y l IH]; [done|]. intros [? ?]%not_elem_of_cons.
  rewrite filter_cons_True by done. f_equal. auto.
Qed.

Lemma remove_first_filter {A} `{EqDecision A} (x : A) (l : list A) :
  NoDup l → remove_first x l = filter (λ y, y ≠ x) l.
Proof.
  induction 1 as [|y l Hy Hl IH]; simpl; [done|].
  case_decide as Hxy.
  - subst y. rewrite filter_cons_False by naive_solver.
    by rewrite filter_ne_not_elem.
  - rewrite filter_cons_True by done. by rewrite IH.
Qed.

(** X8. When [remove_glyph] returns, the glyph is gone from [glyf] and its
    first occurrence from [glyph_order]: nothing changes there if the glyph
    is absent, and with distinct names the glyph is gone and the others
    keep their order. The character map, its reverse index, [name] and
    [head] are not touched. *)
Theorem remove_glyph_glyph_tables (g : glyph) (obj obj' : font) :
  remove_glyph g obj = Ok obj' →
  glyf obj' = delete g (glyf obj) ∧
  glyph_order obj' = remove_first g (glyph_order obj) ∧
  (g ∉ glyph_order obj → glyph_order obj' = glyph_order obj) ∧
  (NoDup (glyph_order obj) →
   glyph_order obj' = filter (λ x, x ≠ g) (glyph_order obj)) ∧
  cmap obj' = cmap obj ∧ cmap_rev obj' = cmap_rev obj ∧
  name obj' = name obj ∧ head obj' = head obj.
Proof.
  unfold remove_glyph. intros (gpos & _ & [= <-])%bind_Ok. simpl.
  split_and!; try done.
  - apply remove_first_not_elem.
  - apply remove_first_filter.
Qed.

Lemma remove_glyph_glyph_tables_witness :
  ∃ obj',
    remove_glyph "b" Sample.chain = Ok obj' ∧
    glyf obj' = delete "b" (glyf Sample.chain) ∧
    glyph_order obj' = remove_first "b" (glyph_order Sample.chain) ∧
    ("b" ∉ glyph_order Sample.chain →
     glyph_order obj' = glyph_order Sample.chain) ∧
    (NoDup (glyph_order Sample.chain) →
     glyph_order obj' = filter (λ x, x ≠ "b") (glyph_order Sample.chain)) ∧
    cmap obj' = cmap Sample.chain ∧ cmap_rev obj' = cmap_rev Sample.chain ∧
    name obj' = name Sample.chain ∧ head obj' = head Sample.chain.
Proof.
  assert (∃ obj', remove_glyph "b" Sample.chain = Ok obj') as [obj' Hrm]
    by (eexists; vm_compute; reflexivity).
  exists obj'. split; [exact Hrm|].
  exact (remove_glyph_glyph_tables "b" Sample.chain obj' Hrm).
Defined.

Lemma index_of_lt {A} `{EqDecision A} (x : A) (l : list A) :
  x ∈ l → index_of x l < length l.
Proof.
  induction l as [|y l IH]; simpl; [by intros ?%elem_of_nil|].
  intros Hx. case_decide; [lia|].
  apply elem_of_cons in Hx as [?|?]; [done|]. specialize (IH ltac:(done)). lia.
Qed.

Lemma traverse_total {A B} (f : A → res B) (l : list A) :
  (∀ x, x ∈ l → ∃ y, f x = Ok y) → ∃ l', traverse f l = Ok l'.
Proof.
  intros Hf. destruct (traverse f l) as [l'|e] eqn:Ht; [by eexists|].
  apply traverse_Raise in Ht as (x & Hx & Hfx).
  destruct (Hf x Hx) as [y ?]. congruence.
Qed.




(** X10. When a coverage-shaped [gpos_context] subtable of the font holds
    the glyph at an index that its position list does not reach,
    [remove_glyph] raises [IndexError]. *)
Theorem remove_glyph_short_pos (g : glyph) (obj : font)
    (lookup : lookup_record) (sts : list Context.subtable)
    (st : Context.subtable) (coverage : list glyph) (pos : list json) :
  gpos_lookup obj lookup → typed lookup = gpos_context sts → st ∈ sts →
  Context.rules st = None → Context.coverage st = Some coverage →
  Context.pos st = Some pos → g ∈ coverage →
  length pos ≤ index_of g coverage →
  remove_glyph g obj = Raise IndexError.
Proof.
  intros (t & name & Ht & Hl) Hty Hst Hrules Hcov Hpos Hg Hlen.
  assert (remove_glyph_context g st = Raise IndexError) as Hctx.
  { pose proof (index_of_lt g coverage Hg) as Hlt.
    unfold remove_glyph_context. rewrite Hrules, Hcov, Hpos.
    rewrite decide_True by done. unfold list_pop.
    rewrite (decide_True _ _ Hlt). simpl.
    rewrite decide_False by lia. done. }
  destruct (remove_glyph g obj) as [obj'|e] eqn:Hrm.
  - exfalso. unfold remove_glyph in Hrm.
    apply bind_Ok in Hrm as (gpos & Hgpos & _). simpl in Hgpos.
    rewrite Ht in Hgpos. apply bind_Ok in Hgpos as (lookups' & Hd & _).
    destruct (dict_traverse_Ok _ _ _ Hd name) as [Hname Hsome].
    destruct (Hsome lookup Hl) as [lookup' Hl'].
    rewrite Hl', Hl in Hname. simpl in Hname.
    unfold remove_glyph_gpos_lookup in Hname. rewrite Hty in Hname.
    destruct (traverse (remove_glyph_context g) sts) as [sts'|e] eqn:Htr;
      simpl in Hname; [|done].
    apply traverse_Ok in Htr. apply list_elem_of_lookup in Hst as [i Hi].
    destruct (Forall2_lookup_l _ _ _ _ _ Htr Hi) as (st' & _ & Hst').
    congruence.
  - f_equal. by eapply remove_glyph_Raise.
Qed.

Lemma remove_glyph_short_pos_witness :
  let st := {| Context.rules := None; Context.coverage := Some ["a"; "g"];
               Context.pos := Some [JNum 1]; Context.classes := None |} in
  let lookup := {| flags := JObj []; typed := gpos_context [st] |} in
  let obj := set_GPOS (Some (Sample.table_of "ctx" (typed lookup)))
               Sample.chain in
  gpos_lookup obj lookup ∧ "g" ∈ ["a"; "g"] ∧
  length [JNum 1] ≤ index_of "g" ["a"; "g"] ∧
  remove_glyph "g" obj = Raise IndexError.
Proof.
  intros st lookup obj.
  assert (gpos_lookup obj lookup) as Hl.
  { eexists _, "ctx". split; [reflexivity|]. apply lookup_singleton_eq. }
  assert ("g" ∈ ["a"; "g"]) as Hg by (right; left).
  assert (length [JNum 1] ≤ index_of "g" ["a"; "g"]) as Hlen
    by (vm_compute; lia).
  split; [exact Hl|]. split; [exact Hg|]. split; [exact Hlen|].
  exact (remove_glyph_short_pos "g" obj lookup [st] st ["a"; "g"] [JNum 1]
           Hl eq_refl ltac:(left) eq_refl eq_refl eq_refl Hg Hlen).
Defined.

(** What [remove_glyph] leaves of the ligature rules. *)
Lemma remove_glyph_ligature_rules g obj obj' item :
  remove_glyph g obj = Ok obj' →
  ligature_rule obj' item ↔
  ligature_rule obj item ∧ (g ∉ from item) ∧ g ≠ to item.
Proof.
  intros Hrm. split.
  - intros (lookup' & sts' & st' & Hl & Hty & Hst & Hi).
    apply (remove_glyph_gsub_lookups g obj obj' lookup' Hrm)
      in Hl as (lookup & Hl & ->).
    unfold remove_glyph_gsub_lookup in Hty.
    destruct (typed lookup) as [sts|sts|sts| | | | | | | | | |] eqn:Hty';
      simpl in Hty; rewrite ?Hty' in Hty; simplify_eq/=.
    apply list_elem_of_fmap in Hst as (st & -> & Hst). simpl in Hi.
    apply list_elem_of_filter in Hi as [[? ?] Hi].
    split_and!; [|done..]. by exists lookup, sts, st.
  - intros [(lookup & sts & st & Hl & Hty & Hst & Hi) [Hfrom Hto]].
    exists (remove_glyph_gsub_lookup g lookup),
           (remove_glyph_ligature g <$> sts), (remove_glyph_ligature g st).
    split_and!.
    + apply (remove_glyph_gsub_lookups g obj obj' _ Hrm). eauto.
    + unfold remove_glyph_gsub_lookup. by rewrite Hty.
    + apply list_elem_of_fmap. eauto.
    + simpl. by apply list_elem_of_filter.
Qed.

(** X11. Cascade. On a consistent reverse index, removing a codepoint that
    is the only one of its glyph drops every ligature rule that has the
    glyph among its inputs or as its output, and keeps every other rule;
    removing a codepoint whose glyph has another codepoint keeps all the
    rules. *)
Theorem remove_codepoint_cascade (obj obj' : font) (c : codepoint) (g : glyph) :
  rev_inv obj → rev_nodup obj →
  cmap obj !! c = Some g → g ≠ "" →
  remove_codepoint obj c = Ok obj' →
  (only_codepoint obj c g →
   ∀ item, ligature_rule obj' item ↔
           ligature_rule obj item ∧ (g ∉ from item) ∧ g ≠ to item) ∧
  (¬ only_codepoint obj c g →
   ∀ item, ligature_rule obj' item ↔ ligature_rule obj item).
Proof.
  intros Hinv Hnd Hc Hg. unfold remove_codepoint. rewrite Hc.
  rewrite decide_False by done.
  destruct (disassociate_spec obj c g Hinv Hnd Hc)
    as (obj1 & -> & _ & _ & (_ & _ & Hgsub & _) & _). simpl.
  assert (∀ item, ligature_rule obj1 item ↔ ligature_rule obj item) as Hsame.
  { intros item. unfold ligature_rule, gsub_lookup. by rewrite Hgsub. }
  intros Hrm. split.
  - intros Honly%only_codepoint_singleton; [|done..].
    rewrite bool_decide_eq_true_2 in Hrm by done. intros item.
    by rewrite (remove_glyph_ligature_rules g obj1 obj' item Hrm), Hsame.
  - intros Honly. rewrite bool_decide_eq_false_2 in Hrm.
    + by injection Hrm as <-.
    + by rewrite only_codepoint_singleton.
Qed.

Lemma remove_codepoint_cascade_witness :
  ∃ obj',
    rev_inv Sample.liga ∧ rev_nodup Sample.liga ∧
    cmap Sample.liga !! 65%N = Some "a" ∧ "a" ≠ "" ∧
    remove_codepoint Sample.liga 65 = Ok obj' ∧
    (only_codepoint Sample.liga 65 "a" →
     ∀ item, ligature_rule obj' item ↔
             ligature_rule Sample.liga item ∧ ("a" ∉ from item) ∧
             "a" ≠ to item) ∧
    (¬ only_codepoint Sample.liga 65 "a" →
     ∀ item, ligature_rule obj' item ↔ ligature_rule Sample.liga item).
Proof.
  destruct (build_cmap_rev_items_inv Sample.liga
              (map_to_list (cmap Sample.liga))) as [Hinv Hnd];
    [reflexivity..|].
  assert (∃ obj', remove_codepoint Sample.liga 65 = Ok obj') as [obj' Hrm]
    by (eexists; vm_compute; reflexivity).
  exists obj'. split; [exact Hinv|]. split; [exact Hnd|].
  split; [reflexivity|]. split; [done|]. split; [exact Hrm|].
  exact (remove_codepoint_cascade Sample.liga obj' 65 "a" Hinv Hnd eq_refl
           ltac:(done) Hrm).
Defined.

(** ** Reachability and pruning *)

Lemma lookup_targets_Raise g lookup e :
  lookup_targets g lookup = Raise e → e = NotImplementedError.
Proof.
  unfold lookup_targets. destruct (typed lookup); by intros [= <-].
Qed.

(** X12. The edges of [get_reachable_glyphs]. With an empty [cmap] it looks
    at nothing else and returns [.notdef] and [.null]. With a [cmap] that is
    not empty, a font without [GSUB] is a [KeyError], and a [GSUB] with a
    lookup of any type other than [gsub_single], [gsub_alternate] and
    [gsub_ligature] is the [NotImplementedError]. *)
Theorem get_reachable_glyphs_edges (obj : font) :
  (cmap obj = ∅ → get_reachable_glyphs obj = Ok {[".notdef"; ".null"]}) ∧
  (cmap obj ≠ ∅ → GSUB obj = None →
   get_reachable_glyphs obj = Raise KeyError) ∧
  (cmap obj ≠ ∅ → is_Some (GSUB obj) → ¬ reachability_types obj →
   get_reachable_glyphs obj = Raise NotImplementedError).
Proof.
  split_and!.
  - intros Hempty. unfold get_reachable_glyphs.
    by rewrite Hempty, map_to_list_empty.
  - intros Hne Hgsub. unfold get_reachable_glyphs.
    destruct (map_to_list (cmap obj)) as [|[c g] items] eqn:Hitems.
    + by apply map_to_list_empty_iff in Hitems.
    + simpl. by rewrite Hgsub.
  - intros Hne [t Ht] Hty.
    destruct (get_reachable_glyphs obj) as [R|e] eqn:HR.
    + destruct (proj1 (get_reachable_glyphs_defined obj)); [by eexists|done..].
    + f_equal. unfold get_reachable_glyphs in HR.
      apply for_each_Raise in HR as (g & R & _ & Hbody).
      rewrite Ht in Hbody. simpl in Hbody.
      apply for_each_Raise in Hbody as (lookup & R' & _ & Hl).
      apply bind_Raise in Hl as [Hl|(? & _ & ?)]; [|done].
      by eapply lookup_targets_Raise.
Qed.

Lemma get_reachable_glyphs_edges_witness :
  cmap Sample.multiple ≠ ∅ ∧ is_Some (GSUB Sample.multiple) ∧
  ¬ reachability_types Sample.multiple ∧
  get_reachable_glyphs Sample.multiple = Raise NotImplementedError ∧
  cmap (set_cmap ∅ Sample.multiple) = ∅ ∧
  get_reachable_glyphs (set_cmap ∅ Sample.multiple) =
    Ok {[".notdef"; ".null"]}.
Proof.
  assert (cmap Sample.multiple ≠ ∅) as Hne.
  { intros Heq. apply (f_equal (λ m, m !! 65%N)) in Heq. done. }
  assert (is_Some (GSUB Sample.multiple)) as Hgsub by (by eexists).
  assert (¬ reachability_types Sample.multiple) as Hty.
  { intros (t & [= <-] & Hall).
    by apply (Hall "mult" _ (lookup_singleton_eq _ _)). }
  split; [exact Hne|]. split; [exact Hgsub|]. split; [exact Hty|].
  split.
  - exact (proj2 (proj2 (get_reachable_glyphs_edges Sample.multiple))
             Hne Hgsub Hty).
  - split; [reflexivity|].
    exact (proj1 (get_reachable_glyphs_edges (set_cmap ∅ Sample.multiple))
             eq_refl).
Defined.

Lemma list_filter_ext_in {A} (P Q : A → Prop) `{∀ x, Decision (P x)}
    `{∀ x, Decision (Q x)} (l : list A) :
  (∀ x, x ∈ l → P x ↔ Q x) → filter P l = filter Q l.
Proof.
  induction l as [|x l IH]; intros HPQ; [done|].
  assert (filter P l = filter Q l) as Hl.
  { apply IH. intros y Hy. apply HPQ. by right. }
  destruct (decide (P x)) as [HP|HP].
  - rewrite !filter_cons_True; [by f_equal|by apply HPQ; [left|]|done].
  - rewrite !filter_cons_False; [done| |done].
    intros HQ. apply HP, HPQ; [left|done].
Qed.

Lemma foldl_remove_first_filter (glyphs order : list glyph) :
  NoDup order →
  foldl (λ order g, remove_first g order) order glyphs =
    filter (λ x, x ∉ glyphs) order.
Proof.
  revert order. induction glyphs as [|g glyphs IH]; intros order Hnd; simpl.
  - symmetry. induction order as [|x order IHo]; [done|].
    rewrite filter_cons_True by apply not_elem_of_nil.
    f_equal. apply IHo. by apply NoDup_cons in Hnd as [_ ?].
  - rewrite IH by by apply NoDup_remove_first.
    rewrite remove_first_filter by done. rewrite list_filter_filter.
    apply list_filter_iff. intros x. rewrite not_elem_of_cons. naive_solver.
Qed.

(** X13. On a font with a consistent reverse index and distinct names in
    [glyph_order], a [clean_unused_glyphs] that returns has kept in
    [glyph_order] exactly the reachable glyphs, in their order, whatever the
    order of the sweep. *)
Theorem clean_unused_glyphs_glyph_order (order : gset glyph → list glyph)
    (obj obj' : font) (R : gset glyph) :
  set_order order → rev_inv obj → NoDup (glyph_order obj) →
  get_reachable_glyphs obj = Ok R →
  clean_unused_glyphs order obj = Ok obj' →
  glyph_order obj' = filter (λ g, g ∈ R) (glyph_order obj).
Proof.
  intros Horder Hinv Hnd HR.
  rewrite (clean_unused_glyphs_unfold order obj R HR).
  set (unused := order (list_to_set (glyph_order obj) ∖ R)).
  intros Hsweep.
  assert (∀ g, g ∈ unused ↔ g ∈ glyph_order obj ∧ g ∉ R) as Hunused.
  { intros g. unfold unused. rewrite (set_order_elem order) by done.
    set_solver. }
  destruct (sweep_cmap unused obj obj' Hinv) as [_ ->]; [|done|].
  { intros g [_ Hg]%Hunused ?.
    apply Hg, (get_reachable_glyphs_Ok obj R HR). eauto. }
  rewrite foldl_remove_first_filter by done.
  apply list_filter_ext_in. intros x Hx. rewrite Hunused.
  destruct (decide (x ∈ R)); naive_solver.
Qed.

Lemma clean_unused_glyphs_glyph_order_witness :
  ∃ obj' R,
    set_order elements ∧ rev_inv Sample.liga ∧
    NoDup (glyph_order Sample.liga) ∧
    get_reachable_glyphs Sample.liga = Ok R ∧
    clean_unused_glyphs elements Sample.liga = Ok obj' ∧
    glyph_order obj' = filter (λ g, g ∈ R) (glyph_order Sample.liga).
Proof.
  destruct (build_cmap_rev_items_inv Sample.liga
              (map_to_list (cmap Sample.liga))) as [Hinv _];
    [reflexivity..|].
  assert (NoDup (glyph_order Sample.liga)) as Hnd
    by (apply (bool_decide_unpack _); vm_compute; exact I).
  assert (∃ R, get_reachable_glyphs Sample.liga = Ok R) as [R HR]
    by (eexists; vm_compute; reflexivity).
  assert (∃ obj', clean_unused_glyphs elements Sample.liga = Ok obj')
    as [obj' Hclean] by (eexists; vm_compute; reflexivity).
  exists obj', R. split; [exact set_order_elements|]. split; [exact Hinv|].
  split; [exact Hnd|]. split; [exact HR|]. split; [exact Hclean|].
  exact (clean_unused_glyphs_glyph_order elements Sample.liga obj' R
           set_order_elements Hinv Hnd HR Hclean).
Defined.

(** ** Conversion tables *)

Lemma split_tab_cases (s : list N) :
  ((9%N ∉ s) ∧ split_tab s = [s]) ∨
  (∃ k rest, s = k ++ 9%N :: rest ∧ (9%N ∉ k) ∧
             split_tab s = k :: split_tab rest).
Proof.
  induction s as [|c s IH]; simpl.
  - left. split; [apply not_elem_of_nil|done].
  - case_decide as Hc.
    + subst c. right. exists [], s. split_and!; [done|apply not_elem_of_nil|done].
    + destruct IH as [[Hs ->]|(k & rest & -> & Hk & ->)].
      * left. split; [|done]. apply not_elem_of_cons. split; [done|done].
      * right. exists (c :: k), rest. split_and!; [done| |done].
        apply not_elem_of_cons. split; [done|done].
Qed.

Lemma split_tab_not_nil (s : list N) : split_tab s ≠ [].
Proof. by destruct (split_tab_cases s) as [[_ ->]|(k & rest & _ & _ & ->)]. Qed.

Lemma split_tab_two (s k v : list N) :
  split_tab s = [k; v] ↔ s = k ++ 9%N :: v ∧ (9%N ∉ k) ∧ 9%N ∉ v.
Proof.
  split.
  - destruct (split_tab_cases s) as [[_ ->]|(k0 & rest & -> & Hk0 & ->)];
      [done|].
    intros [= -> Hrest].
    destruct (split_tab_cases rest) as [[Hv Hr]|(k1 & r2 & _ & _ & Hr)];
      rewrite Hr in Hrest.
    + by injection Hrest as ->.
    + injection Hrest as _ Hnil. by apply split_tab_not_nil in Hnil.
  - intros (-> & Hk & Hv).
    destruct (split_tab_cases (k ++ 9%N :: v))
      as [[Hno _]|(k0 & rest & Heq & Hk0 & ->)].
    + destruct Hno. apply elem_of_app. right. left.
    + assert (k0 = k ∧ rest = v) as [-> ->].
      { clear -Heq Hk Hk0. revert k0 Heq Hk0.
        induction k as [|c k IH]; intros [|c0 k0] Heq Hk0; simplify_eq/=.
        - done.
        - destruct Hk0. left.
        - destruct Hk. left.
        - apply not_elem_of_cons in Hk as [_ Hk].
          apply not_elem_of_cons in Hk0 as [_ Hk0].
          by destruct (IH Hk k0) as [-> ->]. }
      by destruct (split_tab_cases v) as [[_ ->]|(k1 & r2 & -> & _ & _)];
        [|destruct Hv; apply elem_of_app; right; left].
Qed.

Lemma parse_line_Raise (line : list N) e :
  parse_line line = Raise e → e = ValueError.
Proof.
  unfold parse_line.
  destruct (split_tab (rstrip_newline line)) as [|k0 [|v0 [|? ?]]];
    naive_solver.
Qed.

(** X14. [parse_line] returns the pair [(k, v)] exactly when the line,
    without its trailing newlines, is [k], one tab, [v], with no tab in [k]
    or in [v]; any other line is a [ValueError]. *)
Theorem parse_line_exact (line k v : list N) :
  (parse_line line = Ok (k, v) ↔
   rstrip_newline line = k ++ 9%N :: v ∧ (9%N ∉ k) ∧ 9%N ∉ v) ∧
  (∀ e, parse_line line = Raise e → e = ValueError).
Proof.
  unfold parse_line. split.
  - rewrite <- split_tab_two.
    destruct (split_tab (rstrip_newline line)) as [|k0 [|v0 [|? ?]]];
      naive_solver.
  - intros e. apply parse_line_Raise.
Qed.

Lemma lstrip_newline_id (s : list N) :
  match s with c :: _ => c ≠ 10%N | [] => True end → lstrip_newline s = s.
Proof.
  destruct s as [|c s]; simpl; [done|]. intros Hc. by rewrite decide_False.
Qed.

(** X15. Round trip of a table line: for [k] and [v] without tab, and [v]
    without newline, the line made of [k], a tab, [v] and a newline parses
    to the pair [(k, v)]. *)
Theorem parse_line_round_trip (k v : list N) :
  9%N ∉ k → 9%N ∉ v → 10%N ∉ v →
  parse_line (k ++ [9%N] ++ v ++ [10%N]) = Ok (k, v).
Proof.
  intros Hk Hv Hnl. unfold parse_line.
  assert (rstrip_newline (k ++ [9%N] ++ v ++ [10%N]) = k ++ 9%N :: v) as ->.
  { unfold rstrip_newline.
    replace (k ++ [9%N] ++ v ++ [10%N]) with ((k ++ 9%N :: v) ++ [10%N])
      by by rewrite <- !app_assoc.
    rewrite reverse_snoc. simpl.
    rewrite lstrip_newline_id; [by rewrite reverse_involutive|].
    rewrite reverse_app, reverse_cons.
    destruct v as [|c0 v _] using rev_ind.
    - rewrite reverse_nil. simpl. done.
    - rewrite reverse_snoc. simpl.
      intros ->. apply Hnl, elem_of_app. right. left. }
  by rewrite (proj2 (split_tab_two _ k v)).
Qed.

Lemma parse_line_round_trip_witness :
  (9%N ∉ [22823%N]) ∧ (9%N ∉ [23567; 22269]%N) ∧
  (10%N ∉ [23567; 22269]%N) ∧
  parse_line ([22823] ++ [9] ++ [23567; 22269] ++ [10])%N =
    Ok ([22823], [23567; 22269])%N.
Proof.
  assert (9%N ∉ [22823%N]) as H1 by (apply (bool_decide_unpack _); exact I).
  assert (9%N ∉ [23567; 22269]%N) as H2
    by (apply (bool_decide_unpack _); exact I).
  assert (10%N ∉ [23567; 22269]%N) as H3
    by (apply (bool_decide_unpack _); exact I).
  split; [exact H1|]. split; [exact H2|]. split; [exact H3|].
  exact (parse_line_round_trip [22823%N] [23567; 22269]%N H1 H2 H3).
Defined.

(** The test of [build_opencc_word_table] on a pair. *)
Lemma word_table_loop cf lines pairs entries :
  traverse parse_line lines = Ok pairs →
  for_each lines
    (λ line entries,
       '(codepoints_k, codepoints_v) ← parse_line line;
       if decide (Forall (λ c, c ∈ cf) codepoints_k ∧
                  Forall (λ c, c ∈ cf) codepoints_v)
       then Ok (entries ++ [(codepoints_k, codepoints_v)])
       else Ok entries) entries =
  Ok (entries ++
      filter (λ p : list codepoint * list codepoint,
                Forall (λ c, c ∈ (cf : gset codepoint)) p.1 ∧
                Forall (λ c, c ∈ cf) p.2) pairs).
Proof.
  match goal with |- context [for_each _ ?b _] => set (body := b) end.
  revert pairs entries. induction lines as [|line lines IH];
    intros pairs entries; simpl.
  - intros [= <-]. by rewrite app_nil_r.
  - intros ([k v] & Hline & (rest & Hrest & [= <-])%bind_Ok)%bind_Ok.
    destruct (decide (Forall (λ c, c ∈ cf) k ∧ Forall (λ c, c ∈ cf) v))
      as [Hcov|Hcov].
    + assert (body line entries = Ok (entries ++ [(k, v)])) as ->.
      { unfold body. rewrite Hline. simpl. by rewrite decide_True. }
      simpl. rewrite (IH rest _ Hrest), filter_cons_True by done.
      by rewrite <- app_assoc.
    + assert (body line entries = Ok entries) as ->.
      { unfold body. rewrite Hline. simpl. by rewrite decide_False. }
      simpl. by rewrite (IH rest _ Hrest), filter_cons_False.
Qed.

(** X16. When every line of the word table parses, [build_opencc_word_table]
    returns the parsed pairs whose codepoints, on both sides, are all in the
    font, in the order of the lines; a line that does not parse makes it
    raise [ValueError]. *)
Theorem build_opencc_word_table_filter (cf : gset codepoint)
    (lines : list (list N)) :
  (∀ pairs, traverse parse_line lines = Ok pairs →
            build_opencc_word_table cf lines =
              Ok (filter (λ p, Forall (λ c, c ∈ cf) p.1 ∧
                               Forall (λ c, c ∈ cf) p.2) pairs)) ∧
  (∀ e, build_opencc_word_table cf lines = Raise e → e = ValueError).
Proof.
  split.
  - intros pairs Hpairs. unfold build_opencc_word_table.
    by rewrite (word_table_loop cf lines pairs []).
  - intros e (line & entries & _ & Hbody)%for_each_Raise.
    apply bind_Raise in Hbody as [Hline|([k v] & _ & Hbody)].
    + by apply (parse_line_Raise line).
    + simpl in Hbody. by case_decide.
Qed.

Lemma char_table_loop cf lines acc entries :
  for_each lines
    (λ line entries,
       '(k, v) ← parse_line line;
       codepoint_k ← ord k;
       codepoint_v ← ord v;
       if decide (codepoint_k ∈ (cf : gset codepoint) ∧ codepoint_v ∈ cf)
       then Ok (entries ++ [(codepoint_k, codepoint_v)])
       else Ok entries) acc = Ok entries →
  ∀ k v, (k, v) ∈ entries ↔
         (k, v) ∈ acc ∨
         (k ∈ cf ∧ v ∈ cf ∧
          ∃ line, line ∈ lines ∧ parse_line line = Ok ([k], [v])).
Proof.
  revert acc. induction lines as [|line lines IH]; intros acc; simpl.
  - intros [= <-] k v. split; [by left|].
    intros [?|(_ & _ & line & ?%elem_of_nil & _)]; done.
  - intros (acc1 & Hbody & Hrest)%bind_Ok k v.
    rewrite (IH acc1 Hrest k v). clear IH Hrest.
    apply bind_Ok in Hbody as ([k0 v0] & Hline & Hbody). simpl in Hbody.
    apply bind_Ok in Hbody as (a & Ha & Hbody).
    apply bind_Ok in Hbody as (b & Hb & Hbody).
    destruct k0 as [|a0 [|? ?]]; simplify_eq/=.
    destruct v0 as [|b0 [|? ?]]; simplify_eq/=.
    setoid_rewrite elem_of_cons. case_decide as Hcov; simplify_eq.
    + rewrite elem_of_app, list_elem_of_singleton. split.
      * intros [[?|[= -> ->]]|(? & ? & line' & ? & ?)]; [by left|right..].
        -- split_and!; [tauto..|]. exists line. by split; [left|].
        -- split_and!; [done..|]. exists line'. by split; [right|].
      * intros [?|(? & ? & line' & [->|?] & Hl)]; [by left; left| |].
        -- left. right. congruence.
        -- right. split_and!; [done..|]. by exists line'.
    + split.
      * intros [?|(? & ? & line' & ? & ?)]; [by left|right].
        split_and!; [done..|]. exists line'. by split; [right|].
      * intros [?|(? & ? & line' & [->|?] & Hl)]; [by left| |].
        -- destruct Hcov. split; congruence.
        -- right. split_and!; [done..|]. by exists line'.
Qed.

(** X17. When [build_opencc_char_table] returns, its entries are exactly the
    pairs [(k, v)] for which some line is the character [k], a tab and the
    character [v], with both codepoints in the font. *)
Theorem build_opencc_char_table_entries (cf : gset codepoint)
    (lines : list (list N)) (entries : list (codepoint * codepoint)) :
  build_opencc_char_table cf lines = Ok entries →
  ∀ k v, (k, v) ∈ entries ↔
         k ∈ cf ∧ v ∈ cf ∧
         ∃ line, line ∈ lines ∧ parse_line line = Ok ([k], [v]).
Proof.
  intros Hloop k v. rewrite (char_table_loop cf lines [] entries Hloop k v).
  rewrite elem_of_nil. naive_solver.
Qed.

Lemma build_opencc_char_table_entries_witness :
  let cf : gset codepoint := {[22823; 23567]}%N in
  let lines := [[22823; 9; 23567; 10]; [22269; 9; 22823; 10]]%N in
  build_opencc_char_table cf lines = Ok [(22823, 23567)]%N ∧
  ∀ k v, (k, v) ∈ [(22823, 23567)]%N ↔
         k ∈ cf ∧ v ∈ cf ∧
         ∃ line, line ∈ lines ∧ parse_line line = Ok ([k], [v]).
Proof.
  intros cf lines.
  assert (build_opencc_char_table cf lines = Ok [(22823, 23567)]%N) as Hrun
    by (vm_compute; reflexivity).
  split; [exact Hrun|].
  exact (build_opencc_char_table_entries cf lines _ Hrun).
Defined.

Lemma parse_line_exact_witness :
  parse_line [22823; 9; 23567; 22269; 10]%N = Ok ([22823], [23567; 22269])%N ∧
  ∀ e, parse_line [22823; 10]%N = Raise e → e = ValueError.
Proof.
  split.
  - apply (proj1 (parse_line_exact _ _ _)). split; [reflexivity|].
    split; apply (bool_decide_unpack _); vm_compute; exact I.
  - exact (proj2 (parse_line_exact [22823; 10]%N [] [])).
Defined.

Lemma build_opencc_word_table_filter_witness :
  build_opencc_word_table {[ 22823%N; 23567%N ]}
    [[22823; 9; 23567; 10]%N; [22269; 9; 22823; 10]%N] =
    Ok [([22823], [23567])%N].
Proof.
  etransitivity;
    [apply (proj1 (build_opencc_word_table_filter _ _)
              [([22823], [23567])%N; ([22269], [22823])%N]);
     vm_compute; reflexivity|].
  vm_compute. reflexivity.
Defined.

(** ** Assembling the lookups *)

Lemma codepoint_to_glyph_name_Raise font c e :
  codepoint_to_glyph_name font c = Raise e →
  e = KeyError ∧ cmap font !! c = None.
Proof.
  unfold codepoint_to_glyph_name. destruct (cmap font !! c); simpl; [done|].
  by intros [= <-].
Qed.

Lemma glyph_names_Raise font cs e :
  traverse (codepoint_to_glyph_name font) cs = Raise e →
  e = KeyError ∧ ∃ c, c ∈ cs ∧ cmap font !! c = None.
Proof.
  intros (c & Hc & [-> Hnone]%codepoint_to_glyph_name_Raise)%traverse_Raise.
  eauto.
Qed.

Lemma glyph_names_Ok font cs gs :
  traverse (codepoint_to_glyph_name font) cs = Ok gs →
  ∀ c, c ∈ cs → is_Some (cmap font !! c).
Proof.
  intros Htr%traverse_Ok c [i Hi]%list_elem_of_lookup.
  destruct (Forall2_lookup_l _ _ _ _ _ Htr Hi) as (g & _ & Hg).
  unfold codepoint_to_glyph_name in Hg. destruct (cmap font !! c); by eauto.
Qed.

Lemma glyph_names_total font cs :
  (∀ c, c ∈ cs → is_Some (cmap font !! c)) →
  ∃ gs, traverse (codepoint_to_glyph_name font) cs = Ok gs.
Proof.
  intros Hcs. apply traverse_total. intros c [g Hg]%Hcs.
  exists g. unfold codepoint_to_glyph_name. by rewrite Hg.
Qed.

(** The name of the placeholder glyph of the word entry of index [i]. *)
Lemma add_word_entry_Ok i ks vs font w2p p2w st :
  add_word_entry (i, (ks, vs)) (font, w2p, p2w) = Ok st →
  ∃ gk gv,
    traverse (codepoint_to_glyph_name font) ks = Ok gk ∧
    traverse (codepoint_to_glyph_name font) vs = Ok gv ∧
    st = (insert_empty_glyph font ("pseu" +:+ format_X (N.of_nat i)),
          w2p ++ [(gk, "pseu" +:+ format_X (N.of_nat i))],
          p2w ++ [("pseu" +:+ format_X (N.of_nat i), gv)]).
Proof.
  unfold add_word_entry.
  intros (gk & Hgk & (gv & Hgv & [= <-])%bind_Ok)%bind_Ok. by exists gk, gv.
Qed.

Lemma add_word_entry_Raise i ks vs font w2p p2w e :
  add_word_entry (i, (ks, vs)) (font, w2p, p2w) = Raise e → e = KeyError.
Proof.
  unfold add_word_entry.
  intros [[? _]%glyph_names_Raise|
          (gk & _ & [[? _]%glyph_names_Raise|(? & _ & ?)]%bind_Raise)]%bind_Raise;
    done.
Qed.

(** The loop over the word entries appends one placeholder per entry and
    touches nothing but [glyph_order] and [glyf]. *)
Lemma word_loop_Ok (l : list (nat * (list codepoint * list codepoint)))
    font w2p p2w font' w2p' p2w' :
  for_each l add_word_entry (font, w2p, p2w) = Ok (font', w2p', p2w') →
  glyph_order font' =
    glyph_order font ++ ((λ e, "pseu" +:+ format_X (N.of_nat e.1)) <$> l) ∧
  cmap font' = cmap font ∧ cmap_rev font' = cmap_rev font ∧
  GSUB font' = GSUB font ∧ GPOS font' = GPOS font ∧ BASE font' = BASE font ∧
  name font' = name font ∧ head font' = head font ∧
  (∀ e c, e ∈ l → c ∈ e.2.1 ++ e.2.2 → is_Some (cmap font !! c)).
Proof.
  revert font w2p p2w. induction l as [|[i [ks vs]] l IH];
    intros font w2p p2w; simpl.
  - intros [= <- <- <-]. rewrite app_nil_r. split_and!; try done.
    by intros e c ?%elem_of_nil.
  - intros ([[font1 w1] p1] & Hstep & Hrest)%bind_Ok.
    apply add_word_entry_Ok in Hstep as (gk & gv & Hgk & Hgv & [= -> -> ->]).
    destruct (IH _ _ _ Hrest) as (-> & -> & -> & -> & -> & -> & -> & -> & Hl).
    simpl. rewrite <- app_assoc. split_and!; try done.
    intros e c [->|He]%elem_of_cons Hc; [|by eapply Hl]. simpl in Hc.
    apply elem_of_app in Hc as [Hc|Hc];
      [exact (glyph_names_Ok _ _ _ Hgk c Hc)|exact (glyph_names_Ok _ _ _ Hgv c Hc)].
Qed.

Lemma word_loop_Raise (l : list (nat * (list codepoint * list codepoint)))
    st e :
  for_each l add_word_entry st = Raise e → e = KeyError.
Proof.
  intros ([i [ks vs]] & [[font w2p] p2w] & _ & Hstep)%for_each_Raise.
  by eapply add_word_entry_Raise.
Qed.

Lemma word_loop_total (l : list (nat * (list codepoint * list codepoint)))
    font w2p p2w :
  (∀ e c, e ∈ l → c ∈ e.2.1 ++ e.2.2 → is_Some (cmap font !! c)) →
  ∃ st, for_each l add_word_entry (font, w2p, p2w) = Ok st.
Proof.
  revert font w2p p2w. induction l as [|[i [ks vs]] l IH];
    intros font w2p p2w Hl; simpl; [by eexists|].
  destruct (glyph_names_total font ks) as [gk Hgk].
  { intros c Hc. apply (Hl (i, (ks, vs))); [left|]. simpl.
    apply elem_of_app. by left. }
  destruct (glyph_names_total font vs) as [gv Hgv].
  { intros c Hc. apply (Hl (i, (ks, vs))); [left|]. simpl.
    apply elem_of_app. by right. }
  unfold add_word_entry at 1. rewrite Hgk. simpl. rewrite Hgv. simpl.
  apply IH. intros e c He Hc. simpl. apply (Hl e c); [by right|done].
Qed.

Lemma add_char_entry_Raise font entry e :
  add_char_entry font entry = Raise e → e = KeyError.
Proof.
  unfold add_char_entry.
  intros [[? _]%codepoint_to_glyph_name_Raise|
          (? & _ & [[? _]%codepoint_to_glyph_name_Raise|(? & _ & ?)]%bind_Raise)
         ]%bind_Raise; done.
Qed.

Lemma add_char_entry_Ok font entry names :
  add_char_entry font entry = Ok names →
  is_Some (cmap font !! entry.1) ∧ is_Some (cmap font !! entry.2).
Proof.
  unfold add_char_entry, codepoint_to_glyph_name.
  destruct (cmap font !! entry.1); simpl; [|done].
  destruct (cmap font !! entry.2); simpl; [|done]. by eauto.
Qed.

Lemma add_char_entry_total font entry :
  is_Some (cmap font !! entry.1) → is_Some (cmap font !! entry.2) →
  ∃ names, add_char_entry font entry = Ok names.
Proof.
  unfold add_char_entry, codepoint_to_glyph_name.
  intros [g1 ->] [g2 ->]. by eexists.
Qed.

Lemma imap_pair_elem {A} (l : list A) (e : nat * A) :
  e ∈ imap pair l → e.2 ∈ l.
Proof.
  intros (i & x & -> & Hx)%elem_of_lookup_imap_1.
  by eapply list_elem_of_lookup_2.
Qed.

Lemma elem_imap_pair {A} (l : list A) (x : A) :
  x ∈ l → ∃ i, (i, x) ∈ imap pair l.
Proof.
  intros [i Hi]%list_elem_of_lookup. exists i.
  by apply elem_of_lookup_imap_2.
Qed.

Lemma insert_empty_feature_Ok obj feature_name obj' :
  insert_empty_feature obj feature_name = Ok obj' →
  ∃ t, GSUB obj = Some t ∧
       GSUB obj' =
         Some {| Otl.languages :=
                   (λ table : Language.t,
                      {| Language.features :=
                           Language.features table ++ [feature_name];
                         Language.rest := Language.rest table |})
                     <$> Otl.languages t;
                 Otl.features := <[feature_name := []]> (Otl.features t);
                 Otl.lookups := Otl.lookups t;
                 Otl.lookupOrder := Otl.lookupOrder t |} ∧
       glyph_order obj' = glyph_order obj ∧ cmap obj' = cmap obj.
Proof.
  unfold insert_empty_feature. destruct (GSUB obj) as [t|]; simpl; [|done].
  intros [= <-]. by exists t.
Qed.

Lemma register_lookup_inv obj feature_name lookup_name typed_subtables obj' :
  register_lookup obj feature_name lookup_name typed_subtables = Ok obj' →
  ∃ t feature,
    GSUB obj = Some t ∧ Otl.features t !! feature_name = Some feature ∧
    GSUB obj' =
      Some {| Otl.languages := Otl.languages t;
              Otl.features :=
                <[feature_name := feature ++ [lookup_name]]> (Otl.features t);
              Otl.lookups :=
                <[lookup_name :=
                    {| flags := JObj []; typed := typed_subtables |}]>
                  (Otl.lookups t);
              Otl.lookupOrder := Otl.lookupOrder t ++ [lookup_name] |} ∧
    glyph_order obj' = glyph_order obj ∧ cmap obj' = cmap obj.
Proof.
  unfold register_lookup. destruct (GSUB obj) as [t|]; simpl; [|done].
  destruct (Otl.features t !! feature_name) as [feature|] eqn:Hf; simpl;
    [|done].
  intros [= <-]. by exists t, feature.
Qed.

(** What the successful run of [assemble_font] went through. *)
Lemma assemble_font_Ok inp font entries_char entries_word doc :
  assemble_font inp font entries_char entries_word = Ok doc →
  (Z.of_nat (get_glyph_count font) + Z.of_nat (length entries_word)
   ≤ MAX_GLYPH_COUNT)%Z ∧
  ∃ font1 w2p p2w c2c font2 font3 font4 font5,
    for_each (imap pair entries_word) add_word_entry (font, [], []) =
      Ok (font1, w2p, p2w) ∧
    traverse (add_char_entry font1) entries_char = Ok c2c ∧
    insert_empty_feature font1 "liga_s2t" = Ok font2 ∧
    create_word2pseu_table font2 "liga_s2t" w2p = Ok font3 ∧
    create_char2char_table font3 "liga_s2t" c2c = Ok font4 ∧
    create_pseu2word_table font4 "liga_s2t" p2w = Ok font5 ∧
    doc = save_font (modify_metadata font5 (name_header inp)
                       (font_version inp) (today inp)).
Proof.
  unfold assemble_font. case_decide as Hbudget; [done|].
  intros ([[font1 w2p] p2w] & Hloop & Hrest)%bind_Ok. simpl in Hrest.
  apply bind_Ok in Hrest as (c2c & Hc2c & Hrest).
  apply bind_Ok in Hrest as (font2 & H2 & Hrest).
  apply bind_Ok in Hrest as (font3 & H3 & Hrest).
  apply bind_Ok in Hrest as (font4 & H4 & Hrest).
  apply bind_Ok in Hrest as (font5 & H5 & [= <-]).
  split; [lia|]. by exists font1, w2p, p2w, c2c, font2, font3, font4, font5.
Qed.

(** Enough for [assemble_font] to return. *)
Lemma assemble_font_total inp font entries_char entries_word :
  (Z.of_nat (get_glyph_count font) + Z.of_nat (length entries_word)
   ≤ MAX_GLYPH_COUNT)%Z →
  is_Some (GSUB font) →
  (∀ e c, e ∈ entries_word → c ∈ e.1 ++ e.2 → is_Some (cmap font !! c)) →
  (∀ e, e ∈ entries_char →
        is_Some (cmap font !! e.1) ∧ is_Some (cmap font !! e.2)) →
  ∃ doc, assemble_font inp font entries_char entries_word = Ok doc.
Proof.
  intros Hbudget [t0 Ht0] Hwords Hchars.
  unfold assemble_font. rewrite decide_False by lia.
  destruct (word_loop_total (imap pair entries_word) font [] [])
    as [[[font1 w2p] p2w] Hloop].
  { intros e c He%imap_pair_elem Hc. by apply (Hwords e.2 c). }
  rewrite Hloop. simpl.
  apply word_loop_Ok in Hloop as (_ & Hcmap & _ & Hgsub & _).
  destruct (traverse_total (add_char_entry font1) entries_char) as [c2c ->].
  { intros e He. apply add_char_entry_total; rewrite Hcmap; by apply Hchars. }
  simpl. unfold insert_empty_feature. rewrite Hgsub, Ht0. simpl.
  unfold create_word2pseu_table, create_char2char_table,
    create_pseu2word_table, register_lookup. simpl.
  rewrite lookup_insert_eq. simpl. rewrite lookup_insert_eq. simpl.
  rewrite lookup_insert_eq. simpl. by eexists.
Qed.

(** The sample font [chain] takes the entries built from [A] and [B]. *)
Lemma sample_chain_assembles entries_char entries_word :
  Forall (λ e, Forall (λ c, c = 65%N ∨ c = 66%N) (e.1 ++ e.2)) entries_word →
  Forall (λ e, (e.1 = 65%N ∨ e.1 = 66%N) ∧ (e.2 = 65%N ∨ e.2 = 66%N))
    entries_char →
  (length entries_word ≤ 1000)%nat →
  ∃ doc, assemble_font Sample.crowded_input Sample.chain
           entries_char entries_word = Ok doc.
Proof.
  intros Hwords Hchars Hlen.
  assert (∀ c, c = 65%N ∨ c = 66%N → is_Some (cmap Sample.chain !! c)) as Hc.
  { intros c [-> | ->]; by eexists. }
  apply assemble_font_total.
  - change (get_glyph_count Sample.chain) with 4%nat.
    unfold MAX_GLYPH_COUNT. lia.
  - by eexists.
  - intros e c He Hin. apply Hc.
    rewrite Forall_forall in Hwords. specialize (Hwords e He).
    rewrite Forall_forall in Hwords. by apply Hwords.
  - intros e He. rewrite Forall_forall in Hchars.
    destruct (Hchars e He). split; by apply Hc.
Qed.

Lemma assemble_font_order inp font entries_char entries_word doc :
  assemble_font inp font entries_char entries_word = Ok doc →
  doc_glyph_order doc =
    glyph_order font ++
    imap (λ i _, "pseu" +:+ format_X (N.of_nat i)) entries_word ∧
  doc_cmap doc = cmap font.
Proof.
  intros (_ & font1 & w2p & p2w & c2c & font2 & font3 & font4 & font5 &
          Hloop & _ & H2 & H3 & H4 & H5 & ->)%assemble_font_Ok.
  apply word_loop_Ok in Hloop as (Horder & Hcmap & _).
  apply insert_empty_feature_Ok in H2 as (? & _ & _ & Ho2 & Hc2).
  apply register_lookup_inv in H3 as (? & ? & _ & _ & _ & Ho3 & Hc3).
  apply register_lookup_inv in H4 as (? & ? & _ & _ & _ & Ho4 & Hc4).
  apply register_lookup_inv in H5 as (? & ? & _ & _ & _ & Ho5 & Hc5).
  simpl. split; [|congruence].
  rewrite Ho5, Ho4, Ho3, Ho2, Horder. f_equal.
  rewrite fmap_imap. by apply imap_ext.
Qed.

(** X18. When [assemble_font] returns, the glyph order of the document is
    the one of the pruned font followed by one placeholder per word entry,
    named [pseu] and the index in upper-case hexadecimal; it has at most
    65535 names, and [cmap] is the one of the pruned font. *)
Theorem assemble_font_glyph_order (inp : build_input) (font : font)
    (entries_char : list (codepoint * codepoint))
    (entries_word : list (list codepoint * list codepoint)) (doc : document) :
  assemble_font inp font entries_char entries_word = Ok doc →
  doc_glyph_order doc =
    glyph_order font ++
    imap (λ i _, "pseu" +:+ format_X (N.of_nat i)) entries_word ∧
  (Z.of_nat (length (doc_glyph_order doc)) ≤ MAX_GLYPH_COUNT)%Z ∧
  doc_cmap doc = cmap font.
Proof.
  intros Hdoc. destruct (assemble_font_order _ _ _ _ _ Hdoc) as [Horder Hcmap].
  apply assemble_font_Ok in Hdoc as [Hbudget _].
  split_and!; [done| |done].
  rewrite Horder, length_app, length_imap. unfold get_glyph_count in Hbudget.
  lia.
Qed.

Lemma assemble_font_glyph_order_witness :
  ∃ doc,
    assemble_font Sample.crowded_input Sample.chain [(65, 66)%N]
      [([65; 66], [66])%N; ([66], [65; 65])%N] = Ok doc ∧
    doc_glyph_order doc = [".notdef"; "a"; "b"; "c"; "pseu0"; "pseu1"].
Proof.
  assert (∃ doc,
            assemble_font Sample.crowded_input Sample.chain [(65, 66)%N]
              [([65; 66], [66])%N; ([66], [65; 65])%N] = Ok doc)
    as [doc Hdoc]
    by (apply sample_chain_assembles; [repeat constructor..|simpl; lia]).
  exists doc. split; [exact Hdoc|].
  destruct (assemble_font_glyph_order _ _ _ _ _ Hdoc) as (-> & _).
  vm_compute. reflexivity.
Defined.

(** The three lookups and their registration. *)
Lemma assemble_font_tables inp font entries_char entries_word doc :
  assemble_font inp font entries_char entries_word = Ok doc →
  ∃ t0 w2p c2c p2w,
    GSUB font = Some t0 ∧
    doc_GSUB doc =
      Some {| Otl.languages :=
                (λ table : Language.t,
                   {| Language.features :=
                        Language.features table ++ ["liga_s2t"];
                      Language.rest := Language.rest table |})
                  <$> Otl.languages t0;
              Otl.features :=
                <["liga_s2t" := ["word2pseu"; "char2char"; "pseu2word"]]>
                  (Otl.features t0);
              Otl.lookups :=
                <["pseu2word" :=
                    {| flags := JObj []; typed := gsub_multiple p2w |}]>
                  (<["char2char" :=
                       {| flags := JObj []; typed := gsub_single c2c |}]>
                     (<["word2pseu" :=
                          {| flags := JObj []; typed := gsub_ligature w2p |}]>
                        (Otl.lookups t0)));
              Otl.lookupOrder :=
                Otl.lookupOrder t0 ++ ["word2pseu"; "char2char"; "pseu2word"]
           |}.
Proof.
  intros (_ & font1 & w2p & p2w & c2c & font2 & font3 & font4 & font5 &
          Hloop & _ & H2 & H3 & H4 & H5 & ->)%assemble_font_Ok.
  apply word_loop_Ok in Hloop as (_ & _ & _ & Hgsub & _).
  apply insert_empty_feature_Ok in H2 as (t0 & Ht0 & Hg2 & _).
  unfold create_word2pseu_table in H3. unfold create_char2char_table in H4.
  unfold create_pseu2word_table in H5.
  apply register_lookup_inv in H3 as (t2 & f2 & Ht2 & Hf2 & Hg3 & _).
  rewrite Hg2 in Ht2. injection Ht2 as <-. simpl in Hf2, Hg3.
  rewrite lookup_insert_eq in Hf2. injection Hf2 as <-.
  apply register_lookup_inv in H4 as (t3 & f3 & Ht3 & Hf3 & Hg4 & _).
  rewrite Hg3 in Ht3. injection Ht3 as <-. simpl in Hf3, Hg4.
  rewrite lookup_insert_eq in Hf3. injection Hf3 as <-.
  apply register_lookup_inv in H5 as (t4 & f4 & Ht4 & Hf4 & Hg5 & _).
  rewrite Hg4 in Ht4. injection Ht4 as <-. simpl in Hf4, Hg5.
  rewrite lookup_insert_eq in Hf4. injection Hf4 as <-.
  eexists t0, _, _, _. split; [congruence|]. simpl. rewrite Hg5.
  rewrite !insert_insert_eq, <- !app_assoc. done.
Qed.

(** X19. When [assemble_font] returns, the GSUB table of the document is
    the one of the pruned font with: the feature [liga_s2t] appended to every
    language; that feature set to the three lookups [word2pseu],
    [char2char], [pseu2word], in this order, whatever it held before; the
    three lookups stored under these names, of types [gsub_ligature],
    [gsub_single] and [gsub_multiple], replacing lookups of the same names;
    and the three names appended, in this order, to [lookupOrder].  Every
    other feature and lookup is kept. *)
Theorem assemble_font_registers (inp : build_input) (font : font)
    (entries_char : list (codepoint * codepoint))
    (entries_word : list (list codepoint * list codepoint)) (doc : document) :
  assemble_font inp font entries_char entries_word = Ok doc →
  ∃ t0 t w2p c2c p2w,
    GSUB font = Some t0 ∧ doc_GSUB doc = Some t ∧
    Otl.languages t =
      (λ table : Language.t,
         {| Language.features := Language.features table ++ ["liga_s2t"];
            Language.rest := Language.rest table |}) <$> Otl.languages t0 ∧
    Otl.features t !! "liga_s2t" =
      Some ["word2pseu"; "char2char"; "pseu2word"] ∧
    (∀ f, f ≠ "liga_s2t" → Otl.features t !! f = Otl.features t0 !! f) ∧
    Otl.lookups t !! "word2pseu" =
      Some {| flags := JObj []; typed := gsub_ligature w2p |} ∧
    Otl.lookups t !! "char2char" =
      Some {| flags := JObj []; typed := gsub_single c2c |} ∧
    Otl.lookups t !! "pseu2word" =
      Some {| flags := JObj []; typed := gsub_multiple p2w |} ∧
    (∀ l, l ∉ ["word2pseu"; "char2char"; "pseu2word"] →
          Otl.lookups t !! l = Otl.lookups t0 !! l) ∧
    Otl.lookupOrder t =
      Otl.lookupOrder t0 ++ ["word2pseu"; "char2char"; "pseu2word"].
Proof.
  intros (t0 & w2p & c2c & p2w & Ht0 & Hdoc)%assemble_font_tables.
  eexists t0, _, w2p, c2c, p2w. split; [done|]. split; [exact Hdoc|]. simpl.
  split_and!; try done.
  - by rewrite lookup_insert_eq.
  - intros f Hf. by rewrite lookup_insert_ne.
  - do 2 (rewrite lookup_insert_ne by done). by rewrite lookup_insert_eq.
  - rewrite lookup_insert_ne by done. by rewrite lookup_insert_eq.
  - by rewrite lookup_insert_eq.
  - intros l Hl. rewrite !not_elem_of_cons in Hl.
    destruct Hl as (? & ? & ? & _). by rewrite !lookup_insert_ne.
Qed.

Lemma assemble_font_registers_witness :
  ∃ doc t,
    assemble_font Sample.crowded_input Sample.chain [(65, 66)%N]
      [([65; 66], [66])%N] = Ok doc ∧
    doc_GSUB doc = Some t ∧
    Otl.lookupOrder t = ["sub"; "word2pseu"; "char2char"; "pseu2word"].
Proof.
  assert (∃ doc,
            assemble_font Sample.crowded_input Sample.chain [(65, 66)%N]
              [([65; 66], [66])%N] = Ok doc)
    as [doc Hdoc]
    by (apply sample_chain_assembles; [repeat constructor..|simpl; lia]).
  destruct (assemble_font_registers _ _ _ _ _ Hdoc)
    as (t0 & t & w2p & c2c & p2w & Ht0 & Ht & _ & _ & _ & _ & _ & _ & _ & Ho).
  exists doc, t. split; [exact Hdoc|]. split; [exact Ht|].
  rewrite Ho. injection Ht0 as <-. reflexivity.
Defined.

(** What a returning [assemble_font] needed. *)
Lemma assemble_font_Ok_needs inp font entries_char entries_word doc :
  assemble_font inp font entries_char entries_word = Ok doc →
  (Z.of_nat (get_glyph_count font) + Z.of_nat (length entries_word)
   ≤ MAX_GLYPH_COUNT)%Z ∧
  is_Some (GSUB font) ∧
  (∀ e c, e ∈ entries_word → c ∈ e.1 ++ e.2 → is_Some (cmap font !! c)) ∧
  (∀ e, e ∈ entries_char →
        is_Some (cmap font !! e.1) ∧ is_Some (cmap font !! e.2)).
Proof.
  intros Hdoc.
  destruct (assemble_font_tables _ _ _ _ _ Hdoc) as (t0 & _ & _ & _ & Ht0 & _).
  apply assemble_font_Ok in Hdoc
    as (Hbudget & font1 & w2p & p2w & c2c & _ & _ & _ & _ & Hloop & Hc2c & _).
  apply word_loop_Ok in Hloop as (_ & Hcmap & _ & _ & _ & _ & _ & _ & Hwords).
  split_and!; [done|by eauto| |].
  - intros e c [i He]%elem_imap_pair Hc. by apply (Hwords (i, e) c).
  - intros e [i Hi]%list_elem_of_lookup. apply traverse_Ok in Hc2c.
    destruct (Forall2_lookup_l _ _ _ _ _ Hc2c Hi) as (names & _ & Hnames).
    apply add_char_entry_Ok in Hnames. by rewrite Hcmap in Hnames.
Qed.

(** Within the glyph budget the only exception is [KeyError]. *)
Lemma assemble_font_Raise inp font entries_char entries_word e :
  (Z.of_nat (get_glyph_count font) + Z.of_nat (length entries_word)
   ≤ MAX_GLYPH_COUNT)%Z →
  assemble_font inp font entries_char entries_word = Raise e → e = KeyError.
Proof.
  intros Hbudget. unfold assemble_font. rewrite decide_False by lia.
  intros [?%word_loop_Raise|([[font1 w2p] p2w] & _ & Hrest)]%bind_Raise;
    [done|]. simpl in Hrest.
  apply bind_Raise in Hrest
    as [(? & _ & ?%add_char_entry_Raise)%traverse_Raise|(c2c & _ & Hrest)];
    [done|].
  assert (∀ obj f n ty, register_lookup obj f n ty = Raise e → e = KeyError)
    as Hreg.
  { intros obj f n ty. unfold register_lookup.
    destruct (GSUB obj) as [t|]; simpl; [|congruence].
    destruct (Otl.features t !! f); simpl; congruence. }
  apply bind_Raise in Hrest as [Hrest|(font2 & _ & Hrest)].
  { revert Hrest. unfold insert_empty_feature.
    destruct (GSUB font1); simpl; congruence. }
  apply bind_Raise in Hrest as [?%Hreg|(font3 & _ & Hrest)]; [done|].
  apply bind_Raise in Hrest as [?%Hreg|(font4 & _ & Hrest)]; [done|].
  apply bind_Raise in Hrest as [?%Hreg|(font5 & _ & Hrest)]; done.
Qed.

(** X20. Within the glyph budget, [assemble_font] raises [KeyError] as soon
    as a codepoint of a word entry or of a character entry has no glyph in
    [cmap], or the font has no GSUB table. *)
Theorem assemble_font_missing_codepoint (inp : build_input) (font : font)
    (entries_char : list (codepoint * codepoint))
    (entries_word : list (list codepoint * list codepoint)) :
  (Z.of_nat (get_glyph_count font) + Z.of_nat (length entries_word)
   ≤ MAX_GLYPH_COUNT)%Z →
  (∃ e c, e ∈ entries_word ∧ c ∈ e.1 ++ e.2 ∧ cmap font !! c = None) ∨
  (∃ e, e ∈ entries_char ∧
        (cmap font !! e.1 = None ∨ cmap font !! e.2 = None)) ∨
  GSUB font = None →
  assemble_font inp font entries_char entries_word = Raise KeyError.
Proof.
  intros Hbudget Hmissing.
  destruct (assemble_font inp font entries_char entries_word) as [doc|e]
    eqn:Hrun.
  - apply assemble_font_Ok_needs in Hrun as (_ & Hgsub & Hwords & Hchars).
    destruct Hmissing as [(e & c & He & Hc & Hnone)|[(e & He & Hnone)|Hnone]].
    + destruct (Hwords e c He Hc) as [? ?]. congruence.
    + destruct (Hchars e He) as [[? ?] [? ?]]. destruct Hnone; congruence.
    + destruct Hgsub. congruence.
  - f_equal. by eapply assemble_font_Raise.
Qed.

Lemma assemble_font_missing_codepoint_witness :
  cmap Sample.chain !! 67%N = None ∧
  assemble_font Sample.crowded_input Sample.chain [] [([65; 67], [66])%N] =
    Raise KeyError.
Proof.
  split; [vm_compute; reflexivity|].
  apply assemble_font_missing_codepoint; [vm_compute; discriminate|].
  left. exists ([65; 67], [66])%N, 67%N.
  split; [by left|]. split; [|vm_compute; reflexivity].
  simpl. by right; left.
Defined.

(** X21. [assemble_font] returns a document exactly when the glyphs of the
    font and one placeholder per word entry fit in 65535, the font has a
    GSUB table, and every codepoint of every entry has a glyph in [cmap]. *)
Theorem assemble_font_returns (inp : build_input) (font : font)
    (entries_char : list (codepoint * codepoint))
    (entries_word : list (list codepoint * list codepoint)) :
  (∃ doc, assemble_font inp font entries_char entries_word = Ok doc) ↔
  (Z.of_nat (get_glyph_count font) + Z.of_nat (length entries_word)
   ≤ MAX_GLYPH_COUNT)%Z ∧
  is_Some (GSUB font) ∧
  (∀ e c, e ∈ entries_word → c ∈ e.1 ++ e.2 → is_Some (cmap font !! c)) ∧
  (∀ e, e ∈ entries_char →
        is_Some (cmap font !! e.1) ∧ is_Some (cmap font !! e.2)).
Proof.
  split; [intros [doc Hdoc]; by eapply assemble_font_Ok_needs|].
  intros (Hbudget & Hgsub & Hwords & Hchars). by apply assemble_font_total.
Qed.

Lemma assemble_font_returns_witness :
  ∃ doc, assemble_font Sample.crowded_input Sample.chain [(65, 66)%N]
           [([65; 66], [66])%N] = Ok doc.
Proof.
  apply assemble_font_returns. split_and!.
  - vm_compute. discriminate.
  - by eexists.
  - intros e c ->%list_elem_of_singleton Hc. simpl in Hc.
    repeat (apply elem_of_cons in Hc as [->|Hc]; [by eexists|]).
    by apply elem_of_nil in Hc.
  - intros e ->%list_elem_of_singleton. split; by eexists.
Defined.

(** ** Pruning, then assembling *)

Lemma load_font_rev doc : rev_inv (load_font doc) ∧ rev_nodup (load_font doc).
Proof.
  by apply (build_cmap_rev_items_inv (load_font doc)
              (map_to_list (cmap (load_font doc)))).
Qed.

(** [remove_codepoint] deletes the codepoint from [cmap], except under the
    empty glyph name. *)
Lemma remove_codepoint_cmap_gen obj c obj' :
  rev_inv obj → rev_nodup obj →
  remove_codepoint obj c = Ok obj' →
  cmap obj' = filter (λ kv, kv.1 ≠ c ∨ kv.2 = "") (cmap obj).
Proof.
  intros Hinv Hnd Hrun.
  destruct (decide (cmap obj !! c = Some "")) as [Hempty|Hname].
  - revert Hrun. unfold remove_codepoint. rewrite Hempty.
    rewrite decide_True by done. intros [= <-].
    symmetry. apply map_filter_id. intros k v Hk. simpl.
    destruct (decide (k = c)) as [->|]; [right; congruence|by left].
  - rewrite (remove_codepoint_cmap obj c obj' Hinv Hnd Hname Hrun).
    apply map_eq. intros k. apply option_eq. intros v.
    rewrite map_lookup_filter_Some, lookup_delete_Some. simpl.
    split; [naive_solver|].
    intros [Hk [?| ->]]; [done|]. split; [congruence|done].
Qed.

Lemma remove_codepoints_cmap_gen obj cs obj' :
  rev_inv obj → rev_nodup obj →
  remove_codepoints obj cs = Ok obj' →
  cmap obj' = filter (λ kv, kv.1 ∉ cs ∨ kv.2 = "") (cmap obj).
Proof.
  unfold remove_codepoints. revert obj.
  induction cs as [|c cs IH]; intros obj Hinv Hnd; simpl.
  - intros [= <-]. symmetry. apply map_filter_id.
    intros ? ? _. left. apply not_elem_of_nil.
  - intros (obj1 & Hc & Hrest)%bind_Ok.
    pose proof (remove_codepoint_rev obj c Hinv Hnd) as Hrev.
    rewrite Hc in Hrev. destruct Hrev as [Hinv1 Hnd1].
    apply remove_codepoint_cmap_gen in Hc; [|done..].
    rewrite (IH obj1 Hinv1 Hnd1 Hrest), Hc.
    apply map_eq. intros k. apply option_eq. intros v.
    rewrite !map_lookup_filter_Some. simpl.
    rewrite not_elem_of_cons. naive_solver.
Qed.

Lemma clean_unused_glyphs_cmap order obj obj' :
  set_order order → rev_inv obj →
  clean_unused_glyphs order obj = Ok obj' → cmap obj' = cmap obj.
Proof.
  intros Horder Hinv. unfold clean_unused_glyphs.
  intros (R & HR & Hsweep)%bind_Ok.
  eapply sweep_cmap; [done| |done].
  intros g Hg [c Hc]. apply (set_order_elem order) in Hg; [|done].
  apply elem_of_difference in Hg as [_ Hg]. apply Hg.
  apply (get_reachable_glyphs_Ok obj R HR). right; right; left. by exists c.
Qed.

(** The stages of a returning [prune_font]. *)
Lemma prune_font_Ok order_glyphs order_codepoints inp font
    entries_char entries_word :
  prune_font order_glyphs order_codepoints inp =
    Ok (font, entries_char, entries_word) →
  build_opencc_char_table (dom (doc_cmap (input_font inp)))
    (convert_table_chars inp) = Ok entries_char ∧
  build_opencc_word_table (dom (doc_cmap (input_font inp)))
    (convert_table_words inp) = Ok entries_word ∧
  ∃ font1,
    remove_codepoints (load_font (input_font inp))
      (order_codepoints
         (dom (doc_cmap (input_font inp)) ∖
            ((build_codepoints_non_han ∪ codepoints_han inp) ∩
               dom (doc_cmap (input_font inp))))) = Ok font1 ∧
    clean_unused_glyphs order_glyphs font1 = Ok font.
Proof.
  unfold prune_font. cbv zeta.
  change (build_codepoints_font (load_font (input_font inp)))
    with (dom (doc_cmap (input_font inp))).
  intros (ec & Hec & Hrest)%bind_Ok.
  apply bind_Ok in Hrest as (ew & Hew & Hrest).
  apply bind_Ok in Hrest as (font1 & H1 & Hrest).
  apply bind_Ok in Hrest as (font2 & H2 & [= <- <- <-]).
  split; [done|]. split; [done|]. by exists font1.
Qed.

(** The [cmap] that leaves the pruning. *)
Lemma prune_font_filter (order_glyphs : gset glyph → list glyph)
    (order_codepoints : gset codepoint → list codepoint)
    (inp : build_input) (font : font)
    (entries_char : list (codepoint * codepoint))
    (entries_word : list (list codepoint * list codepoint)) :
  set_order order_glyphs → (∀ s, order_codepoints s ≡ₚ elements s) →
  prune_font order_glyphs order_codepoints inp =
    Ok (font, entries_char, entries_word) →
  cmap font =
    filter (λ kv, kv.1 ∈ build_codepoints_non_han ∪ codepoints_han inp ∨
                  kv.2 = "")
      (doc_cmap (input_font inp)).
Proof.
  intros Hog Hoc (_ & _ & font1 & H1 & H2)%prune_font_Ok.
  set (wanted := build_codepoints_non_han ∪ codepoints_han inp) in *.
  clearbody wanted.
  destruct (load_font_rev (input_font inp)) as [Hinv Hnd].
  match type of H1 with
  | remove_codepoints _ ?cs = _ =>
      pose proof (remove_codepoints_rev (load_font (input_font inp)) cs
                    Hinv Hnd) as Hrev
  end.
  rewrite H1 in Hrev. destruct Hrev as [Hinv1 _].
  rewrite (clean_unused_glyphs_cmap _ _ _ Hog Hinv1 H2).
  rewrite (remove_codepoints_cmap_gen _ _ _ Hinv Hnd H1).
  change (cmap (load_font (input_font inp))) with (doc_cmap (input_font inp)).
  apply map_filter_ext. intros k v Hk. cbn [fst snd].
  rewrite (Hoc _), elem_of_elements, elem_of_difference, elem_of_intersection.
  assert (k ∈ dom (doc_cmap (input_font inp))) as Hdom
    by (apply elem_of_dom; eauto).
  destruct (decide (k ∈ wanted)); tauto.
Qed.

(** X22. When [prune_font] returns, the [cmap] of the pruned font is the
    [cmap] of the input restricted to the codepoints that are in the non-Han
    ranges or in the Han list, together with every codepoint mapped to the
    empty glyph name, which [remove_codepoint] never removes; the entries
    are those of the two tables filtered by the codepoints of the input
    font, before anything was removed. *)
Theorem prune_font_cmap (order_glyphs : gset glyph → list glyph)
    (order_codepoints : gset codepoint → list codepoint)
    (inp : build_input) (font : font)
    (entries_char : list (codepoint * codepoint))
    (entries_word : list (list codepoint * list codepoint)) :
  set_order order_glyphs → (∀ s, order_codepoints s ≡ₚ elements s) →
  prune_font order_glyphs order_codepoints inp =
    Ok (font, entries_char, entries_word) →
  cmap font =
    filter (λ kv, kv.1 ∈ build_codepoints_non_han ∪ codepoints_han inp ∨
                  kv.2 = "")
      (doc_cmap (input_font inp)) ∧
  build_opencc_char_table (dom (doc_cmap (input_font inp)))
    (convert_table_chars inp) = Ok entries_char ∧
  build_opencc_word_table (dom (doc_cmap (input_font inp)))
    (convert_table_words inp) = Ok entries_word.
Proof.
  intros Hog Hoc Hrun. split; [by eapply prune_font_filter|].
  by apply prune_font_Ok in Hrun as (? & ? & _).
Qed.

Lemma prune_font_cmap_witness :
  ∃ font entries_char entries_word,
    prune_font elements elements Sample.stray_input =
      Ok (font, entries_char, entries_word) ∧
    entries_char = [(19969, 19968)%N] ∧
    cmap font = {[ 65%N := "a"; 19968%N := "h1" ]}.
Proof.
  assert (∃ r, prune_font elements elements Sample.stray_input = Ok r)
    as [[[font entries_char] entries_word] Hrun]
    by (eexists; vm_compute; reflexivity).
  exists font, entries_char, entries_word. split; [exact Hrun|].
  destruct (prune_font_cmap elements elements Sample.stray_input font
              entries_char entries_word set_order_elements
              (λ s, reflexivity (elements s)) Hrun) as (-> & Hchars & _).
  split; [|vm_compute; reflexivity].
  vm_compute in Hchars. by injection Hchars as <-.
Defined.

(** X23. The entries are filtered by the codepoints of the font as it was
    loaded, and looked up in [cmap] after the pruning.  So when an entry of
    either table that passed the filter has a codepoint outside the non-Han
    ranges and the Han list (and not mapped to the empty glyph name), the
    build returns no document; if the pruning went through and the glyphs
    fit, it ends in [KeyError]. *)
Theorem build_font_stray_entry (order_glyphs : gset glyph → list glyph)
    (order_codepoints : gset codepoint → list codepoint) (inp : build_input)
    (entries_char : list (codepoint * codepoint))
    (entries_word : list (list codepoint * list codepoint)) :
  set_order order_glyphs → (∀ s, order_codepoints s ≡ₚ elements s) →
  build_opencc_char_table (dom (doc_cmap (input_font inp)))
    (convert_table_chars inp) = Ok entries_char →
  build_opencc_word_table (dom (doc_cmap (input_font inp)))
    (convert_table_words inp) = Ok entries_word →
  (∃ c, ((∃ e, e ∈ entries_word ∧ c ∈ e.1 ++ e.2) ∨
         (∃ e, e ∈ entries_char ∧ (c = e.1 ∨ c = e.2))) ∧
        (c ∉ build_codepoints_non_han ∪ codepoints_han inp) ∧
        doc_cmap (input_font inp) !! c ≠ Some "") →
  (∀ doc, build_font order_glyphs order_codepoints inp ≠ Ok doc) ∧
  (∀ font entries_char' entries_word',
     prune_font order_glyphs order_codepoints inp =
       Ok (font, entries_char', entries_word') →
     (Z.of_nat (get_glyph_count font) + Z.of_nat (length entries_word)
      ≤ MAX_GLYPH_COUNT)%Z →
     build_font order_glyphs order_codepoints inp = Raise KeyError).
Proof.
  intros Hog Hoc Hec Hew (c & Huse & Hc & Hname).
  assert (∀ font entries_char' entries_word',
            prune_font order_glyphs order_codepoints inp =
              Ok (font, entries_char', entries_word') →
            entries_char' = entries_char ∧ entries_word' = entries_word ∧
            ∀ doc, assemble_font inp font entries_char entries_word ≠ Ok doc)
    as Hpruned.
  { intros font ec ew Hrun.
    pose proof (prune_font_Ok _ _ _ _ _ _ Hrun) as (Hec' & Hew' & _).
    rewrite Hec in Hec'. rewrite Hew in Hew'.
    injection Hec' as <-. injection Hew' as <-.
    split; [done|]. split; [done|].
    apply prune_font_filter in Hrun as Hcmap; [|done..].
    assert (cmap font !! c = None) as Hnone.
    { rewrite Hcmap. apply map_lookup_filter_None. right.
      intros v Hv [?|Hempty]; [done|]. simpl in Hempty. congruence. }
    intros doc (_ & _ & Hwords & Hchars)%assemble_font_Ok_needs.
    destruct Huse as [(e & He & Hin)|(e & He & Hin)].
    - destruct (Hwords e c He Hin). congruence.
    - destruct (Hchars e He) as [[? ?] [? ?]]. destruct Hin; congruence. }
  split.
  - intros doc. unfold build_font.
    destruct (prune_font order_glyphs order_codepoints inp)
      as [[[font ec] ew]|e] eqn:Hrun; [|done]. simpl.
    destruct (Hpruned font ec ew eq_refl) as (-> & -> & Hno). apply Hno.
  - intros font ec ew Hrun Hbudget. unfold build_font. rewrite Hrun. simpl.
    destruct (Hpruned font ec ew Hrun) as (-> & -> & Hno).
    destruct (assemble_font inp font entries_char entries_word) as [doc|e]
      eqn:Hasm; [by destruct (Hno doc)|].
    f_equal. by eapply assemble_font_Raise.
Qed.

Lemma build_font_stray_entry_witness :
  build_font elements elements Sample.stray_input = Raise KeyError.
Proof.
  assert (∃ r, prune_font elements elements Sample.stray_input = Ok r ∧
               (Z.of_nat (get_glyph_count r.1.1) + Z.of_nat 0
                ≤ MAX_GLYPH_COUNT)%Z)
    as ([[font entries_char] entries_word] & Hrun & Hbudget)
    by (eexists; split; [vm_compute; reflexivity|vm_compute; discriminate]).
  refine (proj2 (build_font_stray_entry elements elements Sample.stray_input
                   [(19969, 19968)%N] [] set_order_elements
                   (λ s, reflexivity (elements s)) _ _ _)
            font entries_char entries_word Hrun Hbudget).
  - vm_compute. reflexivity.
  - vm_compute. reflexivity.
  - exists 19969%N. split; [right; exists (19969, 19968)%N|split].
    + split; [by left|by left].
    + vm_compute. discriminate.
    + vm_compute. discriminate.
Defined.

(** ** The dictionaries of the single and multiple substitutions *)

Lemma dict_of_foldl {V} (subtable : list (glyph * V)) (d : gmap glyph V) :
  foldl (λ d kv, <[kv.1 := kv.2]> d) d subtable =
    list_to_map (reverse subtable) ∪ d.
Proof.
  revert d. induction subtable as [|[k v] l IH]; intros d; simpl.
  - by rewrite (left_id_L ∅ (∪)).
  - rewrite IH, reverse_cons, list_to_map_app. simpl.
    rewrite <- (assoc_L (∪)). f_equal.
    by rewrite insert_union_singleton_l, insert_empty.
Qed.

Lemma dict_of_list_to_map {V} (subtable : list (glyph * V)) :
  dict_of subtable = list_to_map (reverse subtable).
Proof. unfold dict_of. by rewrite dict_of_foldl, (right_id_L ∅ (∪)). Qed.

Lemma dict_of_lookup_Some {V} (subtable : list (glyph * V)) k v :
  dict_of subtable !! k = Some v → (k, v) ∈ subtable.
Proof.
  rewrite dict_of_list_to_map. intros ?%elem_of_list_to_map_2.
  by apply elem_of_reverse.
Qed.

Lemma dict_of_lookup_is_Some {V} (subtable : list (glyph * V)) k :
  k ∈ subtable.*1 → is_Some (dict_of subtable !! k).
Proof.
  rewrite dict_of_list_to_map. intros Hk.
  apply not_eq_None_Some. intros Hnone%not_elem_of_list_to_map.
  apply Hnone. by rewrite fmap_reverse, elem_of_reverse.
Qed.

Lemma dict_of_lookup_NoDup {V} (subtable : list (glyph * V)) k v :
  NoDup subtable.*1 → (k, v) ∈ subtable → dict_of subtable !! k = Some v.
Proof.
  rewrite dict_of_list_to_map. intros Hnd Hkv.
  apply elem_of_list_to_map_1; [|by apply elem_of_reverse].
  by rewrite fmap_reverse, reverse_Permutation.
Qed.

Lemma dict_of_size {V} (subtable : list (glyph * V)) :
  size (dict_of subtable) ≤ length subtable ∧
  (subtable ≠ [] → 1 ≤ size (dict_of subtable)).
Proof.
  split.
  - rewrite dict_of_list_to_map, <- length_reverse.
    induction (reverse subtable) as [|[k v] l IH]; simpl.
    + by rewrite map_size_empty.
    + rewrite map_size_insert. destruct (list_to_map l !! k); simpl; lia.
  - destruct subtable as [|[k v] l]; [done|]. intros _.
    destruct (dict_of_lookup_is_Some ((k, v) :: l) k) as [v' Hv'];
      [by left|].
    assert (dict_of ((k, v) :: l) ≠ ∅) as Hne.
    { intros Hempty. by rewrite Hempty, lookup_empty in Hv'. }
    apply map_size_non_empty_iff in Hne. lia.
Qed.

(** The dictionaries of the groups that split [conversions]. *)
Lemma dict_groups {V} (groups : list (list (glyph * V))) conversions :
  mjoin groups = conversions →
  (∀ k v st, st ∈ dict_of <$> groups → st !! k = Some v →
             (k, v) ∈ conversions) ∧
  (∀ k, k ∈ conversions.*1 →
        ∃ st, st ∈ dict_of <$> groups ∧ is_Some (st !! k)) ∧
  (NoDup conversions.*1 →
   (∀ k v, (k, v) ∈ conversions →
           ∃ st, st ∈ dict_of <$> groups ∧ st !! k = Some v) ∧
   (∀ i j st1 st2 k, (dict_of <$> groups) !! i = Some st1 →
      (dict_of <$> groups) !! j = Some st2 →
      is_Some (st1 !! k) → is_Some (st2 !! k) → i = j)).
Proof.
  intros <-. split_and!.
  - intros k v st (g & -> & Hg)%list_elem_of_fmap Hkv%dict_of_lookup_Some.
    apply list_elem_of_join. eauto.
  - intros k ((k' & v) & -> & (g & Hkv & Hg)%list_elem_of_join)%list_elem_of_fmap.
    exists (dict_of g). split; [by apply list_elem_of_fmap_2|].
    apply dict_of_lookup_is_Some. apply list_elem_of_fmap. by exists (k', v).
  - intros Hnd. split.
    + intros k v (g & Hkv & Hg)%list_elem_of_join.
      exists (dict_of g). split; [by apply list_elem_of_fmap_2|].
      apply dict_of_lookup_NoDup; [|done].
      clear Hkv. induction groups as [|g' groups IH];
        [by apply elem_of_nil in Hg|].
      simpl in Hnd. rewrite fmap_app in Hnd.
      apply NoDup_app in Hnd as (Hnd1 & _ & Hnd2).
      apply elem_of_cons in Hg as [->|Hg]; [done|by apply IH].
    + induction groups as [|g groups IH]; intros i j st1 st2 k Hi Hj H1 H2;
        [done|].
      simpl in Hnd. rewrite fmap_app in Hnd.
      apply NoDup_app in Hnd as (Hnd1 & Hdisj & Hnd2).
      assert (∀ n st, (dict_of <$> groups) !! n = Some st →
                      is_Some (st !! k) → k ∈ (mjoin groups).*1) as Hrest.
      { intros n st Hn [v Hv]. apply list_lookup_fmap_Some in Hn
          as (g' & -> & Hg'). apply dict_of_lookup_Some in Hv.
        apply list_elem_of_fmap. exists (k, v). split; [done|].
        apply list_elem_of_join. exists g'. split; [done|].
        by eapply list_elem_of_lookup_2. }
      assert (∀ st, Some (dict_of g) = Some st → is_Some (st !! k) →
                    k ∈ g.*1) as Hhead.
      { intros st [= <-] [v Hv%dict_of_lookup_Some].
        apply list_elem_of_fmap. by exists (k, v). }
      destruct i as [|i], j as [|j]; simpl in Hi, Hj.
      * done.
      * destruct (Hdisj k); [by eapply Hhead|by eapply Hrest].
      * destruct (Hdisj k); [by eapply Hhead|by eapply Hrest].
      * f_equal. by eapply (IH Hnd2 i j st1 st2 k).
Qed.

Lemma subtable_groups_partition {A} (conversions : list A) :
  partition_of SUBTABLE_MAX_COUNT conversions (subtable_groups conversions).
Proof.
  unfold subtable_groups.
  by destruct (grouper_partition SUBTABLE_MAX_COUNT conversions
                 SUBTABLE_MAX_COUNT_pos) as (gs & -> & Hp).
Qed.

Lemma dict_groups_size {V} (groups : list (list (glyph * V))) :
  Forall (λ g, length g ≤ SUBTABLE_MAX_COUNT) groups →
  Forall (λ g, g ≠ []) groups →
  Forall (λ st : gmap glyph V, 1 ≤ size st ≤ SUBTABLE_MAX_COUNT)
    (dict_of <$> groups).
Proof.
  intros Hb Hne. apply Forall_fmap, Forall_forall. intros g Hg. simpl.
  rewrite Forall_forall in Hb, Hne.
  destruct (dict_of_size g) as [Hle Hge].
  specialize (Hb g Hg). specialize (Hge (Hne g Hg)). lia.
Qed.

(** X24. The lookup [char2char] stored by [create_char2char_table] is a
    [gsub_single] lookup whose subtables are the dictionaries of the
    consecutive groups of at most 4000 conversions: no subtable is empty or
    has more than 4000 keys; a subtable maps a glyph only to a glyph it is
    paired with in [conversions]; every source glyph is a key of some
    subtable; and when no source glyph occurs twice, every pair is in some
    subtable and no glyph is a key of two subtables. *)
Theorem create_char2char_table_subtables (obj obj' : font)
    (feature_name : string) (conversions : list (glyph * glyph)) :
  create_char2char_table obj feature_name conversions = Ok obj' →
  ∃ t sts,
    GSUB obj' = Some t ∧
    Otl.lookups t !! "char2char" =
      Some {| flags := JObj []; typed := gsub_single sts |} ∧
    Forall (λ st : gmap glyph glyph, 1 ≤ size st ≤ SUBTABLE_MAX_COUNT) sts ∧
    (∀ k v st, st ∈ sts → st !! k = Some v → (k, v) ∈ conversions) ∧
    (∀ k, k ∈ conversions.*1 → ∃ st, st ∈ sts ∧ is_Some (st !! k)) ∧
    (NoDup conversions.*1 →
     (∀ k v, (k, v) ∈ conversions → ∃ st, st ∈ sts ∧ st !! k = Some v) ∧
     (∀ i j st1 st2 k, sts !! i = Some st1 → sts !! j = Some st2 →
        is_Some (st1 !! k) → is_Some (st2 !! k) → i = j)).
Proof.
  unfold create_char2char_table.
  intros (t0 & feature & _ & _ & Hgsub & _)%register_lookup_inv.
  destruct (subtable_groups_partition conversions) as [Hc Hb Hne _].
  eexists _, (dict_of <$> subtable_groups conversions).
  split; [exact Hgsub|]. simpl. split; [by rewrite lookup_insert_eq|].
  split; [by apply dict_groups_size|]. by apply dict_groups.
Qed.

Lemma create_char2char_table_subtables_witness :
  ∃ obj' t sts,
    create_char2char_table Sample.featured "liga_s2t"
      [("a", "b"); ("b", "c")] = Ok obj' ∧
    GSUB obj' = Some t ∧
    Otl.lookups t !! "char2char" =
      Some {| flags := JObj []; typed := gsub_single sts |} ∧
    ∃ st, st ∈ sts ∧ st !! "a" = Some "b".
Proof.
  assert (∃ obj', create_char2char_table Sample.featured "liga_s2t"
                    [("a", "b"); ("b", "c")] = Ok obj') as [obj' Hrun]
    by (eexists; reflexivity).
  destruct (create_char2char_table_subtables _ _ _ _ Hrun)
    as (t & sts & Ht & Hl & _ & _ & _ & Hnd).
  exists obj', t, sts. split; [exact Hrun|]. split; [exact Ht|].
  split; [exact Hl|].
  apply Hnd; [|by left]. apply (bool_decide_unpack _). vm_compute. exact I.
Defined.

(** X25. The lookup [pseu2word] stored by [create_pseu2word_table] is a
    [gsub_multiple] lookup whose subtables have between 1 and 4000 keys;
    the glyph sequences of one subtable all have the same length; a subtable
    maps a glyph only to a sequence it is paired with in [conversions]; and
    when no source glyph occurs twice, every pair is in some subtable and no
    glyph is a key of two subtables. *)
Theorem create_pseu2word_table_subtables (obj obj' : font)
    (feature_name : string) (conversions : list (glyph * list glyph)) :
  create_pseu2word_table obj feature_name conversions = Ok obj' →
  ∃ t sts,
    GSUB obj' = Some t ∧
    Otl.lookups t !! "pseu2word" =
      Some {| flags := JObj []; typed := gsub_multiple sts |} ∧
    Forall (λ st : gmap glyph (list glyph),
              1 ≤ size st ≤ SUBTABLE_MAX_COUNT ∧
              ∃ n, map_Forall (λ _ v, length v = n) st) sts ∧
    (∀ k v st, st ∈ sts → st !! k = Some v → (k, v) ∈ conversions) ∧
    (NoDup conversions.*1 →
     (∀ k v, (k, v) ∈ conversions → ∃ st, st ∈ sts ∧ st !! k = Some v) ∧
     (∀ i j st1 st2 k, sts !! i = Some st1 → sts !! j = Some st2 →
        is_Some (st1 !! k) → is_Some (st2 !! k) → i = j)).
Proof.
  unfold create_pseu2word_table.
  intros (t0 & feature & _ & _ & Hgsub & _)%register_lookup_inv.
  set (key := λ conversion_item : glyph * list glyph,
                length conversion_item.2) in *.
  pose proof (subtable_groups2_spec key conversions) as Hgroups.
  pose proof (grouper2_concat SUBTABLE_MAX_COUNT key conversions _
                SUBTABLE_MAX_COUNT_pos Hgroups) as Hc.
  pose proof (λ g, grouper2_groups SUBTABLE_MAX_COUNT key conversions _ g
                     SUBTABLE_MAX_COUNT_pos Hgroups) as Hg.
  eexists _, (dict_of <$> subtable_groups2 key conversions).
  split; [exact Hgsub|]. simpl. split; [by rewrite lookup_insert_eq|].
  destruct (dict_groups _ _ Hc) as (Hsound & _ & Hcomplete).
  split; [|by split].
  apply Forall_fmap, Forall_forall. intros g Hin. simpl.
  destruct (Hg g Hin) as (Hne & Hlen & n & Hkey).
  destruct (dict_of_size g) as [Hle Hge]. specialize (Hge Hne).
  split; [lia|]. exists n. intros k v Hkv%dict_of_lookup_Some.
  by apply (Hkey (k, v)).
Qed.

Lemma create_pseu2word_table_subtables_witness :
  ∃ obj' t sts,
    create_pseu2word_table Sample.featured "liga_s2t"
      [("pseu0", ["a"; "b"]); ("pseu1", ["c"])] = Ok obj' ∧
    GSUB obj' = Some t ∧
    Otl.lookups t !! "pseu2word" =
      Some {| flags := JObj []; typed := gsub_multiple sts |} ∧
    ∃ st, st ∈ sts ∧ st !! "pseu1" = Some ["c"].
Proof.
  assert (∃ obj', create_pseu2word_table Sample.featured "liga_s2t"
                    [("pseu0", ["a"; "b"]); ("pseu1", ["c"])] = Ok obj')
    as [obj' Hrun] by (eexists; reflexivity).
  destruct (create_pseu2word_table_subtables _ _ _ _ Hrun)
    as (t & sts & Ht & Hl & _ & _ & Hnd).
  exists obj', t, sts. split; [exact Hrun|]. split; [exact Ht|].
  split; [exact Hl|].
  apply Hnd; [|by right; left]. apply (bool_decide_unpack _).
  vm_compute. exact I.
Defined.

(** ** The rows of the three lookups *)

Lemma hex_value_digit (d : N) : (d < 16)%N → hex_value (hex_digit d) = d.
Proof.
  intros Hd. rewrite <- (N2Nat.id d).
  assert (N.to_nat d < 16) as Hn by lia. revert Hn.
  generalize (N.to_nat d). intros n Hn.
  do 16 (destruct n as [|n]; [vm_compute; reflexivity|]). lia.
Qed.

Lemma parse_format_X_from (fuel : nat) (i : N) (acc : string) :
  (i < 2 ^ N.of_nat fuel)%N →
  parse_X (format_X_from fuel i acc) =
    (i * 16 ^ N.of_nat (String.length acc) + parse_X acc)%N.
Proof.
  revert i acc. induction fuel as [|fuel IH]; intros i acc Hi.
  - simpl in *. assert (i = 0%N) as -> by lia. done.
  - cbn [format_X_from]. cbv zeta.
    assert (parse_X (String (hex_digit (i mod 16)) acc) =
              ((i mod 16) * 16 ^ N.of_nat (String.length acc) + parse_X acc)%N)
      as Hstep.
    { cbn [parse_X]. rewrite hex_value_digit; [done|].
      by apply N.mod_lt. }
    pose proof (N.div_mod i 16 ltac:(done)) as Hdiv.
    case_decide as Hzero.
    + rewrite Hstep. rewrite Hzero in Hdiv. f_equal. f_equal. lia.
    + rewrite IH.
      * rewrite Hstep. cbn [String.length].
        rewrite Nat2N.inj_succ, N.pow_succ_r'. lia.
      * rewrite Nat2N.inj_succ, N.pow_succ_r' in Hi.
        apply N.Div0.div_lt_upper_bound. lia.
Qed.

(** ['%X' % i] can be read back. *)
Lemma parse_format_X (i : N) : parse_X (format_X i) = i.
Proof.
  unfold format_X. rewrite parse_format_X_from; [simpl; lia|].
  destruct (decide (i = 0%N)) as [->|Hi]; [done|].
  rewrite Nat2N.inj_succ, N2Nat.id.
  apply N.log2_spec. lia.
Qed.

Lemma pseudo_glyph_name_inj i j :
  pseudo_glyph_name i = pseudo_glyph_name j → i = j.
Proof.
  unfold pseudo_glyph_name.
  assert (∀ p s t : string, p +:+ s = p +:+ t → s = t) as Hinj.
  { induction p as [|c p IH]; intros s t; cbn [String.append]; [done|].
    intros [= ?]. by apply IH. }
  intros Heq%Hinj.
  apply (f_equal parse_X) in Heq. rewrite !parse_format_X in Heq. lia.
Qed.

Lemma pseudo_glyph_names_NoDup {A} (l : list A) :
  NoDup (imap (λ i _, pseudo_glyph_name i) l).
Proof.
  apply NoDup_alt. intros i j g.
  rewrite !list_lookup_imap.
  destruct (l !! i), (l !! j); simpl; try done.
  intros Hi Hj. apply pseudo_glyph_name_inj. congruence.
Qed.

Lemma glyph_names_rows font cs gs :
  traverse (codepoint_to_glyph_name font) cs = Ok gs → names font cs gs.
Proof.
  intros Htr%traverse_Ok. eapply Forall2_impl; [exact Htr|].
  intros c g. unfold codepoint_to_glyph_name.
  destruct (cmap font !! c); simpl; congruence.
Qed.

(** The rows the loop over the word entries appends. *)
Lemma word_loop_rows (l : list (nat * (list codepoint * list codepoint)))
    font w2p p2w font' w2p' p2w' :
  for_each l add_word_entry (font, w2p, p2w) = Ok (font', w2p', p2w') →
  ∃ rows_w rows_p,
    w2p' = w2p ++ rows_w ∧ p2w' = p2w ++ rows_p ∧
    Forall2 (λ e row, row.2 = pseudo_glyph_name e.1 ∧
                      names font e.2.1 row.1) l rows_w ∧
    Forall2 (λ e row, row.1 = pseudo_glyph_name e.1 ∧
                      names font e.2.2 row.2) l rows_p.
Proof.
  revert font w2p p2w. induction l as [|[i [ks vs]] l IH];
    intros font w2p p2w; simpl.
  - intros [= <- <- <-]. exists [], []. by rewrite !app_nil_r.
  - intros ([[font1 w1] p1] & Hstep & Hrest)%bind_Ok.
    apply add_word_entry_Ok in Hstep as (gk & gv & Hgk & Hgv & [= -> -> ->]).
    destruct (IH _ _ _ Hrest) as (rows_w & rows_p & -> & -> & Hw & Hp).
    exists ((gk, pseudo_glyph_name i) :: rows_w),
           ((pseudo_glyph_name i, gv) :: rows_p).
    rewrite <- !app_assoc. split; [done|]. split; [done|].
    split; (constructor; [split; [done|]; by apply glyph_names_rows|done]).
Qed.

Lemma char_rows font entries_char rows :
  traverse (add_char_entry font) entries_char = Ok rows →
  Forall2 (λ e row, cmap font !! e.1 = Some row.1 ∧
                    cmap font !! e.2 = Some row.2) entries_char rows.
Proof.
  intros Htr%traverse_Ok. eapply Forall2_impl; [exact Htr|].
  intros e row. unfold add_char_entry, codepoint_to_glyph_name.
  destruct (cmap font !! e.1); simpl; [|done].
  destruct (cmap font !! e.2); simpl; [|done]. by intros [= <-].
Qed.

(** The three lookups of the document, from the rows of the entries. *)
Lemma assemble_font_rows inp font entries_char entries_word doc :
  assemble_font inp font entries_char entries_word = Ok doc →
  ∃ t rows_w rows_c rows_p,
    doc_GSUB doc = Some t ∧
    Forall2 (λ e row, row.2 = pseudo_glyph_name e.1 ∧
                      names font e.2.1 row.1) (imap pair entries_word) rows_w ∧
    Forall2 (λ e row, cmap font !! e.1 = Some row.1 ∧
                      cmap font !! e.2 = Some row.2) entries_char rows_c ∧
    Forall2 (λ e row, row.1 = pseudo_glyph_name e.1 ∧
                      names font e.2.2 row.2) (imap pair entries_word) rows_p ∧
    Otl.lookups t !! "word2pseu" =
      Some {| flags := JObj [];
              typed := gsub_ligature
                         (word2pseu_subtable <$>
                            subtable_groups2 (λ row, length row.1) rows_w) |} ∧
    Otl.lookups t !! "char2char" =
      Some {| flags := JObj [];
              typed := gsub_single (dict_of <$> subtable_groups rows_c) |} ∧
    Otl.lookups t !! "pseu2word" =
      Some {| flags := JObj [];
              typed := gsub_multiple
                         (dict_of <$>
                            subtable_groups2 (λ row, length row.2) rows_p) |}.
Proof.
  intros (_ & font1 & w2p & p2w & c2c & font2 & font3 & font4 & font5 &
          Hloop & Hc2c & H2 & H3 & H4 & H5 & ->)%assemble_font_Ok.
  pose proof (word_loop_Ok _ _ _ _ _ _ _ Hloop) as (_ & Hcmap & _).
  apply word_loop_rows in Hloop as (rows_w & rows_p & -> & -> & Hw & Hp).
  apply char_rows in Hc2c. rewrite Hcmap in Hc2c.
  unfold create_word2pseu_table in H3. unfold create_char2char_table in H4.
  unfold create_pseu2word_table in H5.
  apply register_lookup_inv in H3 as (t2 & f2 & Ht2 & _ & Hg3 & _).
  apply register_lookup_inv in H4 as (t3 & f3 & Ht3 & _ & Hg4 & _).
  rewrite Hg3 in Ht3. injection Ht3 as <-.
  apply register_lookup_inv in H5 as (t4 & f4 & Ht4 & _ & Hg5 & _).
  rewrite Hg4 in Ht4. injection Ht4 as <-. simpl in Hg5.
  eexists _, rows_w, c2c, rows_p. split; [exact Hg5|]. simpl.
  split_and!; try done.
  - do 2 (rewrite lookup_insert_ne by done). by rewrite lookup_insert_eq.
  - rewrite lookup_insert_ne by done. by rewrite lookup_insert_eq.
  - by rewrite lookup_insert_eq.
Qed.

Lemma Forall2_elem_of_l {A B} (P : A → B → Prop) l k x :
  Forall2 P l k → x ∈ l → ∃ y, y ∈ k ∧ P x y.
Proof.
  intros HF [i Hi]%list_elem_of_lookup.
  destruct (Forall2_lookup_l _ _ _ _ _ HF Hi) as (y & Hy & HP).
  exists y. split; [by eapply list_elem_of_lookup_2|done].
Qed.

Lemma imap_pair_lookup {A} (l : list A) i (e : nat * A) :
  imap pair l !! i = Some e ↔ e.1 = i ∧ l !! i = Some e.2.
Proof.
  rewrite list_lookup_imap. destruct e as [j x], (l !! i) as [y|]; simpl.
  - split; [by intros [= <- <-]|by intros [<- [= <-]]].
  - split; [done|by intros [_ ?]].
Qed.

Lemma subtable_groups2_elem {A} (key : A → nat) (rows : list A) row :
  row ∈ rows ↔ ∃ g, g ∈ subtable_groups2 key rows ∧ row ∈ g.
Proof.
  pose proof (grouper2_concat SUBTABLE_MAX_COUNT key rows _
                SUBTABLE_MAX_COUNT_pos (subtable_groups2_spec key rows)) as Hc.
  rewrite <- Hc at 1. rewrite list_elem_of_join. naive_solver.
Qed.

(** X26. When [assemble_font] returns for a font whose glyph order has no
    name twice and none of the placeholder names, the glyph order of the
    document has no name twice: the placeholders [pseu0], [pseu1], ... are
    distinct from each other. *)
Theorem assemble_font_placeholders (inp : build_input) (font : font)
    (entries_char : list (codepoint * codepoint))
    (entries_word : list (list codepoint * list codepoint)) (doc : document) :
  assemble_font inp font entries_char entries_word = Ok doc →
  NoDup (glyph_order font) →
  (∀ i, i < length entries_word →
        pseudo_glyph_name i ∉ glyph_order font) →
  NoDup (doc_glyph_order doc).
Proof.
  intros [-> _]%assemble_font_order Hnd Hfresh.
  apply NoDup_app. split; [done|]. split; [|apply pseudo_glyph_names_NoDup].
  intros g Hg (i & x & -> & Hi)%elem_of_lookup_imap_1.
  apply (Hfresh i); [by eapply lookup_lt_Some|done].
Qed.

Lemma assemble_font_placeholders_witness :
  ∃ doc,
    assemble_font Sample.crowded_input Sample.chain []
      [([65], [66])%N; ([66], [65])%N] = Ok doc ∧
    NoDup (doc_glyph_order doc).
Proof.
  assert (∃ doc,
            assemble_font Sample.crowded_input Sample.chain []
              [([65], [66])%N; ([66], [65])%N] = Ok doc)
    as [doc Hdoc]
    by (apply sample_chain_assembles; [repeat constructor..|simpl; lia]).
  exists doc. split; [exact Hdoc|].
  apply (assemble_font_placeholders _ _ _ _ _ Hdoc).
  - apply (bool_decide_unpack _). vm_compute. exact I.
  - intros i Hi. simpl in Hi.
    destruct i as [|[|i]]; [| |lia];
      (apply (bool_decide_unpack _); vm_compute; exact I).
Defined.

(** X27. When [assemble_font] returns, the lookups [word2pseu] and
    [pseu2word] hold the word entries and nothing else: for the entry of
    index [i], some [word2pseu] subtable has the rule from the glyphs of its
    left side to the placeholder [i], and some [pseu2word] subtable maps the
    placeholder [i] to the glyphs of its right side; every rule and every
    key of these lookups comes from an entry in this way. *)
Theorem assemble_font_words (inp : build_input) (font : font)
    (entries_char : list (codepoint * codepoint))
    (entries_word : list (list codepoint * list codepoint)) (doc : document) :
  assemble_font inp font entries_char entries_word = Ok doc →
  ∃ t w2p p2w,
    doc_GSUB doc = Some t ∧
    Otl.lookups t !! "word2pseu" =
      Some {| flags := JObj []; typed := gsub_ligature w2p |} ∧
    Otl.lookups t !! "pseu2word" =
      Some {| flags := JObj []; typed := gsub_multiple p2w |} ∧
    (∀ i ks vs, entries_word !! i = Some (ks, vs) →
       ∃ gk gv,
         names font ks gk ∧ names font vs gv ∧
         (∃ st, st ∈ w2p ∧
                {| from := gk; to := pseudo_glyph_name i |}
                  ∈ Ligature.substitutions st) ∧
         (∃ st, st ∈ p2w ∧ st !! pseudo_glyph_name i = Some gv)) ∧
    (∀ st rule, st ∈ w2p → rule ∈ Ligature.substitutions st →
       ∃ i ks vs, entries_word !! i = Some (ks, vs) ∧
                  to rule = pseudo_glyph_name i ∧ names font ks (from rule)) ∧
    (∀ st g gv, st ∈ p2w → st !! g = Some gv →
       ∃ i ks vs, entries_word !! i = Some (ks, vs) ∧
                  g = pseudo_glyph_name i ∧ names font vs gv).
Proof.
  intros (t & rows_w & rows_c & rows_p & Ht & Hw & _ & Hp & Hlw & _ & Hlp)
    %assemble_font_rows.
  eexists t, _, _. split; [exact Ht|]. split; [exact Hlw|].
  split; [exact Hlp|].
  set (key_w := λ row : list glyph * glyph, length row.1) in *.
  set (key_p := λ row : glyph * list glyph, length row.2) in *.
  pose proof (grouper2_concat SUBTABLE_MAX_COUNT key_p rows_p _
                SUBTABLE_MAX_COUNT_pos (subtable_groups2_spec key_p rows_p))
    as Hcp.
  destruct (dict_groups _ _ Hcp) as (Hsound & _ & Hcomplete).
  assert (NoDup rows_p.*1) as Hnd.
  { apply NoDup_alt. intros i j g.
    rewrite !list_lookup_fmap.
    destruct (rows_p !! i) as [ri|] eqn:Hi; [|done].
    destruct (rows_p !! j) as [rj|] eqn:Hj; [|done]. simpl.
    destruct (Forall2_lookup_r _ _ _ _ _ Hp Hi) as (ei & Hei & Hri & _).
    destruct (Forall2_lookup_r _ _ _ _ _ Hp Hj) as (ej & Hej & Hrj & _).
    apply imap_pair_lookup in Hei as [Hei _].
    apply imap_pair_lookup in Hej as [Hej _].
    intros [= <-] [= Heq]. apply pseudo_glyph_name_inj. congruence. }
  split_and!.
  - intros i ks vs Hi.
    assert (imap pair entries_word !! i = Some (i, (ks, vs))) as He
      by by apply imap_pair_lookup.
    destruct (Forall2_lookup_l _ _ _ _ _ Hw He)
      as ([gk nw] & Hrw & Hnw & Hgk).
    destruct (Forall2_lookup_l _ _ _ _ _ Hp He)
      as ([np gv] & Hrp & Hnp & Hgv).
    simpl in *. subst nw np. exists gk, gv. split; [done|]. split; [done|].
    split.
    + apply list_elem_of_lookup_2 in Hrw.
      apply (subtable_groups2_elem key_w) in Hrw as (g & Hg & Hrow).
      exists (word2pseu_subtable g). split; [by apply list_elem_of_fmap_2|].
      simpl. apply list_elem_of_fmap.
      by exists (gk, pseudo_glyph_name i).
    + apply (proj1 (Hcomplete Hnd)). by eapply list_elem_of_lookup_2.
  - intros st rule (g & -> & Hg)%list_elem_of_fmap
      ([gk nw] & -> & Hrow)%list_elem_of_fmap. simpl.
    assert ((gk, nw) ∈ rows_w) as [n Hn]%list_elem_of_lookup
      by (apply (subtable_groups2_elem key_w); eauto).
    destruct (Forall2_lookup_r _ _ _ _ _ Hw Hn)
      as ([i [ks vs]] & [Hi He]%imap_pair_lookup & Hnw & Hgk).
    simpl in *. subst n. by exists i, ks, vs.
  - intros st g gv Hst Hg.
    pose proof (Hsound g gv st Hst Hg) as [n Hn]%list_elem_of_lookup.
    destruct (Forall2_lookup_r _ _ _ _ _ Hp Hn)
      as ([i [ks vs]] & [Hi He]%imap_pair_lookup & Hnp & Hgv).
    simpl in *. subst n. by exists i, ks, vs.
Qed.

Lemma assemble_font_words_witness :
  ∃ doc t p2w st,
    assemble_font Sample.crowded_input Sample.chain []
      [([65; 66], [66])%N] = Ok doc ∧
    doc_GSUB doc = Some t ∧
    Otl.lookups t !! "pseu2word" =
      Some {| flags := JObj []; typed := gsub_multiple p2w |} ∧
    st ∈ p2w ∧ st !! "pseu0" = Some ["a"].
Proof.
  assert (∃ doc,
            assemble_font Sample.crowded_input Sample.chain []
              [([65; 66], [66])%N] = Ok doc)
    as [doc Hdoc]
    by (apply sample_chain_assembles; [repeat constructor..|simpl; lia]).
  destruct (assemble_font_words _ _ _ _ _ Hdoc)
    as (t & w2p & p2w & Ht & _ & Hl & Hentry & _).
  destruct (Hentry 0 [65; 66]%N [66%N] eq_refl)
    as (gk & gv & _ & Hgv & _ & st & Hst & Hlookup).
  exists doc, t, p2w, st. split; [exact Hdoc|]. split; [exact Ht|].
  split; [exact Hl|]. split; [exact Hst|].
  apply Forall2_cons_inv_l in Hgv as (g & gs & Hg & Hgs & ->).
  apply Forall2_nil_inv_l in Hgs as ->.
  change (cmap Sample.chain !! 66%N) with (Some "a") in Hg.
  injection Hg as <-. exact Hlookup.
Defined.

(** X28. When [assemble_font] returns, a [char2char] subtable maps a glyph
    only to the glyph of the right side of a character entry whose left
    side has that glyph; the glyph of every left side is a key of some
    subtable; and when no two entries have left sides with the same glyph,
    every entry is in some subtable. *)
Theorem assemble_font_chars (inp : build_input) (font : font)
    (entries_char : list (codepoint * codepoint))
    (entries_word : list (list codepoint * list codepoint)) (doc : document) :
  assemble_font inp font entries_char entries_word = Ok doc →
  ∃ t c2c,
    doc_GSUB doc = Some t ∧
    Otl.lookups t !! "char2char" =
      Some {| flags := JObj []; typed := gsub_single c2c |} ∧
    (∀ st g h, st ∈ c2c → st !! g = Some h →
       ∃ e, e ∈ entries_char ∧
            cmap font !! e.1 = Some g ∧ cmap font !! e.2 = Some h) ∧
    (∀ e, e ∈ entries_char →
       ∃ g st, cmap font !! e.1 = Some g ∧ st ∈ c2c ∧ is_Some (st !! g)) ∧
    ((∀ i j e1 e2, entries_char !! i = Some e1 → entries_char !! j = Some e2 →
                   cmap font !! e1.1 = cmap font !! e2.1 → i = j) →
     ∀ e, e ∈ entries_char →
       ∃ g h st, cmap font !! e.1 = Some g ∧ cmap font !! e.2 = Some h ∧
                 st ∈ c2c ∧ st !! g = Some h).
Proof.
  intros (t & rows_w & rows_c & rows_p & Ht & _ & Hc & _ & _ & Hlc & _)
    %assemble_font_rows.
  eexists t, _. split; [exact Ht|]. split; [exact Hlc|].
  destruct (subtable_groups_partition rows_c) as [Hcc _ _ _].
  destruct (dict_groups _ _ Hcc) as (Hsound & Hkeys & Hcomplete).
  split_and!.
  - intros st g h Hst Hg.
    pose proof (Hsound g h st Hst Hg) as [n Hn]%list_elem_of_lookup.
    destruct (Forall2_lookup_r _ _ _ _ _ Hc Hn) as (e & He & Hk & Hv).
    exists e. split; [by eapply list_elem_of_lookup_2|done].
  - intros e He.
    destruct (Forall2_elem_of_l _ _ _ _ Hc He) as ([g h] & Hrow & Hg & _).
    destruct (Hkeys g) as (st & Hst & Hsome).
    { apply list_elem_of_fmap. by exists (g, h). }
    by exists g, st.
  - intros Hinj e He.
    assert (NoDup rows_c.*1) as Hnd.
    { apply NoDup_alt. intros i j g. rewrite !list_lookup_fmap.
      destruct (rows_c !! i) as [ri|] eqn:Hi; [|done].
      destruct (rows_c !! j) as [rj|] eqn:Hj; [|done]. simpl.
      destruct (Forall2_lookup_r _ _ _ _ _ Hc Hi) as (ei & Hei & Hri & _).
      destruct (Forall2_lookup_r _ _ _ _ _ Hc Hj) as (ej & Hej & Hrj & _).
      intros [= <-] [= Heq]. apply (Hinj i j ei ej Hei Hej). congruence. }
    destruct (Forall2_elem_of_l _ _ _ _ Hc He) as ([g h] & Hrow & Hg & Hh).
    destruct (proj1 (Hcomplete Hnd) g h Hrow) as (st & Hst & Hlookup).
    by exists g, h, st.
Qed.

Lemma assemble_font_chars_witness :
  ∃ doc t c2c,
    assemble_font Sample.crowded_input Sample.chain [(65, 66)%N] [] =
      Ok doc ∧
    doc_GSUB doc = Some t ∧
    Otl.lookups t !! "char2char" =
      Some {| flags := JObj []; typed := gsub_single c2c |} ∧
    ∃ st, st ∈ c2c ∧ is_Some (st !! "a").
Proof.
  assert (∃ doc,
            assemble_font Sample.crowded_input Sample.chain [(65, 66)%N] [] =
              Ok doc)
    as [doc Hdoc]
    by (apply sample_chain_assembles; [repeat constructor..|simpl; lia]).
  destruct (assemble_font_chars _ _ _ _ _ Hdoc)
    as (t & c2c & Ht & Hl & _ & Hkeys & _).
  destruct (Hkeys (65, 66)%N) as (g & st & Hg & Hst & Hsome); [by left|].
  exists doc, t, c2c. split; [exact Hdoc|]. split; [exact Ht|].
  split; [exact Hl|]. exists st. split; [exact Hst|].
  change (cmap Sample.chain !! (65, 66)%N.1) with (Some "a") in Hg.
  by injection Hg as <-.
Defined.
